(** * SonarCloud issues exporter ([get-issues.js]): model and properties

    A shallow embedding of the export script.  The script is one linear
    pipeline: [fetchAllIssues] pages through the search endpoint,
    [writeBySeverity] groups the records by severity, sorts every group,
    cuts the groups of the five known severities into chunks of twenty
    and writes one Markdown file per chunk, and [main] glues the two
    together and turns any exception into exit status 1.

    Modelling conventions.
    - JavaScript strings are [string]s (read as UTF-8 bytes); every
      character the script looks for (colon, pipe, CR, LF) is ASCII, so
      searching and replacing by byte agrees with the UTF-16 view.
    - Numbers that the script handles are integers ([Z]); the loop
      bound [total] starts at [Infinity], hence the type [num].
    - Effects are a trace of [event]s paired with a [result]: the value
      returned, the exception thrown, or [Pending] when the script
      awaits a response that the simulated server never supplies.
    - What the platform supplies and the script only calls
      ([String.prototype.localeCompare], [Date] parsing) is a field of
      the class [Runtime]; the environment variables are a record. *)

From Stdlib Require Import ZArith List String Ascii DecimalString DecimalZ Bool Lia.
From Stdlib Require Import Sorting.Sorted Sorting.Permutation.
Import ListNotations.

Open Scope string_scope.
Open Scope list_scope.
Open Scope Z_scope.

Infix "+++" := String.append (right associativity, at level 60).

(** ** JavaScript string primitives used by the script *)

Definition LF : ascii := "010"%char.
Definition CR : ascii := "013"%char.
Definition PIPE : ascii := "|"%char.
Definition BACKSLASH : ascii := "\"%char.
Definition COLON : ascii := ":"%char.

(** [String(n)] and template interpolation of an integer. *)
Definition String_of_Z (z : Z) : string :=
  NilEmpty.string_of_int (Z.to_int z).

Definition String_of_nat (n : nat) : string := String_of_Z (Z.of_nat n).

(** [s.indexOf(c)] for a one-character needle: -1 when absent. *)
Fixpoint indexOf (c : ascii) (s : string) : Z :=
  match s with
  | EmptyString => -1
  | String d s' =>
      if Ascii.eqb d c then 0
      else let i := indexOf c s' in if i <? 0 then -1 else i + 1
  end.

Fixpoint dropChars (n : nat) (s : string) : string :=
  match n, s with
  | O, _ => s
  | S _, EmptyString => EmptyString
  | S n', String _ s' => dropChars n' s'
  end.

Fixpoint takeChars (n : nat) (s : string) : string :=
  match n, s with
  | O, _ => EmptyString
  | S _, EmptyString => EmptyString
  | S n', String c s' => String c (takeChars n' s')
  end.

(** [s.slice(start)] and [s.slice(0, n)] for non-negative arguments, the
    only way the script calls them. *)
Definition sliceFrom (start : Z) (s : string) : string :=
  dropChars (Z.to_nat start) s.

Definition sliceTo (n : Z) (s : string) : string :=
  takeChars (Z.to_nat n) s.

(** [s.replace(/\|/g, "\\|")]. *)
Fixpoint replacePipes (s : string) : string :=
  match s with
  | EmptyString => EmptyString
  | String c s' =>
      if Ascii.eqb c PIPE
      then String BACKSLASH (String PIPE (replacePipes s'))
      else String c (replacePipes s')
  end.

(** [s.replace(/\r?\n/g, "<br>")]: a line feed, together with the
    carriage return right before it when there is one, becomes [<br>];
    a carriage return that no line feed follows stays. *)
Fixpoint replaceNewlines (s : string) : string :=
  match s with
  | EmptyString => EmptyString
  | String c s' =>
      if Ascii.eqb c LF then "<br>" +++ replaceNewlines s'
      else if Ascii.eqb c CR then
        match s' with
        | String d s'' =>
            if Ascii.eqb d LF then "<br>" +++ replaceNewlines s''
            else String c (replaceNewlines s')
        | EmptyString => String c (replaceNewlines s')
        end
      else String c (replaceNewlines s')
  end.

(** [URLSearchParams.prototype.toString] percent-encodes names and
    values with the application/x-www-form-urlencoded byte serializer:
    ASCII letters, digits and [*-._] stay, a space becomes [+], any
    other byte becomes [%XX] in upper-case hexadecimal. *)
Definition hexDigit (n : N) : ascii :=
  if (n <? 10)%N then ascii_of_N (48 + n) else ascii_of_N (55 + n).

Definition isUrlSafe (c : ascii) : bool :=
  let n := N_of_ascii c in
  ((48 <=? n) && (n <=? 57) || (65 <=? n) && (n <=? 90)
   || (97 <=? n) && (n <=? 122)
   || (n =? 42) || (n =? 45) || (n =? 46) || (n =? 95))%N.

Fixpoint formEncode (s : string) : string :=
  match s with
  | EmptyString => EmptyString
  | String c s' =>
      if isUrlSafe c then String c (formEncode s')
      else if Ascii.eqb c " "%char then String "+"%char (formEncode s')
      else
        let n := N_of_ascii c in
        String "%"%char
          (String (hexDigit (n / 16)) (String (hexDigit (n mod 16)) (formEncode s')))
  end.

Definition formPair (kv : string * string) : string :=
  formEncode (fst kv) +++ "=" +++ formEncode (snd kv).

Fixpoint joinWith (sep : string) (l : list string) : string :=
  match l with
  | [] => ""
  | [x] => x
  | x :: rest => x +++ sep +++ joinWith sep rest
  end.

Definition URLSearchParams_toString (params : list (string * string)) : string :=
  joinWith "&" (map formPair params).

(** ** Configuration *)

Record Env := {
  env_SONAR_TOKEN : option string;
  env_BRANCH : option string
}.

Definition ORG : string := "useago".
Definition PROJECT_KEY : string := "useago_ago-chat".
Definition BASE_URL : string := "https://sonarcloud.io/api/issues/search".
Definition PAGE_SIZE : Z := 500.
Definition SEVERITIES : list string :=
  ["BLOCKER"; "CRITICAL"; "MAJOR"; "MINOR"; "INFO"].
Definition ISSUES_PER_FILE : nat := 20.

(** [process.env.BRANCH || ""]: an unset or empty variable is no branch. *)
Definition BRANCH (env : Env) : string :=
  match env_BRANCH env with
  | Some b => b
  | None => ""
  end.

(** JavaScript truthiness of a string. *)
Definition truthy (s : string) : bool :=
  match s with
  | EmptyString => false
  | _ => true
  end.

(** ** Data model *)

Record issue := {
  key : string;
  component : string;
  type : string;
  rule : string;
  severity : string;
  status : string;
  line : option Z;
  message : string;
  creationDate : option string
}.

Record Paging := { paging_total : option Z }.

(** The JSON object of a response; an absent (or null) field is [None]. *)
Record Payload := {
  json_total : option Z;
  json_paging : option Paging;
  json_issues : option (list issue)
}.

(** A response of the search endpoint: the HTTP status, the raw body
    ([res.text()]) and the body read as a JSON object ([res.json()]). *)
Record Response := {
  res_status : Z;
  res_text : string;
  res_json : Payload
}.

(** [res.ok]: the status is in the range 200-299. *)
Definition res_ok (r : Response) : bool :=
  (200 <=? res_status r) && (res_status r <=? 299).

(** A JavaScript number that may be [Infinity]. *)
Inductive num :=
| Fin (z : Z)
| Infinity.

Definition num_lt (a : Z) (b : num) : bool :=
  match b with
  | Fin z => a <? z
  | Infinity => true
  end.

(** What the platform supplies. [localeCompare a b] is
    [a.localeCompare(b)]; [toISOString s] is
    [new Date(s).toISOString()], [None] when the date is invalid and
    the call throws a [RangeError]. *)
Class Runtime := {
  localeCompare : string -> string -> Z;
  toISOString : string -> option string
}.

(** What the language requires of [localeCompare]: a consistent
    comparison on all strings, that is the three-way comparison of a
    total preorder.  The order itself is left to the platform's
    collation, and two different strings may compare 0. *)
Class ConsistentCompare (rt : Runtime) : Prop := {
  localeCompare_refl : forall a, localeCompare a a = 0;
  localeCompare_antisym : forall a b, localeCompare a b < 0 <-> 0 < localeCompare b a;
  localeCompare_le_trans :
    forall a b c, localeCompare a b <= 0 -> localeCompare b c <= 0 -> localeCompare a c <= 0
}.

(** ** Effects *)

Inductive event :=
| Fetch (url : string)
| Sleep (ms : Z)
| WriteFile (filename content : string)
| ConsoleLog (text : string)
| ConsoleError (text : string).

(** A thrown [Error]: what [err.message] holds. *)
Record exn := Error { err_message : string }.

Inductive result (A : Type) :=
| Returned (a : A)
| Threw (e : exn)
| Pending.
Arguments Returned {A} a.
Arguments Threw {A} e.
Arguments Pending {A}.

Definition io (A : Type) : Type := list event * result A.

Definition ret {A} (a : A) : io A := ([], Returned a).
Definition throw {A} (e : exn) : io A := ([], Threw e).
Definition emit (e : event) : io unit := ([e], Returned tt).

Definition bind {A B} (m : io A) (f : A -> io B) : io B :=
  match snd m with
  | Returned a => let r := f a in (fst m ++ fst r, snd r)
  | Threw e => (fst m, Threw e)
  | Pending => (fst m, Pending)
  end.

Notation "x <- m ;; k" := (bind m (fun x => k))
  (at level 100, m at next level, right associativity).
Notation "m ;;; k" := (bind m (fun _ => k))
  (at level 100, right associativity).

Fixpoint forEach {A} (l : list A) (body : A -> io unit) : io unit :=
  match l with
  | [] => ret tt
  | x :: rest => body x ;;; forEach rest body
  end.

Definition trace {A} (m : io A) : list event := fst m.
Definition outcome {A} (m : io A) : result A := snd m.

Definition requestsOf (t : list event) : list string :=
  flat_map (fun e => match e with Fetch u => [u] | _ => [] end) t.

Definition filesOf (t : list event) : list (string * string) :=
  flat_map (fun e => match e with WriteFile n c => [(n, c)] | _ => [] end) t.

(** ** The association from severity to bucket ([new Map(...)])

    A JavaScript [Map] keeps its entries in insertion order, so it is an
    association list in which every key occurs once. *)

Definition JsMap (V : Type) : Type := list (string * V).

Fixpoint Map_get {V} (k : string) (m : JsMap V) : option V :=
  match m with
  | [] => None
  | (k', v) :: rest => if String.eqb k' k then Some v else Map_get k rest
  end.

Definition Map_has {V} (k : string) (m : JsMap V) : bool :=
  match Map_get k m with
  | Some _ => true
  | None => false
  end.

Fixpoint Map_set {V} (k : string) (v : V) (m : JsMap V) : JsMap V :=
  match m with
  | [] => [(k, v)]
  | (k', v') :: rest =>
      if String.eqb k' k then (k', v) :: rest else (k', v') :: Map_set k v rest
  end.

Definition Map_keys {V} (m : JsMap V) : list string := map fst m.

(** [m.get(k).push(x)]: the array stored under [k] grows in place.
    The script calls it only for a key that the map has. *)
Fixpoint Map_push {V} (k : string) (x : V) (m : JsMap (list V)) : JsMap (list V) :=
  match m with
  | [] => []
  | (k', v) :: rest =>
      if String.eqb k' k then (k', v ++ [x]) :: rest
      else (k', v) :: Map_push k x rest
  end.

(** ** Arrays *)

(** [arr.slice(start, end)] for [0 <= start] and [end <= arr.length]. *)
Definition slice {A} (start stop : nat) (l : list A) : list A :=
  firstn (stop - start) (skipn start l).

(** [Math.ceil(n / d)] on natural numbers. *)
Definition ceilDiv (n d : nat) : nat :=
  (n / d + (if (n mod d =? 0)%nat then 0 else 1))%nat.

(** [arr.sort(cmp)].  The language guarantees a stable sort; for a
    comparator that is consistent on the elements of the array there
    is one stable sorted arrangement, and stable insertion computes it.
    For a comparator that is not, the language leaves the order to the
    implementation and promises a rearrangement only: what is proved
    below about the order of a sorted bucket is stated for buckets on
    which the comparator is consistent. *)
Section Sort.
Context {A : Type} (cmp : A -> A -> Z).

Fixpoint insert (x : A) (l : list A) : list A :=
  match l with
  | [] => [x]
  | y :: rest => if cmp x y <=? 0 then x :: y :: rest else y :: insert x rest
  end.

Fixpoint Array_sort (l : list A) : list A :=
  match l with
  | [] => []
  | x :: rest => insert x (Array_sort rest)
  end.
End Sort.

(** ** The script *)

Definition NL : string := String LF EmptyString.

Section Script.
Context (env : Env) {rt : Runtime}.

Definition branchSuffix : string :=
  if truthy (BRANCH env) then " on branch " +++ BRANCH env else "".

Definition buildUrl (page : Z) : string :=
  let params :=
    [("organization", ORG); ("componentKeys", PROJECT_KEY);
     ("resolved", "false"); ("ps", String_of_Z PAGE_SIZE);
     ("p", String_of_Z page)]
    ++ (if truthy (BRANCH env) then [("branch", BRANCH env)] else []) in
  BASE_URL +++ "?" +++ URLSearchParams_toString params.

Definition extractFilePath (component : string) : string :=
  let idx := indexOf COLON component in
  if 0 <=? idx then sliceFrom (idx + 1) component else component.

Definition mdEscape (text : string) : string :=
  replaceNewlines (replacePipes text).

Definition issueUrl (issueKey : string) : string :=
  let params := [("id", PROJECT_KEY); ("issues", issueKey); ("open", issueKey)] in
  "https://sonarcloud.io/project/issues?" +++ URLSearchParams_toString params.

Definition headerFor (severity : string) : string :=
  "# " +++ severity +++ " issues for " +++ ORG +++ "/" +++ PROJECT_KEY
    +++ branchSuffix +++ NL.

Definition NO_ISSUES : string := "_No unresolved issues._" +++ NL.

Definition TABLE_HEADER : string :=
  "| Key | Type | Rule | Severity | Status | File | Line | Message | Created |" +++ NL +++
  "| --- | ---- | ---- | -------- | ------ | ---- | ---- | ------- | ------- |" +++ NL.

(** [it.creationDate ? new Date(it.creationDate).toISOString().slice(0, 10) : ""] *)
Definition createdOf (it : issue) : io string :=
  match creationDate it with
  | None => ret ""
  | Some d =>
      if truthy d then
        match toISOString d with
        | Some iso => ret (sliceTo 10 iso)
        | None => throw (Error "Invalid time value")
        end
      else ret ""
  end.

(** [it.line ?? ""], then [String(...)] inside [mdEscape]. *)
Definition lineOf (it : issue) : string :=
  match line it with
  | Some n => String_of_Z n
  | None => ""
  end.

Definition renderRow (it : issue) : io string :=
  let file := extractFilePath (component it) in
  let line := lineOf it in
  created <- createdOf it ;;
  let keyLink := "[" +++ key it +++ "](" +++ issueUrl (key it) +++ ")" in
  ret ("| " +++ keyLink +++ " | " +++ mdEscape (type it) +++ " | " +++ mdEscape (rule it)
       +++ " | " +++ mdEscape (severity it) +++ " | " +++ mdEscape (status it)
       +++ " | " +++ mdEscape file +++ " | " +++ mdEscape line
       +++ " | " +++ mdEscape (message it) +++ " | " +++ mdEscape created +++ " |").

Fixpoint mapM {A B} (f : A -> io B) (l : list A) : io (list B) :=
  match l with
  | [] => ret []
  | x :: rest => y <- f x ;; ys <- mapM f rest ;; ret (y :: ys)
  end.

Definition renderTable (issues : list issue) : io string :=
  if (List.length issues =? 0)%nat then ret NO_ISSUES
  else
    rows <- mapM renderRow issues ;;
    ret (TABLE_HEADER +++ joinWith NL rows +++ NL).

(** [data.total ?? data.paging?.total ?? 0] *)
Definition totalOf (data : Payload) : Z :=
  match json_total data with
  | Some t => t
  | None =>
      match json_paging data with
      | Some p => match paging_total p with Some t => t | None => 0 end
      | None => 0
      end
  end.

(** [data.issues ?? []] *)
Definition issuesOf (data : Payload) : list issue :=
  match json_issues data with
  | Some l => l
  | None => []
  end.

(** The loop of [fetchAllIssues], one iteration per response of the
    simulated server; [rs] are the responses still to come. *)
Fixpoint fetchLoop (rs : list Response) (page : Z) (total : num)
    (all : list issue) : io (list issue) :=
  if num_lt ((page - 1) * PAGE_SIZE) total then
    emit (Fetch (buildUrl page)) ;;;
    match rs with
    | [] => ([], Pending)
    | res :: rs' =>
        if negb (res_ok res) then
          throw (Error ("SonarCloud API error " +++ String_of_Z (res_status res)
                        +++ ": " +++ res_text res))
        else
          let data := res_json res in
          let total' := totalOf data in
          let issues' := issuesOf data in
          let all' := all ++ issues' in
          (if Z.of_nat (List.length issues') =? PAGE_SIZE then emit (Sleep 100) else ret tt) ;;;
          fetchLoop rs' (page + 1) (Fin total') all'
    end
  else ret all.

Definition fetchAllIssues (rs : list Response) : io (list issue) :=
  fetchLoop rs 1 Infinity [].

(** [it.line ?? 0] *)
Definition lineOr0 (it : issue) : Z :=
  match line it with
  | Some n => n
  | None => 0
  end.

(** The comparator handed to [arr.sort]. *)
Definition compareIssues (a b : issue) : Z :=
  let af := extractFilePath (component a) in
  let bf := extractFilePath (component b) in
  if negb (String.eqb af bf) then localeCompare af bf
  else
    let al := lineOr0 a in
    let bl := lineOr0 b in
    if negb (al =? bl) then al - bl
    else localeCompare (key a) (key b).

(** The grouping loop. *)
Definition groupStep (bySeverity : JsMap (list issue)) (it : issue)
    : JsMap (list issue) :=
  let m := if negb (Map_has (severity it) bySeverity)
           then Map_set (severity it) [] bySeverity else bySeverity in
  Map_push (severity it) it m.

Definition groupBySeverity (issues : list issue) : JsMap (list issue) :=
  fold_left groupStep issues (map (fun s => (s, [])) SEVERITIES).

(** The sorting loop over [bySeverity.keys()]. *)
Definition sortBuckets (bySeverity : JsMap (list issue)) : JsMap (list issue) :=
  map (fun kv => (fst kv, Array_sort compareIssues (snd kv))) bySeverity.

Definition partHeader (sev : string) (fileNumber numFiles : nat) : string :=
  "# " +++ sev +++ " issues for " +++ ORG +++ "/" +++ PROJECT_KEY
    +++ branchSuffix
    +++ " (Part " +++ String_of_nat fileNumber +++ "/" +++ String_of_nat numFiles +++ ")"
    +++ NL.

Definition chunkAt (allIssues : list issue) (i : nat) : list issue :=
  let start := (i * ISSUES_PER_FILE)%nat in
  let stop := Nat.min (start + ISSUES_PER_FILE) (List.length allIssues) in
  slice start stop allIssues.

(** One iteration of the writing loop: the files of one severity.
    File names are relative to the working directory. *)
Definition writeBucket (sev : string) (allIssues : list issue) : io unit :=
  let totalIssues := List.length allIssues in
  if (totalIssues =? 0)%nat then
    let filename := sev +++ ".md" in
    table <- renderTable [] ;;
    let content := headerFor sev +++ NL +++ table in
    emit (WriteFile filename content) ;;;
    emit (ConsoleLog ("Wrote " +++ filename +++ " (0 issues)"))
  else
    let numFiles := ceilDiv totalIssues ISSUES_PER_FILE in
    forEach (seq 0 numFiles) (fun i =>
      let chunk := chunkAt allIssues i in
      let fileNumber := (i + 1)%nat in
      let filename := sev +++ String_of_nat fileNumber +++ ".md" in
      let header := partHeader sev fileNumber numFiles in
      table <- renderTable chunk ;;
      let content := header +++ NL +++ table in
      emit (WriteFile filename content) ;;;
      emit (ConsoleLog ("Wrote " +++ filename +++ " (" +++ String_of_nat (List.length chunk)
                        +++ " issues)"))).

Definition writeBySeverity (issues : list issue) : io unit :=
  let bySeverity := sortBuckets (groupBySeverity issues) in
  forEach SEVERITIES (fun sev =>
    let allIssues := match Map_get sev bySeverity with Some a => a | None => [] end in
    writeBucket sev allIssues).

(** How the process ends. *)
Inductive exit :=
| Exited (code : Z)
| Hung.

(** [err.message || err]; every error of the model has a message. *)
Definition errorText (e : exn) : string :=
  if truthy (err_message e) then err_message e else "Error".

Definition mainBody (rs : list Response) : io unit :=
  emit (ConsoleLog ("Fetching unresolved issues from SonarCloud for "
                    +++ ORG +++ "/" +++ PROJECT_KEY +++ branchSuffix +++ "...")) ;;;
  issues <- fetchAllIssues rs ;;
  emit (ConsoleLog ("Fetched " +++ String_of_nat (List.length issues)
                    +++ " issues. Writing Markdown files...")) ;;;
  writeBySeverity issues ;;;
  emit (ConsoleLog "Done.").

(** [main]: the [try] block, and the [catch] that logs and exits 1. *)
Definition main (rs : list Response) : list event * exit :=
  match outcome (mainBody rs) with
  | Returned _ => (trace (mainBody rs), Exited 0)
  | Threw e => (trace (mainBody rs) ++ [ConsoleError (errorText e)], Exited 1)
  | Pending => (trace (mainBody rs), Hung)
  end.

(** The module from top to bottom: the token check, then [main()]. *)
Definition script (rs : list Response) : list event * exit :=
  match env_SONAR_TOKEN env with
  | Some t =>
      if truthy t then main rs
      else ([ConsoleError "Missing SONAR_TOKEN env var."], Exited 1)
  | None => ([ConsoleError "Missing SONAR_TOKEN env var."], Exited 1)
  end.

End Script.

(** ** Notions used to state the properties *)

Definition hasSeverity (s : string) (it : issue) : bool :=
  String.eqb (severity it) s.

Definition knownSeverity (it : issue) : bool :=
  existsb (String.eqb (severity it)) SEVERITIES.

(** The sizes of all buckets together. *)
Definition bucketSizes {V} (m : JsMap (list V)) : nat :=
  list_sum (map (fun kv => List.length (snd kv)) m).

(** The order that the comparator [cmp] sorts into. *)
Definition sortedBy {A} (cmp : A -> A -> Z) (x y : A) : Prop := cmp x y <= 0.

(** The comparator on the three sort keys of two records. *)
Definition cmp3 {rt : Runtime} (af : string) (al : Z) (ak : string)
    (bf : string) (bl : Z) (bk : string) : Z :=
  if negb (String.eqb af bf) then localeCompare af bf
  else if negb (al =? bl) then al - bl
  else localeCompare ak bk.

(** The bucket of a severity after grouping and sorting. *)
Definition bucketOf {rt : Runtime} (issues : list issue) (sev : string) : list issue :=
  Array_sort compareIssues (filter (hasSeverity sev) issues).

(** The chunks of a bucket, as the writing loop cuts them. *)
Definition chunksOf (allIssues : list issue) : list (list issue) :=
  map (chunkAt allIssues) (seq 0 (ceilDiv (List.length allIssues) ISSUES_PER_FILE)).

(** The error of a response with a non-success status, and the pause
    after a full page, as one iteration of the fetch loop produces
    them. *)
Definition apiErrorOf (res : Response) : exn :=
  Error ("SonarCloud API error " +++ String_of_Z (res_status res)
         +++ ": " +++ res_text res).

Definition sleepAfter (res : Response) : list event :=
  if Z.of_nat (List.length (issuesOf (res_json res))) =? PAGE_SIZE
  then [Sleep 100] else [].

(** The header line of a file: what names organization, project and
    branch, then the part marker, which may be empty. *)
Definition headerLine (env : Env) (sev marker : string) : string :=
  "# " +++ sev +++ " issues for " +++ ORG +++ "/" +++ PROJECT_KEY
    +++ branchSuffix env +++ marker +++ NL.

Definition partMarker (fileNumber numFiles : nat) : string :=
  " (Part " +++ String_of_nat fileNumber +++ "/" +++ String_of_nat numFiles +++ ")".

(** What a written file looks like: it belongs to one of the five
    severities; for an empty bucket it is [SEV.md] with the plain header
    and the placeholder, for a bucket with records it is [SEVi.md] with
    the header carrying the part marker [i/n], [n] the number of chunks,
    and the table of chunk [i]. *)
Definition writtenFileShape (env : Env) {rt : Runtime} (issues : list issue)
    (name content : string) : Prop :=
  exists sev,
    In sev SEVERITIES
    /\ ((bucketOf issues sev = []
         /\ name = sev +++ ".md"
         /\ headerFor env sev = headerLine env sev ""
         /\ content = headerFor env sev +++ NL +++ NO_ISSUES)
        \/ (bucketOf issues sev <> []
            /\ exists i table,
                 let n := ceilDiv (List.length (bucketOf issues sev)) ISSUES_PER_FILE in
                 (i < n)%nat
                 /\ name = sev +++ String_of_nat (i + 1) +++ ".md"
                 /\ outcome (renderTable (chunkAt (bucketOf issues sev) i)) = Returned table
                 /\ partHeader env sev (i + 1) n = headerLine env sev (partMarker (i + 1) n)
                 /\ content = partHeader env sev (i + 1) n +++ NL +++ table)).

(** The text before the first line feed. *)
Fixpoint firstLine (s : string) : string :=
  match s with
  | EmptyString => EmptyString
  | String c s' => if Ascii.eqb c LF then EmptyString else String c (firstLine s')
  end.

(** Whether [sub] occurs in [s]. *)
Definition contains (sub s : string) : bool :=
  match String.index 0 sub s with
  | Some _ => true
  | None => false
  end.

Definition hasChar (c : ascii) (s : string) : bool :=
  existsb (Ascii.eqb c) (list_ascii_of_string s).

(** A pipe that no backslash precedes; [prev] is the character before
    [s]. *)
Fixpoint barePipeAfter (prev : ascii) (s : string) : bool :=
  match s with
  | EmptyString => false
  | String c s' =>
      (Ascii.eqb c PIPE && negb (Ascii.eqb prev BACKSLASH)) || barePipeAfter c s'
  end.

Definition hasBarePipe (s : string) : bool := barePipeAfter " "%char s.

(** Whether the strings of a list are pairwise different. *)
Fixpoint distinctb (l : list string) : bool :=
  match l with
  | [] => true
  | x :: rest => negb (existsb (String.eqb x) rest) && distinctb rest
  end.

(** ** The comparator as the specification words it

    The file path is what follows the first colon of the component
    identifier (the whole identifier when it has no colon); records are
    compared by file path, then by line with a missing line read as 0,
    then by key, each next criterion deciding when the previous one
    finds the two equal. *)

Fixpoint afterFirstColon (s : string) : option string :=
  match s with
  | EmptyString => None
  | String c s' => if Ascii.eqb c COLON then Some s' else afterFirstColon s'
  end.

Definition specFilePath (component : string) : string :=
  match afterFirstColon component with
  | Some rest => rest
  | None => component
  end.

(** The line of a record, a missing line read as 0. *)
Definition specLine (it : issue) : Z :=
  match line it with
  | Some n => n
  | None => 0
  end.

Definition specCompare {rt : Runtime} (a b : issue) : Z :=
  let c := localeCompare (specFilePath (component a)) (specFilePath (component b)) in
  if c =? 0 then
    let d := specLine a - specLine b in
    if d =? 0 then localeCompare (key a) (key b) else d
  else c.

(** ** Strings that the collation tells apart

    [localeCompare] tells [x] from [y] when it does not return 0 for
    them although they differ; it tells the strings of a list apart
    when it does so for any two of them. *)

Definition collatesApart {rt : Runtime} (x y : string) : bool :=
  String.eqb x y || negb (localeCompare x y =? 0).

Definition tellsApart {rt : Runtime} (l : list string) : bool :=
  forallb (fun x => forallb (collatesApart x) l) l.

Definition filePathOf (it : issue) : string := extractFilePath (component it).

Definition pathsApart {rt : Runtime} (l : list issue) : bool :=
  tellsApart (map filePathOf l).

Definition keysApart {rt : Runtime} (l : list issue) : bool :=
  tellsApart (map key l).

(** ** Further notions: characters, dates, events *)

Fixpoint countChar (c : ascii) (s : string) : nat :=
  match s with
  | EmptyString => 0%nat
  | String d s' => ((if Ascii.eqb c d then 1 else 0) + countChar c s')%nat
  end.

Definition allChars (p : ascii -> bool) (s : string) : bool :=
  forallb p (list_ascii_of_string s).

(** The characters that a form-encoded string is made of. *)
Definition formSafeChar (c : ascii) : bool :=
  isUrlSafe c || Ascii.eqb c "+"%char || Ascii.eqb c "%"%char.

(** Whether rendering the creation date of a record succeeds: the date
    is absent, empty, or one that [Date] accepts. *)
Definition dateOk {rt : Runtime} (it : issue) : bool :=
  match creationDate it with
  | None => true
  | Some d =>
      if truthy d then
        match toISOString d with
        | Some _ => true
        | None => false
        end
      else true
  end.

Definition sleepsOf (t : list event) : list Z :=
  flat_map (fun e => match e with Sleep ms => [ms] | _ => [] end) t.

Definition isFetchOrSleep (e : event) : bool :=
  match e with
  | Fetch _ | Sleep _ => true
  | _ => false
  end.

Definition isWriteOrLog (e : event) : bool :=
  match e with
  | WriteFile _ _ | ConsoleLog _ => true
  | _ => false
  end.

(** A page that holds exactly [PAGE_SIZE] records. *)
Definition fullPage (r : Response) : bool :=
  Z.of_nat (List.length (issuesOf (res_json r))) =? PAGE_SIZE.

(** The names of the files of a bucket of [n] records, in the order
    the writing loop produces them. *)
Definition bucketFileNames (sev : string) (n : nat) : list string :=
  if (n =? 0)%nat then [sev +++ ".md"]
  else map (fun i => sev +++ String_of_nat (i + 1) +++ ".md")
           (seq 0 (ceilDiv n ISSUES_PER_FILE)).

(** [l1] is an initial part of [l2]. *)
Definition isPrefix {A} (l1 l2 : list A) : Prop := exists rest, l2 = l1 ++ rest.

(** The names of all files of a run that completes, in writing order. *)
Definition expectedFileNames (issues : list issue) : list string :=
  flat_map (fun sev =>
              bucketFileNames sev (List.length (filter (hasSeverity sev) issues)))
           SEVERITIES.

Definition fileNamesOf (t : list event) : list string := map fst (filesOf t).

(** Records that the comparator cannot tell from [z]. *)
Definition tiesWith {rt : Runtime} (z : issue) (x : issue) : bool :=
  compareIssues x z =? 0.

(** [SONAR_TOKEN] is set and not empty. *)
Definition hasToken (env : Env) : bool :=
  match env_SONAR_TOKEN env with
  | Some t => truthy t
  | None => false
  end.

(** The two progress messages of [main]. *)
Definition helloText (env : Env) : string :=
  "Fetching unresolved issues from SonarCloud for "
  +++ ORG +++ "/" +++ PROJECT_KEY +++ branchSuffix env +++ "...".

Definition fetchedText (l : list issue) : string :=
  "Fetched " +++ String_of_nat (List.length l) +++ " issues. Writing Markdown files...".

(** The file that the writing loop produces for chunk [i] of a bucket
    cut into [n] chunks, given the rendered table. *)
Definition chunkFile (env : Env) (sev : string) (n i : nat) (table : string)
    : string * string :=
  (sev +++ String_of_nat (i + 1) +++ ".md",
   partHeader env sev (i + 1) n +++ NL +++ table).

Definition startsWith (c : ascii) (s : string) : bool :=
  match s with
  | EmptyString => false
  | String d _ => Ascii.eqb d c
  end.

Fixpoint endsWith (c : ascii) (s : string) : bool :=
  match s with
  | EmptyString => false
  | String d EmptyString => Ascii.eqb d c
  | String _ s' => endsWith c s'
  end.

(** ** A runtime and sample data to run the script on

    Byte-wise lexicographic comparison stands for [localeCompare], and a
    date is accepted when it starts with [dddd-dd-dd]. *)

Definition codeUnitCompare (a b : string) : Z :=
  match String.compare a b with
  | Lt => -1
  | Eq => 0
  | Gt => 1
  end.

Definition isDigit (c : ascii) : bool :=
  let n := N_of_ascii c in ((48 <=? n) && (n <=? 57))%N.

Fixpoint matchesShape (shape : list bool) (s : string) : bool :=
  match shape, s with
  | [], _ => true
  | _ :: _, EmptyString => false
  | d :: shape', String c s' =>
      (if d then isDigit c else Ascii.eqb c "-"%char) && matchesShape shape' s'
  end.

Definition stubISOString (s : string) : option string :=
  if matchesShape [true; true; true; true; false; true; true; false; true; true] s
  then Some (takeChars 10 s +++ "T00:00:00.000Z")
  else None.

#[export] Instance testRuntime : Runtime :=
  {| localeCompare := codeUnitCompare; toISOString := stubISOString |}.

Definition testEnv : Env :=
  {| env_SONAR_TOKEN := Some "token"; env_BRANCH := None |}.

Definition mkIssue (k comp sev : string) (ln : option Z) (msg : string) : issue :=
  {| key := k; component := comp; type := "BUG"; rule := "js:S1"; severity := sev;
     status := "OPEN"; line := ln; message := msg;
     creationDate := Some "2024-01-15T10:00:00+0000" |}.

Definition issueA : issue :=
  mkIssue "K1" "useago_ago-chat:src/a.ts" "MAJOR" (Some 10) "first".
Definition issueB : issue :=
  mkIssue "K2" "useago_ago-chat:src/a.ts" "MAJOR" None "second".
Definition issueC : issue :=
  mkIssue "K3" "useago_ago-chat:src/b.ts" "MINOR" (Some 3) "third".

(** A record of a severity that is not one of the five. *)
Definition issueU : issue :=
  mkIssue "K9" "useago_ago-chat:src/x.ts" "UNKNOWN" (Some 7) "odd one".

(** A record whose key holds a line feed and whose message holds a
    pipe and a line break. *)
Definition issueN : issue :=
  {| key := "K" +++ NL +++ "1"; component := "useago_ago-chat:src/n.ts"; type := "BUG";
     rule := "js:S1"; severity := "MAJOR"; status := "OPEN"; line := Some 4;
     message := "a|b" +++ NL +++ "c"; creationDate := None |}.

(** Forty-five records of severity MAJOR with keys [K0] to [K44],
    fetched in the reverse of their sorted order. *)
Definition majorIssue (i : nat) : issue :=
  mkIssue ("K" +++ String_of_nat i) "useago_ago-chat:src/a.ts" "MAJOR"
          (Some (Z.of_nat (44 - i))) "finding".

Definition majors45 : list issue := map majorIssue (seq 0 45).

(** A simulated page: status 200 declaring [t] records in all. *)
Definition okPage (t : Z) (l : list issue) : Response :=
  {| res_status := 200; res_text := "";
     res_json := {| json_total := Some t; json_paging := None; json_issues := Some l |} |}.

Definition failPage (st : Z) (body : string) : Response :=
  {| res_status := st; res_text := body;
     res_json := {| json_total := None; json_paging := None; json_issues := None |} |}.

(** A response whose body is the empty JSON object. *)
Definition emptyObjectPage : Response :=
  {| res_status := 200; res_text := "{}";
     res_json := {| json_total := None; json_paging := None; json_issues := None |} |}.

Definition pageA : list issue := repeat issueA 500.
Definition pageB : list issue := repeat issueB 500.
Definition pageC : list issue := repeat issueC 200.

(** ** A runtime whose collation has ties

    In the Unicode collation behind [localeCompare] the control
    characters U+0000 to U+0008, U+000E to U+001F and U+007F are
    ignorable: they take no part in a comparison, so a string and the
    same string with such a character added compare 0.
    [collatingCompare] drops these characters and compares what is left
    by code unit.  The real collation orders the remaining characters
    in its own way; what is modelled here is which strings tie. *)

Definition ignorable (c : ascii) : bool :=
  let n := N_of_ascii c in
  ((n <? 9) || ((14 <=? n) && (n <? 32)) || (n =? 127))%N.

Fixpoint collationKey (s : string) : string :=
  match s with
  | EmptyString => EmptyString
  | String c s' => if ignorable c then collationKey s' else String c (collationKey s')
  end.

Definition collatingCompare (a b : string) : Z :=
  codeUnitCompare (collationKey a) (collationKey b).

Definition collatingRuntime : Runtime :=
  {| localeCompare := collatingCompare; toISOString := stubISOString |}.

(** U+0001, a control character. *)
Definition SOH : ascii := "001"%char.

(** Two records of one file and line whose keys differ by a control
    character only. *)
Definition issueK : issue :=
  mkIssue "K1" "useago_ago-chat:src/a.ts" "MAJOR" (Some 20) "one".
Definition issueK' : issue :=
  mkIssue ("K1" +++ String SOH EmptyString) "useago_ago-chat:src/a.ts" "MAJOR"
          (Some 20) "other".

(** Three records, the second of a file whose path differs from that
    of the other two by a control character only. *)
Definition issueP1 : issue :=
  mkIssue "P1" "useago_ago-chat:src/a.ts" "MAJOR" (Some 5) "first".
Definition issueP2 : issue :=
  mkIssue "P2" ("useago_ago-chat:src/a.ts" +++ String SOH EmptyString) "MAJOR"
          (Some 1) "second".
Definition issueP3 : issue :=
  mkIssue "P3" "useago_ago-chat:src/a.ts" "MAJOR" (Some 1) "third".

(** Twenty-one records of one file with unique keys: lines 1 to 19,
    then [issueK] and [issueK'] on line 20. *)
Definition ladder (i : nat) : issue :=
  mkIssue ("A" +++ String_of_nat i) "useago_ago-chat:src/a.ts" "MAJOR"
          (Some (Z.of_nat i)) "step".

Definition tieBucket : list issue := map ladder (seq 1 19) ++ [issueK; issueK'].

(** * Properties *)

(** ** The effect monad *)

Lemma bind_returned {A B} (m : io A) (f : A -> io B) a :
  outcome m = Returned a ->
  bind m f = (trace m ++ trace (f a), outcome (f a)).
Proof. unfold bind, outcome, trace. intros ->. reflexivity. Qed.

Lemma bind_threw {A B} (m : io A) (f : A -> io B) e :
  outcome m = Threw e -> bind m f = (trace m, Threw e).
Proof. unfold bind, outcome, trace. intros ->. reflexivity. Qed.

Lemma bind_ret_l {A B} (a : A) (f : A -> io B) : bind (ret a) f = f a.
Proof. unfold bind, ret. simpl. destruct (f a); reflexivity. Qed.

Lemma bind_emit {B} (e : event) (k : io B) :
  bind (emit e) (fun _ => k) = (e :: trace k, outcome k).
Proof. reflexivity. Qed.

Lemma filesOf_app t1 t2 : filesOf (t1 ++ t2) = filesOf t1 ++ filesOf t2.
Proof. unfold filesOf. apply flat_map_app. Qed.

Lemma requestsOf_app t1 t2 : requestsOf (t1 ++ t2) = requestsOf t1 ++ requestsOf t2.
Proof. unfold requestsOf. apply flat_map_app. Qed.

(** The trace of a [bind] starts with the trace of its first part. *)
Lemma bind_trace_cases {A B} (m : io A) (f : A -> io B) :
  (exists a, outcome m = Returned a /\ trace (bind m f) = trace m ++ trace (f a)
             /\ outcome (bind m f) = outcome (f a))
  \/ (trace (bind m f) = trace m /\ forall b, outcome (bind m f) <> Returned b).
Proof.
  unfold bind, outcome, trace. destruct (snd m) as [a|e|]; simpl.
  - left. exists a. auto.
  - right. split; [reflexivity | discriminate].
  - right. split; [reflexivity | discriminate].
Qed.

(** A loop that runs to its end ran every iteration to its end, and its
    trace is the iterations' traces one after the other. *)
Lemma forEach_returned {A} (l : list A) (body : A -> io unit) :
  (forall x, In x l -> outcome (body x) = Returned tt) ->
  forEach l body = (flat_map (fun x => trace (body x)) l, Returned tt).
Proof.
  induction l as [|x l IH]; intros Hall; simpl.
  - reflexivity.
  - rewrite (bind_returned _ _ tt) by (apply Hall; left; reflexivity).
    rewrite IH by (intros y Hy; apply Hall; right; exact Hy).
    reflexivity.
Qed.

(** Every file a loop writes is written by one of its iterations. *)
Lemma forEach_files {A} (l : list A) (body : A -> io unit) f :
  In f (filesOf (trace (forEach l body))) ->
  exists x, In x l /\ In f (filesOf (trace (body x))).
Proof.
  induction l as [|x l IH]; simpl; intros Hin.
  - contradiction.
  - destruct (bind_trace_cases (body x) (fun _ => forEach l body))
      as [(a & _ & Ht & _) | (Ht & _)]; rewrite Ht in Hin.
    + rewrite filesOf_app in Hin. apply in_app_or in Hin as [Hin | Hin].
      * exists x. auto.
      * destruct (IH Hin) as (y & Hy & Hf). exists y. auto.
    + exists x. auto.
Qed.

(** ** The map *)

Lemma Map_get_set {V} k (v : V) m s :
  Map_get s (Map_set k v m) = if String.eqb k s then Some v else Map_get s m.
Proof.
  induction m as [|[k' v'] m IH]; simpl.
  - reflexivity.
  - destruct (String.eqb k' k) eqn:Ek; simpl.
    + apply String.eqb_eq in Ek. subst k'.
      destruct (String.eqb k s); reflexivity.
    + destruct (String.eqb k' s) eqn:Es.
      * destruct (String.eqb k s) eqn:Eks; [|reflexivity].
        apply String.eqb_eq in Es, Eks. subst.
        rewrite String.eqb_refl in Ek. discriminate.
      * exact IH.
Qed.

Lemma Map_get_push {V} k (x : V) m s :
  Map_get s (Map_push k x m) =
  if String.eqb k s then option_map (fun b => b ++ [x]) (Map_get s m)
  else Map_get s m.
Proof.
  induction m as [|[k' v'] m IH]; simpl.
  - destruct (String.eqb k s); reflexivity.
  - destruct (String.eqb k' k) eqn:Ek; simpl.
    + apply String.eqb_eq in Ek. subst k'.
      destruct (String.eqb k s); reflexivity.
    + destruct (String.eqb k' s) eqn:Es.
      * destruct (String.eqb k s) eqn:Eks; [|reflexivity].
        apply String.eqb_eq in Es, Eks. subst.
        rewrite String.eqb_refl in Ek. discriminate.
      * exact IH.
Qed.

Lemma Map_keys_push {V} k (x : V) m : Map_keys (Map_push k x m) = Map_keys m.
Proof.
  induction m as [|[k' v'] m IH]; simpl; [reflexivity|].
  destruct (String.eqb k' k); simpl; [reflexivity|].
  f_equal. exact IH.
Qed.

Lemma Map_get_None_keys {V} k (m : JsMap V) :
  Map_get k m = None <-> ~ In k (Map_keys m).
Proof.
  induction m as [|[k' v'] m IH]; simpl.
  - tauto.
  - destruct (String.eqb k' k) eqn:Ek.
    + apply String.eqb_eq in Ek. split; [discriminate | intros H; exfalso; auto].
    + apply String.eqb_neq in Ek. rewrite IH. tauto.
Qed.

Lemma Map_keys_set_new {V} k (v : V) m :
  Map_get k m = None -> Map_keys (Map_set k v m) = Map_keys m ++ [k].
Proof.
  induction m as [|[k' v'] m IH]; simpl; [reflexivity|].
  destruct (String.eqb k' k); [discriminate|].
  intros H. simpl. f_equal. apply IH. exact H.
Qed.

Lemma Map_get_In {V} k (b : V) m :
  NoDup (Map_keys m) -> In (k, b) m -> Map_get k m = Some b.
Proof.
  induction m as [|[k' v'] m IH]; simpl; intros Hnd Hin; [contradiction|].
  inversion Hnd as [|? ? Hnotin Hnd']; subst.
  destruct Hin as [Heq | Hin].
  - inversion Heq; subst. rewrite String.eqb_refl. reflexivity.
  - destruct (String.eqb k' k) eqn:Ek.
    + apply String.eqb_eq in Ek. subst k'. exfalso. apply Hnotin.
      change k with (fst (k, b)). apply in_map. exact Hin.
    + apply IH; assumption.
Qed.

Lemma Map_get_Some_In {V} k (b : V) m : Map_get k m = Some b -> In (k, b) m.
Proof.
  induction m as [|[k' v'] m IH]; simpl; [discriminate|].
  destruct (String.eqb k' k) eqn:Ek.
  - apply String.eqb_eq in Ek. intros H. inversion H; subst. left. reflexivity.
  - intros H. right. apply IH. exact H.
Qed.

Lemma bucketSizes_set_new {V} k (m : JsMap (list V)) :
  bucketSizes (Map_set k [] m) = bucketSizes m \/ Map_get k m <> None.
Proof.
  induction m as [|[k' v'] m IH]; simpl.
  - left. reflexivity.
  - destruct (String.eqb k' k) eqn:Ek.
    + right. discriminate.
    + destruct IH as [IH | IH]; [left | right; exact IH].
      unfold bucketSizes in *. simpl. rewrite IH. reflexivity.
Qed.

Lemma bucketSizes_push {V} k (x : V) m :
  Map_get k m <> None -> bucketSizes (Map_push k x m) = S (bucketSizes m).
Proof.
  induction m as [|[k' v'] m IH]; simpl; intros H.
  - congruence.
  - destruct (String.eqb k' k) eqn:Ek.
    + unfold bucketSizes. simpl. rewrite length_app. simpl. lia.
    + unfold bucketSizes in *. simpl. rewrite IH by exact H. lia.
Qed.

(** ** Grouping *)

Lemma groupStep_get m it s :
  Map_get s (groupStep m it) =
  if hasSeverity s it
  then Some (match Map_get s m with Some b => b | None => [] end ++ [it])
  else Map_get s m.
Proof.
  unfold groupStep, Map_has, hasSeverity.
  destruct (Map_get (severity it) m) as [b|] eqn:E; simpl; rewrite Map_get_push.
  - destruct (String.eqb (severity it) s) eqn:Es; [|reflexivity].
    apply String.eqb_eq in Es. subst s. rewrite E. reflexivity.
  - rewrite Map_get_set.
    destruct (String.eqb (severity it) s) eqn:Es; [|reflexivity].
    apply String.eqb_eq in Es. subst s. rewrite E. reflexivity.
Qed.

Lemma groupStep_keys m it :
  NoDup (Map_keys m) -> NoDup (Map_keys (groupStep m it)).
Proof.
  unfold groupStep, Map_has. intros Hnd.
  destruct (Map_get (severity it) m) as [b|] eqn:E; simpl; rewrite Map_keys_push.
  - exact Hnd.
  - rewrite Map_keys_set_new by exact E.
    apply NoDup_app; [exact Hnd | repeat constructor; simpl; tauto |].
    intros k Hk [Hk' | []]. subst k.
    apply (proj1 (Map_get_None_keys _ _) E). exact Hk.
Qed.

Lemma groupStep_sizes m it : bucketSizes (groupStep m it) = S (bucketSizes m).
Proof.
  unfold groupStep, Map_has.
  destruct (Map_get (severity it) m) as [b|] eqn:E; simpl.
  - apply bucketSizes_push. congruence.
  - rewrite bucketSizes_push.
    + destruct (bucketSizes_set_new (severity it) m) as [H | H]; congruence.
    + rewrite Map_get_set, String.eqb_refl. discriminate.
Qed.

Lemma group_fold_get l : forall m s,
  Map_get s (fold_left groupStep l m) =
  match Map_get s m with
  | Some b => Some (b ++ filter (hasSeverity s) l)
  | None => if existsb (hasSeverity s) l
            then Some (filter (hasSeverity s) l) else None
  end.
Proof.
  induction l as [|it l IH]; intros m s; simpl.
  - destruct (Map_get s m); [rewrite app_nil_r|]; reflexivity.
  - rewrite IH, groupStep_get.
    destruct (hasSeverity s it); simpl.
    + destruct (Map_get s m); simpl; [rewrite <- app_assoc|]; reflexivity.
    + reflexivity.
Qed.

Lemma group_fold_keys l : forall m,
  NoDup (Map_keys m) -> NoDup (Map_keys (fold_left groupStep l m)).
Proof.
  induction l as [|it l IH]; intros m Hnd; simpl; [exact Hnd|].
  apply IH, groupStep_keys, Hnd.
Qed.

Lemma group_fold_sizes l : forall m,
  bucketSizes (fold_left groupStep l m) = (bucketSizes m + List.length l)%nat.
Proof.
  induction l as [|it l IH]; intros m; simpl; [lia|].
  rewrite IH, groupStep_sizes. lia.
Qed.

Lemma initial_get (l : list string) s :
  Map_get s (map (fun s => (s, @nil issue)) l) =
  if existsb (String.eqb s) l then Some [] else None.
Proof.
  induction l as [|k l IH]; [reflexivity|].
  cbn [map Map_get existsb]. rewrite (String.eqb_sym s k).
  destruct (String.eqb k s); [reflexivity | exact IH].
Qed.

Lemma groupBySeverity_get issues s :
  Map_get s (groupBySeverity issues) =
  if existsb (String.eqb s) SEVERITIES || existsb (hasSeverity s) issues
  then Some (filter (hasSeverity s) issues) else None.
Proof.
  unfold groupBySeverity. rewrite group_fold_get, initial_get.
  destruct (existsb (String.eqb s) SEVERITIES); simpl; reflexivity.
Qed.

Lemma groupBySeverity_keys issues : NoDup (Map_keys (groupBySeverity issues)).
Proof.
  apply group_fold_keys. unfold Map_keys. rewrite map_map, map_id.
  unfold SEVERITIES. repeat constructor; cbn [In]; intuition discriminate.
Qed.

Lemma existsb_eqb_In s l : existsb (String.eqb s) l = true <-> In s l.
Proof.
  rewrite existsb_exists. split.
  - intros (x & Hx & E). apply String.eqb_eq in E. subst. exact Hx.
  - intros H. exists s. split; [exact H | apply String.eqb_refl].
Qed.

(** C6: grouping is a partition of the fetched records.  The keys of
    the map are distinct; each of the five known severities has a
    bucket, empty or not; the bucket under a label holds the records of
    that severity, in the order fetched, and a label has a bucket only
    when it is known or some record carries it; a fetched record lies
    in the bucket of its own severity and in no other; the bucket sizes
    add up to the number of fetched records. *)
Theorem groupBySeverity_partition (issues : list issue) :
  let g := groupBySeverity issues in
  NoDup (Map_keys g)
  /\ (forall s, In s SEVERITIES -> exists b, Map_get s g = Some b)
  /\ (forall s, Map_get s g =
        if existsb (String.eqb s) SEVERITIES || existsb (hasSeverity s) issues
        then Some (filter (hasSeverity s) issues) else None)
  /\ (forall it k b, In it issues -> In (k, b) g -> (In it b <-> k = severity it))
  /\ bucketSizes g = List.length issues.
Proof.
  cbv zeta. split; [apply groupBySeverity_keys|].
  split.
  { intros s Hs. rewrite groupBySeverity_get.
    apply existsb_eqb_In in Hs. rewrite Hs. simpl. eauto. }
  split; [apply groupBySeverity_get|].
  split.
  { intros it k b Hit Hkb.
    pose proof (Map_get_In _ _ _ (groupBySeverity_keys issues) Hkb) as Hget.
    rewrite groupBySeverity_get in Hget.
    destruct (_ || _); [|discriminate].
    inversion Hget as [Hb]. rewrite filter_In. unfold hasSeverity.
    rewrite String.eqb_eq. split; [intros [_ E]; auto | intros ->; auto]. }
  unfold groupBySeverity. rewrite group_fold_sizes. reflexivity.
Qed.

(** ** Sorting with a consistent comparator *)

Section SortFacts.
Context {A : Type} (cmp : A -> A -> Z) (P : A -> Prop).
Hypothesis cmp_antisym : forall x y, cmp x y < 0 <-> 0 < cmp y x.
Hypothesis cmp_le_trans :
  forall x y z, P x -> P y -> P z -> cmp x y <= 0 -> cmp y z <= 0 -> cmp x z <= 0.

Lemma insert_perm x l : Permutation (x :: l) (insert cmp x l).
Proof.
  induction l as [|y l IH]; simpl; [reflexivity|].
  destruct (cmp x y <=? 0); [reflexivity|].
  rewrite perm_swap. apply perm_skip. exact IH.
Qed.

Lemma Array_sort_perm l : Permutation l (Array_sort cmp l).
Proof.
  induction l as [|x l IH]; simpl; [reflexivity|].
  rewrite <- insert_perm. apply perm_skip. exact IH.
Qed.

Lemma Array_sort_Forall l : Forall P l -> Forall P (Array_sort cmp l).
Proof. apply Permutation_Forall, Array_sort_perm. Qed.

Lemma insert_sorted x l : Sorted (sortedBy cmp) l -> Sorted (sortedBy cmp) (insert cmp x l).
Proof.
  induction l as [|y l IH]; simpl; intros Hs.
  - repeat constructor.
  - destruct (cmp x y <=? 0) eqn:E.
    + apply Z.leb_le in E. constructor; [exact Hs | constructor; exact E].
    + apply Z.leb_gt in E. inversion Hs as [|? ? Hs' Hhd]; subst.
      constructor; [apply IH; exact Hs'|].
      assert (Hyx : sortedBy cmp y x) by (unfold sortedBy; apply cmp_antisym in E; lia).
      destruct l as [|z l]; simpl.
      * constructor. exact Hyx.
      * destruct (cmp x z <=? 0); constructor;
          [exact Hyx | inversion Hhd; assumption].
Qed.

Lemma Array_sort_sorted l : Sorted (sortedBy cmp) (Array_sort cmp l).
Proof.
  induction l as [|x l IH]; simpl; [constructor | apply insert_sorted, IH].
Qed.

Lemma Array_sort_fixed l : Sorted (sortedBy cmp) l -> Array_sort cmp l = l.
Proof.
  induction l as [|x l IH]; simpl; intros Hs; [reflexivity|].
  inversion Hs as [|? ? Hs' Hhd]; subst. rewrite IH by exact Hs'.
  destruct Hhd as [|y l Hxy]; simpl; [reflexivity|].
  unfold sortedBy in Hxy. apply Z.leb_le in Hxy. rewrite Hxy. reflexivity.
Qed.

Lemma Array_sort_idempotent l :
  Array_sort cmp (Array_sort cmp l) = Array_sort cmp l.
Proof. apply Array_sort_fixed, Array_sort_sorted. Qed.

(** With a comparison that is transitive on the elements, every
    element of the sorted list is in order with every later one. *)
Lemma insert_strongly_sorted x l :
  P x -> Forall P l ->
  StronglySorted (sortedBy cmp) l -> StronglySorted (sortedBy cmp) (insert cmp x l).
Proof.
  intros Hx HP. induction HP as [|y l Hy HPl IH]; simpl; intros Hs.
  - constructor; constructor.
  - inversion Hs as [|? ? Hs' Hall]; subst.
    rewrite Forall_forall in HPl, Hall.
    destruct (cmp x y <=? 0) eqn:E.
    + apply Z.leb_le in E. constructor; [exact Hs|].
      constructor; [exact E|].
      rewrite Forall_forall. intros z Hz. unfold sortedBy.
      apply (cmp_le_trans x y z); auto. apply Hall. exact Hz.
    + apply Z.leb_gt in E. constructor; [apply IH; exact Hs'|].
      rewrite Forall_forall. intros z Hz.
      apply (Permutation_in _ (Permutation_sym (insert_perm x l))) in Hz.
      destruct Hz as [<- | Hz]; [|apply Hall; exact Hz].
      unfold sortedBy. apply cmp_antisym in E. lia.
Qed.

Lemma Array_sort_strongly_sorted l :
  Forall P l -> StronglySorted (sortedBy cmp) (Array_sort cmp l).
Proof.
  intros HP. induction HP as [|x l Hx HPl IH]; simpl; [constructor|].
  apply insert_strongly_sorted; [exact Hx | apply Array_sort_Forall; exact HPl | exact IH].
Qed.

Lemma insert_comm x y l :
  P x -> P y -> Forall P l -> cmp x y <> 0 ->
  insert cmp x (insert cmp y l) = insert cmp y (insert cmp x l).
Proof.
  intros Hx Hy HP Hne.
  pose proof (cmp_antisym x y) as Hxy. pose proof (cmp_antisym y x) as Hyx.
  induction HP as [|z l Hz HPl IH]; simpl.
  - destruct (cmp x y <=? 0) eqn:E1, (cmp y x <=? 0) eqn:E2; try reflexivity;
      rewrite ?Z.leb_le, ?Z.leb_gt in *; lia.
  - pose proof (cmp_le_trans x y z Hx Hy Hz) as T1.
    pose proof (cmp_le_trans y x z Hy Hx Hz) as T2.
    destruct (cmp y z <=? 0) eqn:Eyz, (cmp x z <=? 0) eqn:Exz; simpl;
      destruct (cmp x y <=? 0) eqn:E1, (cmp y x <=? 0) eqn:E2;
      rewrite ?Eyz, ?Exz; try reflexivity;
      try (rewrite ?Z.leb_le, ?Z.leb_gt in *; lia).
    all: rewrite IH; reflexivity.
Qed.

(** The result depends on the records only, not on the order they
    arrive in, as long as no two of them compare equal. *)
Lemma Array_sort_deterministic l l' :
  Forall P l ->
  Permutation l l' ->
  ForallOrdPairs (fun x y => cmp x y <> 0) l ->
  Array_sort cmp l = Array_sort cmp l'.
Proof.
  intros HP Hp. revert HP.
  induction Hp as [|x l l' Hp IH|x y l|l l' l'' Hp1 IH1 Hp2 IH2];
    intros HP Hd; simpl.
  - reflexivity.
  - inversion HP; inversion Hd; subst. rewrite IH by assumption. reflexivity.
  - inversion HP as [|? ? Py HP']; subst. inversion HP' as [|? ? Px HPl]; subst.
    inversion Hd as [|? ? Hy Hd']; subst.
    apply insert_comm; [exact Py | exact Px | apply Array_sort_Forall; exact HPl |].
    inversion Hy; subst. assumption.
  - rewrite IH1 by assumption. apply IH2.
    { apply (Permutation_Forall Hp1). exact HP. }
    clear - Hp1 Hd cmp_antisym.
    assert (Hsym : forall x y, cmp x y <> 0 -> cmp y x <> 0).
    { intros x y H H0. pose proof (cmp_antisym x y).
      pose proof (cmp_antisym y x). lia. }
    induction Hp1 as [|x l l' Hp IH|x y l|l l' l'' Hp1 IH1 Hp2 IH2].
    + constructor.
    + inversion Hd as [|? ? Hx Hd']; subst. constructor; [|apply IH; exact Hd'].
      rewrite Forall_forall in *. intros z Hz. apply Hx.
      apply Permutation_sym in Hp. eapply Permutation_in; eassumption.
    + inversion Hd as [|? ? Hy Hd']; subst.
      inversion Hd' as [|? ? Hx Hd'']; subst.
      inversion Hy as [|? ? Hyx Hyl]; subst.
      constructor; [constructor; [apply Hsym; exact Hyx | exact Hx]|].
      constructor; assumption.
    + auto.
Qed.

(** Elements that compare 0 with [z] keep their order. *)
Lemma ties_transitive x y z :
  P x -> P y -> P z -> cmp x z = 0 -> cmp y z = 0 -> cmp x y = 0.
Proof.
  intros Px Py Pz Hx Hy.
  pose proof (cmp_antisym x z). pose proof (cmp_antisym z x).
  pose proof (cmp_antisym y z). pose proof (cmp_antisym z y).
  pose proof (cmp_antisym x y). pose proof (cmp_antisym y x).
  pose proof (cmp_le_trans x z y Px Pz Py).
  pose proof (cmp_le_trans y z x Py Pz Px). lia.
Qed.

Lemma insert_keeps_ties z x l :
  P z -> P x -> Forall P l ->
  filter (fun y => cmp y z =? 0) (insert cmp x l)
  = filter (fun y => cmp y z =? 0) (x :: l).
Proof.
  intros Pz Px HP. induction HP as [|y l Py HPl IH]; [reflexivity|].
  cbn [insert]. destruct (cmp x y <=? 0) eqn:E; [reflexivity|].
  apply Z.leb_gt in E. cbn [filter] in *. rewrite IH.
  destruct (cmp x z =? 0) eqn:Ex, (cmp y z =? 0) eqn:Ey; try reflexivity.
  apply Z.eqb_eq in Ex, Ey. pose proof (ties_transitive x y z Px Py Pz Ex Ey). lia.
Qed.

Lemma Array_sort_stable z l :
  P z -> Forall P l ->
  filter (fun y => cmp y z =? 0) (Array_sort cmp l)
  = filter (fun y => cmp y z =? 0) l.
Proof.
  intros Pz HP. induction HP as [|x l Px HPl IH]; [reflexivity|].
  cbn [Array_sort]. rewrite insert_keeps_ties by (auto using Array_sort_Forall).
  cbn [filter]. rewrite IH. reflexivity.
Qed.
End SortFacts.

(** ** The comparator *)

Lemma indexOf_afterFirstColon s :
  match afterFirstColon s with
  | None => indexOf COLON s = -1
  | Some r => 0 <= indexOf COLON s /\ sliceFrom (indexOf COLON s + 1) s = r
  end.
Proof.
  unfold sliceFrom. induction s as [|d s IH]; simpl; [reflexivity|].
  destruct (Ascii.eqb d COLON).
  - split; [lia | reflexivity].
  - destruct (afterFirstColon s) as [r|].
    + destruct IH as [Hi Hr].
      destruct (indexOf COLON s <? 0) eqn:E; [apply Z.ltb_lt in E; lia|].
      split; [lia|].
      replace (Z.to_nat (indexOf COLON s + 1 + 1))
        with (S (Z.to_nat (indexOf COLON s + 1))) by lia.
      exact Hr.
    + rewrite IH. reflexivity.
Qed.

Lemma extractFilePath_spec c : extractFilePath c = specFilePath c.
Proof.
  unfold extractFilePath, specFilePath.
  pose proof (indexOf_afterFirstColon c) as H.
  destruct (afterFirstColon c) as [r|].
  - destruct H as [Hi Hr]. apply Z.leb_le in Hi. rewrite Hi. exact Hr.
  - rewrite H. reflexivity.
Qed.

(** What it means that the collation tells strings apart. *)
Lemma collatesApart_true {rt : Runtime} x y :
  collatesApart x y = true -> localeCompare x y = 0 -> x = y.
Proof.
  unfold collatesApart. destruct (String.eqb x y) eqn:E.
  - intros _ _. apply String.eqb_eq. exact E.
  - cbn [orb]. intros H H0. rewrite H0 in H. discriminate.
Qed.

Lemma tellsApart_In {rt : Runtime} l x y :
  tellsApart l = true -> In x l -> In y l -> collatesApart x y = true.
Proof.
  unfold tellsApart. rewrite forallb_forall. intros H Hx Hy.
  specialize (H x Hx). rewrite forallb_forall in H. auto.
Qed.

Lemma pathsApart_In {rt : Runtime} l a b :
  pathsApart l = true -> In a l -> In b l ->
  collatesApart (filePathOf a) (filePathOf b) = true.
Proof.
  intros H Ha Hb. apply (tellsApart_In _ _ _ H); apply in_map; assumption.
Qed.

Lemma keysApart_In {rt : Runtime} l a b :
  keysApart l = true -> In a l -> In b l -> collatesApart (key a) (key b) = true.
Proof.
  intros H Ha Hb. apply (tellsApart_In _ _ _ H); apply in_map; assumption.
Qed.

Section CompareFacts.
Context {rt : Runtime} {CC : ConsistentCompare rt}.

Ltac cmp3_cases :=
  unfold cmp3;
  repeat match goal with
    | |- context [String.eqb ?x ?y] =>
        let E := fresh "E" in
        destruct (String.eqb x y) eqn:E;
        [apply String.eqb_eq in E; subst | apply String.eqb_neq in E]
    | |- context [Z.eqb ?x ?y] =>
        let E := fresh "E" in
        destruct (Z.eqb x y) eqn:E;
        [apply Z.eqb_eq in E; subst | apply Z.eqb_neq in E]
    end; cbn [negb].

Lemma cmp3_zero af al ak bf bl bk :
  collatesApart af bf = true ->
  cmp3 af al ak bf bl bk = 0 <-> af = bf /\ al = bl /\ localeCompare ak bk = 0.
Proof.
  intros Hap. pose proof (collatesApart_true af bf Hap) as Hsep. revert Hsep. clear Hap.
  cmp3_cases; intros Hsep; split;
    try solve [intuition congruence | intuition lia].
Qed.

Lemma cmp3_antisym af al ak bf bl bk :
  cmp3 af al ak bf bl bk < 0 <-> 0 < cmp3 bf bl bk af al ak.
Proof.
  cmp3_cases; try congruence; try apply localeCompare_antisym; lia.
Qed.

Lemma cmp3_le_trans af al ak bf bl bk cf cl ck :
  collatesApart af bf = true ->
  cmp3 af al ak bf bl bk <= 0 -> cmp3 bf bl bk cf cl ck <= 0 ->
  cmp3 af al ak cf cl ck <= 0.
Proof.
  intros Hap. pose proof (collatesApart_true af bf Hap) as Hsep. revert Hsep. clear Hap.
  cmp3_cases; intros Hsep H1 H2; try congruence; try lia;
    try solve [eapply localeCompare_le_trans; eassumption].
  all: match goal with
       | Hn : ?x <> ?y, Ha : localeCompare ?x ?y <= 0, Hb : localeCompare ?y ?x <= 0 |- _ =>
           exfalso; apply Hn, Hsep;
           pose proof (proj1 (localeCompare_antisym x y));
           pose proof (proj1 (localeCompare_antisym y x)); lia
       end.
Qed.

Lemma compareIssues_cmp3 a b :
  compareIssues a b =
  cmp3 (extractFilePath (component a)) (lineOr0 a) (key a)
       (extractFilePath (component b)) (lineOr0 b) (key b).
Proof. reflexivity. Qed.

(** The records that compare 0, when the collation tells their file
    paths apart. *)
Lemma compareIssues_zero a b :
  collatesApart (filePathOf a) (filePathOf b) = true ->
  compareIssues a b = 0 <->
  extractFilePath (component a) = extractFilePath (component b)
  /\ lineOr0 a = lineOr0 b /\ localeCompare (key a) (key b) = 0.
Proof. rewrite compareIssues_cmp3. apply cmp3_zero. Qed.

Lemma compareIssues_antisym a b :
  compareIssues a b < 0 <-> 0 < compareIssues b a.
Proof. rewrite !compareIssues_cmp3. apply cmp3_antisym. Qed.

Lemma compareIssues_le_trans a b c :
  collatesApart (filePathOf a) (filePathOf b) = true ->
  compareIssues a b <= 0 -> compareIssues b c <= 0 -> compareIssues a c <= 0.
Proof. rewrite !compareIssues_cmp3. apply cmp3_le_trans. Qed.

(** On a bucket whose file paths the collation tells apart the
    comparator is transitive. *)
Lemma bucket_le_trans l :
  pathsApart l = true ->
  forall a b c, In a l -> In b l -> In c l ->
    compareIssues a b <= 0 -> compareIssues b c <= 0 -> compareIssues a c <= 0.
Proof.
  intros Hp a b c Ha Hb _. apply compareIssues_le_trans.
  apply (pathsApart_In l a b Hp Ha Hb).
Qed.

Lemma bucket_lt_trans l :
  pathsApart l = true ->
  forall a b c, In a l -> In b l -> In c l ->
    compareIssues a b < 0 -> compareIssues b c < 0 -> compareIssues a c < 0.
Proof.
  intros Hp a b c Ha Hb Hc H1 H2.
  assert (Hle : compareIssues a c <= 0)
    by (apply (bucket_le_trans l Hp a b c); auto; lia).
  destruct (Z.eq_dec (compareIssues a c) 0) as [E | E]; [exfalso | lia].
  assert (Hcb : compareIssues c b <= 0).
  { apply (bucket_le_trans l Hp c a b); auto; [|lia].
    pose proof (compareIssues_antisym a c). pose proof (compareIssues_antisym c a). lia. }
  pose proof (compareIssues_antisym b c). lia.
Qed.

Lemma compareIssues_spec a b :
  collatesApart (filePathOf a) (filePathOf b) = true ->
  compareIssues a b = specCompare a b.
Proof.
  intros Hap. pose proof (collatesApart_true _ _ Hap) as Hsep. unfold filePathOf in Hsep.
  unfold compareIssues, specCompare. change specLine with lineOr0.
  rewrite !extractFilePath_spec in *.
  destruct (String.eqb (specFilePath (component a)) (specFilePath (component b))) eqn:E;
    cbn [negb].
  - apply String.eqb_eq in E. rewrite E, localeCompare_refl. cbn [Z.eqb].
    destruct (lineOr0 a =? lineOr0 b) eqn:El; cbn [negb].
    + apply Z.eqb_eq in El. rewrite El, Z.sub_diag. reflexivity.
    + apply Z.eqb_neq in El.
      destruct (lineOr0 a - lineOr0 b =? 0) eqn:Ed; [|reflexivity].
      apply Z.eqb_eq in Ed. lia.
  - apply String.eqb_neq in E.
    destruct (localeCompare _ _ =? 0) eqn:Ec; [|reflexivity].
    apply Z.eqb_eq in Ec. apply Hsep in Ec. contradiction.
Qed.

(** Records with different keys do not compare 0, when the collation
    tells their file paths and their keys apart. *)
Lemma different_keys_differ a b :
  collatesApart (filePathOf a) (filePathOf b) = true ->
  collatesApart (key a) (key b) = true ->
  key a <> key b -> compareIssues a b <> 0.
Proof.
  intros Hp Hk Hne H0. apply (compareIssues_zero a b Hp) in H0 as (_ & _ & H0).
  apply Hne. apply (collatesApart_true _ _ Hk H0).
Qed.

Lemma unique_keys_distinct (l : list issue) :
  pathsApart l = true -> keysApart l = true ->
  NoDup (map key l) -> ForallOrdPairs (fun a b => compareIssues a b <> 0) l.
Proof.
  intros Hp Hk.
  assert (H : forall a b, In a l -> In b l -> key a <> key b -> compareIssues a b <> 0).
  { intros a b Ha Hb. apply different_keys_differ;
      [apply (pathsApart_In l) | apply (keysApart_In l)]; assumption. }
  clear Hp Hk. induction l as [|a l IH]; simpl; intros Hnd; [constructor|].
  inversion Hnd as [|? ? Hnotin Hnd']; subst.
  constructor.
  - rewrite Forall_forall. intros b Hb. apply H; [left; reflexivity | right; exact Hb |].
    intros E. apply Hnotin. rewrite E. apply in_map. exact Hb.
  - apply IH; [|exact Hnd']. intros x y Hx Hy. apply H; right; assumption.
Qed.

(** The facts about the sort, for a bucket whose file paths the
    collation tells apart. *)
Lemma bucket_In_Forall (l : list issue) : Forall (fun it => In it l) l.
Proof. rewrite Forall_forall. auto. Qed.

Lemma bucket_strongly_sorted l :
  pathsApart l = true ->
  StronglySorted (sortedBy compareIssues) (Array_sort compareIssues l).
Proof.
  intros Hp.
  apply (Array_sort_strongly_sorted compareIssues (fun it => In it l)).
  - apply compareIssues_antisym.
  - apply (bucket_le_trans l Hp).
  - apply bucket_In_Forall.
Qed.

Lemma bucket_sort_deterministic l l' :
  pathsApart l = true -> keysApart l = true -> NoDup (map key l) ->
  Permutation l l' ->
  Array_sort compareIssues l = Array_sort compareIssues l'.
Proof.
  intros Hp Hk Hnd Hperm.
  apply (Array_sort_deterministic compareIssues (fun it => In it l)).
  - apply compareIssues_antisym.
  - apply (bucket_le_trans l Hp).
  - apply bucket_In_Forall.
  - exact Hperm.
  - apply unique_keys_distinct; assumption.
Qed.

Lemma bucket_ties_kept l z :
  pathsApart l = true -> In z l ->
  filter (tiesWith z) (Array_sort compareIssues l) = filter (tiesWith z) l.
Proof.
  intros Hp Hz. unfold tiesWith.
  apply (Array_sort_stable compareIssues (fun it => In it l)).
  - apply compareIssues_antisym.
  - apply (bucket_le_trans l Hp).
  - exact Hz.
  - apply bucket_In_Forall.
Qed.
End CompareFacts.

(** ** The evaluation runtimes *)

Lemma String_compare_refl s : String.compare s s = Eq.
Proof.
  pose proof (String.compare_antisym s s) as H.
  destruct (String.compare s s); simpl in H; congruence.
Qed.

Lemma String_compare_lt_trans a : forall b c,
  String.compare a b = Lt -> String.compare b c = Lt -> String.compare a c = Lt.
Proof.
  induction a as [|x a IH]; intros [|y b] [|z c]; simpl; try congruence.
  unfold Ascii.compare.
  destruct (N.compare_spec (N_of_ascii x) (N_of_ascii y)) as [Exy | Lxy | Gxy];
    try discriminate;
    destruct (N.compare_spec (N_of_ascii y) (N_of_ascii z)) as [Eyz | Lyz | Gyz];
    try discriminate; intros H1 H2.
  - rewrite Exy, Eyz, N.compare_refl. eapply IH; eassumption.
  - rewrite Exy. apply N.compare_lt_iff in Lyz. rewrite Lyz. reflexivity.
  - rewrite <- Eyz. apply N.compare_lt_iff in Lxy. rewrite Lxy. reflexivity.
  - assert (L : (N_of_ascii x < N_of_ascii z)%N) by lia.
    apply N.compare_lt_iff in L. rewrite L. reflexivity.
Qed.

Lemma codeUnitCompare_refl a : codeUnitCompare a a = 0.
Proof. unfold codeUnitCompare. rewrite String_compare_refl. reflexivity. Qed.

Lemma codeUnitCompare_antisym a b : codeUnitCompare a b < 0 <-> 0 < codeUnitCompare b a.
Proof.
  unfold codeUnitCompare. rewrite (String.compare_antisym b a).
  destruct (String.compare a b); simpl; lia.
Qed.

Lemma codeUnitCompare_le_trans a b c :
  codeUnitCompare a b <= 0 -> codeUnitCompare b c <= 0 -> codeUnitCompare a c <= 0.
Proof.
  unfold codeUnitCompare.
  destruct (String.compare a b) eqn:E1; try lia;
    destruct (String.compare b c) eqn:E2; try lia; intros _ _.
  - apply String.compare_eq_iff in E1, E2. subst. rewrite String_compare_refl. lia.
  - apply String.compare_eq_iff in E1. subst. rewrite E2. lia.
  - apply String.compare_eq_iff in E2. subst. rewrite E1. lia.
  - rewrite (String_compare_lt_trans a b c E1 E2). lia.
Qed.

Lemma testRuntime_consistent : ConsistentCompare testRuntime.
Proof.
  split; cbn [localeCompare testRuntime].
  - apply codeUnitCompare_refl.
  - apply codeUnitCompare_antisym.
  - apply codeUnitCompare_le_trans.
Qed.

Lemma collatingRuntime_consistent : ConsistentCompare collatingRuntime.
Proof.
  split; cbn [localeCompare collatingRuntime]; unfold collatingCompare; intros.
  - apply codeUnitCompare_refl.
  - apply codeUnitCompare_antisym.
  - eapply codeUnitCompare_le_trans; eassumption.
Qed.

(** [collatingRuntime] returns 0 for two different strings. *)
Lemma collatingRuntime_ties :
  "K1" <> "K1" +++ String SOH EmptyString
  /\ @localeCompare collatingRuntime "K1" ("K1" +++ String SOH EmptyString) = 0.
Proof. split; [discriminate | reflexivity]. Qed.

(** ** Specification properties: the comparator and the sort *)

(** C3, as the script behaves: the comparator of the sort compares the
    file paths (what follows the first colon of the component) with
    [localeCompare] when they differ, then the lines with a missing
    line read as 0, then the keys with [localeCompare].  Sorting
    rearranges the bucket whatever the collation does.  For a
    [localeCompare] that is a consistent comparison the comparator is
    antisymmetric; on a bucket whose file paths the collation tells
    apart the comparator is the three-key comparison of the
    specification and is transitive, the sorted bucket is in order and
    sorting it again changes nothing; when the collation also tells
    the keys apart, records with different keys never compare 0, and
    with unique keys the sorted bucket does not depend on the order in
    which the records arrive. *)
Theorem compareIssues_strict_total_order {rt : Runtime} :
  (forall c, extractFilePath c = specFilePath c)
  /\ (forall l, Permutation l (Array_sort compareIssues l))
  /\ (ConsistentCompare rt ->
      (forall a b, compareIssues a b < 0 <-> 0 < compareIssues b a)
      /\ forall l, pathsApart l = true ->
           (forall a b, In a l -> In b l -> compareIssues a b = specCompare a b)
           /\ (forall a b c, In a l -> In b l -> In c l ->
                 compareIssues a b < 0 -> compareIssues b c < 0 -> compareIssues a c < 0)
           /\ StronglySorted (sortedBy compareIssues) (Array_sort compareIssues l)
           /\ Array_sort compareIssues (Array_sort compareIssues l)
              = Array_sort compareIssues l
           /\ (Sorted (sortedBy compareIssues) l -> Array_sort compareIssues l = l)
           /\ (keysApart l = true ->
               (forall a b, In a l -> In b l -> key a <> key b -> compareIssues a b <> 0)
               /\ (NoDup (map key l) -> forall l', Permutation l l' ->
                     Array_sort compareIssues l = Array_sort compareIssues l'))).
Proof.
  split; [apply extractFilePath_spec|].
  split; [apply Array_sort_perm|].
  intros CC. split; [apply compareIssues_antisym|].
  intros l Hp.
  split.
  { intros a b Ha Hb. apply compareIssues_spec. apply (pathsApart_In l); assumption. }
  split; [apply bucket_lt_trans; exact Hp|].
  split; [apply bucket_strongly_sorted; exact Hp|].
  split; [apply Array_sort_idempotent, compareIssues_antisym|].
  split.
  { apply Array_sort_fixed. }
  intros Hk. split.
  - intros a b Ha Hb. apply different_keys_differ;
      [apply (pathsApart_In l) | apply (keysApart_In l)]; assumption.
  - intros Hnd l' Hperm. apply bucket_sort_deterministic; assumption.
Qed.

(** C3 as stated fails: the keys [K1] and [K1] followed by U+0001 are
    different and collate equal, so two records of one file and line
    with these keys compare 0 although their keys are unique, and the
    sorted bucket depends on which of the two was fetched first. *)
Lemma distinct_keys_compare_equal :
  let cmp := @compareIssues collatingRuntime in
  NoDup (map key [issueK; issueK'])
  /\ cmp issueK issueK' = 0
  /\ cmp issueK' issueK = 0
  /\ Permutation [issueK; issueK'] [issueK'; issueK]
  /\ Array_sort cmp [issueK; issueK'] = [issueK; issueK']
  /\ Array_sort cmp [issueK'; issueK] = [issueK'; issueK]
  /\ Array_sort cmp [issueK; issueK'] <> Array_sort cmp [issueK'; issueK].
Proof.
  cbv zeta. split.
  { constructor; [|constructor; [|constructor]]; simpl; intros H.
    - destruct H as [H | []]. discriminate H.
    - destruct H. }
  split; [reflexivity|]. split; [reflexivity|].
  split; [apply perm_swap|].
  split; [reflexivity|]. split; [reflexivity|].
  vm_compute. discriminate.
Qed.

(** When two different file paths collate equal the comparator is not
    transitive: the record on line 5 of a file ties with a record of
    the other path, which ties with the record on line 1 of the first
    file. *)
Example compareIssues_not_transitive :
  let cmp := @compareIssues collatingRuntime in
  cmp issueP1 issueP2 = 0 /\ cmp issueP2 issueP3 = 0 /\ cmp issueP1 issueP3 = 4.
Proof. cbv zeta. repeat split; reflexivity. Qed.

(** ** Chunking *)

Lemma firstn_min_length {A} k (l : list A) :
  firstn (Nat.min k (List.length l)) l = firstn k l.
Proof.
  destruct (Nat.le_gt_cases k (List.length l)) as [H | H].
  - rewrite Nat.min_l by exact H. reflexivity.
  - rewrite Nat.min_r by lia. rewrite firstn_all, firstn_all2 by lia. reflexivity.
Qed.

Lemma slice_firstn_skipn {A} start k (l : list A) :
  slice start (Nat.min (start + k) (List.length l)) l = firstn k (skipn start l).
Proof.
  unfold slice. rewrite <- (firstn_min_length k (skipn start l)), length_skipn.
  f_equal. lia.
Qed.

Lemma chunkAt_firstn_skipn l i :
  chunkAt l i = firstn ISSUES_PER_FILE (skipn (i * ISSUES_PER_FILE) l).
Proof. unfold chunkAt. apply slice_firstn_skipn. Qed.

Lemma firstn_add {A} a b (l : list A) :
  firstn (a + b) l = firstn a l ++ firstn b (skipn a l).
Proof.
  revert l. induction a as [|a IH]; intros l; simpl; [reflexivity|].
  destruct l as [|x l]; simpl.
  - rewrite firstn_nil. reflexivity.
  - rewrite IH. reflexivity.
Qed.

Lemma concat_chunks {A} k n (l : list A) :
  List.concat (map (fun i => firstn k (skipn (i * k) l)) (seq 0 n)) = firstn (n * k) l.
Proof.
  induction n as [|n IH].
  - reflexivity.
  - rewrite seq_S, map_app, concat_app, IH. cbn [Nat.add map List.concat].
    rewrite app_nil_r, <- firstn_add. f_equal. lia.
Qed.

Lemma ceilDiv_covers n d : (0 < d -> n <= ceilDiv n d * d)%nat.
Proof.
  intros Hd. unfold ceilDiv.
  pose proof (Nat.div_mod_eq n d) as E.
  pose proof (Nat.mod_upper_bound n d ltac:(lia)) as Hm.
  destruct (n mod d =? 0)%nat eqn:E0.
  - apply Nat.eqb_eq in E0. nia.
  - nia.
Qed.

Lemma ceilDiv_tight n d : (0 < d -> 0 < n -> (ceilDiv n d - 1) * d < n)%nat.
Proof.
  intros Hd Hn. unfold ceilDiv.
  pose proof (Nat.div_mod_eq n d) as E.
  destruct (n mod d =? 0)%nat eqn:E0.
  - apply Nat.eqb_eq in E0.
    assert (0 < n / d)%nat by (destruct (n / d)%nat; [nia | lia]). nia.
  - apply Nat.eqb_neq in E0. nia.
Qed.

Lemma chunksOf_concat l : List.concat (chunksOf l) = l.
Proof.
  unfold chunksOf.
  rewrite (map_ext _ _ (chunkAt_firstn_skipn l)), concat_chunks.
  apply firstn_all2. apply ceilDiv_covers. unfold ISSUES_PER_FILE. lia.
Qed.

Lemma chunksOf_length l :
  List.length (chunksOf l) = ceilDiv (List.length l) ISSUES_PER_FILE.
Proof. unfold chunksOf. rewrite length_map, length_seq. reflexivity. Qed.

Lemma chunksOf_nth l i :
  (i < ceilDiv (List.length l) ISSUES_PER_FILE)%nat ->
  nth i (chunksOf l) [] = chunkAt l i.
Proof.
  intros Hi. unfold chunksOf.
  rewrite (nth_indep _ [] (chunkAt l 0)) by (rewrite length_map, length_seq; exact Hi).
  rewrite map_nth, seq_nth by exact Hi. reflexivity.
Qed.

Lemma chunkAt_length l i :
  List.length (chunkAt l i)
  = Nat.min ISSUES_PER_FILE (List.length l - i * ISSUES_PER_FILE).
Proof. rewrite chunkAt_firstn_skipn, length_firstn, length_skipn. reflexivity. Qed.

Lemma chunkAt_full l i :
  (S i < ceilDiv (List.length l) ISSUES_PER_FILE)%nat ->
  List.length (chunkAt l i) = ISSUES_PER_FILE.
Proof.
  intros Hi. rewrite chunkAt_length.
  assert (0 < List.length l)%nat.
  { destruct l; [|simpl; lia]. vm_compute in Hi. lia. }
  pose proof (ceilDiv_tight (List.length l) ISSUES_PER_FILE) as Ht.
  unfold ISSUES_PER_FILE in *. nia.
Qed.

Lemma chunkAt_nonempty l i :
  (i < ceilDiv (List.length l) ISSUES_PER_FILE)%nat ->
  (1 <= List.length (chunkAt l i) <= ISSUES_PER_FILE)%nat.
Proof.
  intros Hi. rewrite chunkAt_length.
  assert (0 < List.length l)%nat.
  { destruct l; [|simpl; lia]. vm_compute in Hi. lia. }
  pose proof (ceilDiv_tight (List.length l) ISSUES_PER_FILE) as Ht.
  unfold ISSUES_PER_FILE in *. nia.
Qed.

(** Two chunks that follow each other are next to each other in the
    bucket. *)
Lemma chunk_boundary_adjacent l i pre a b post :
  chunkAt l i = pre ++ [a] -> chunkAt l (S i) = b :: post ->
  exists xs ys, l = xs ++ a :: b :: ys.
Proof.
  rewrite !chunkAt_firstn_skipn. intros H1 H2.
  set (k := ISSUES_PER_FILE) in *.
  exists (firstn (i * k) l ++ pre), (skipn 1 (skipn (S i * k) l)).
  assert (Hb : skipn (S i * k) l = b :: skipn 1 (skipn (S i * k) l)).
  { destruct (skipn (S i * k) l) as [|y r] eqn:E.
    - rewrite firstn_nil in H2. discriminate.
    - destruct k; [vm_compute in H2; discriminate|].
      simpl in H2. inversion H2; subst. reflexivity. }
  rewrite <- (firstn_skipn (i * k) l) at 1.
  rewrite <- (firstn_skipn k (skipn (i * k) l)), H1, skipn_skipn.
  replace (k + i * k)%nat with (S i * k)%nat by lia.
  rewrite Hb at 1. rewrite <- !app_assoc. reflexivity.
Qed.

Lemma Sorted_adjacent {A} (R : A -> A -> Prop) xs a b ys :
  Sorted R (xs ++ a :: b :: ys) -> R a b.
Proof.
  induction xs as [|x xs IH]; simpl; intros Hs.
  - inversion Hs as [|? ? _ Hhd]; subst. inversion Hhd; assumption.
  - inversion Hs; subst. apply IH. assumption.
Qed.

Lemma NoDup_adjacent_keys (xs : list issue) a b ys :
  NoDup (map key (xs ++ a :: b :: ys)) -> key a <> key b.
Proof.
  rewrite map_app. intros Hnd. apply NoDup_app_remove_l in Hnd.
  simpl in Hnd. inversion Hnd as [|? ? Hnotin _]; subst.
  intros E. apply Hnotin. left. symmetry. exact E.
Qed.

(** C4, as the script behaves: cutting a bucket into chunks of twenty.
    The chunks put back together in order are the bucket; every chunk
    but the last holds exactly twenty records and no chunk is empty or
    longer.  In a sorted bucket the last record of a chunk never sorts
    after the first record of the next chunk; it sorts strictly before
    it when the two have different keys and the collation tells their
    file paths and their keys apart.  The buckets that the script cuts
    are sorted when the collation tells their file paths apart. *)
Theorem chunks_of_sorted_bucket {rt : Runtime} (bucket : list issue) :
  List.concat (chunksOf bucket) = bucket
  /\ (forall i, (S i < List.length (chunksOf bucket))%nat ->
        List.length (nth i (chunksOf bucket) []) = ISSUES_PER_FILE)
  /\ (forall i, (i < List.length (chunksOf bucket))%nat ->
        nth i (chunksOf bucket) [] = chunkAt bucket i
        /\ (1 <= List.length (chunkAt bucket i) <= ISSUES_PER_FILE)%nat)
  /\ (Sorted (sortedBy compareIssues) bucket ->
      forall i pre a b post,
        chunkAt bucket i = pre ++ [a] -> chunkAt bucket (S i) = b :: post ->
        compareIssues a b <= 0
        /\ (ConsistentCompare rt ->
            collatesApart (filePathOf a) (filePathOf b) = true ->
            collatesApart (key a) (key b) = true ->
            key a <> key b -> compareIssues a b < 0))
  /\ (ConsistentCompare rt ->
      forall raw, pathsApart raw = true ->
        Array_sort compareIssues raw = bucket ->
        StronglySorted (sortedBy compareIssues) bucket
        /\ Sorted (sortedBy compareIssues) bucket).
Proof.
  split; [apply chunksOf_concat|].
  split.
  { intros i Hi. rewrite chunksOf_length in Hi.
    rewrite chunksOf_nth by lia. apply chunkAt_full. exact Hi. }
  split.
  { intros i Hi. rewrite chunksOf_length in Hi.
    split; [apply chunksOf_nth | apply chunkAt_nonempty]; exact Hi. }
  split.
  - intros Hsorted i pre a b post H1 H2.
    destruct (chunk_boundary_adjacent _ _ _ _ _ _ H1 H2) as (xs & ys & E).
    assert (Hle : compareIssues a b <= 0).
    { apply (Sorted_adjacent (sortedBy compareIssues) xs a b ys).
      rewrite <- E. exact Hsorted. }
    split; [exact Hle|].
    intros CC Hp Hk Hne.
    pose proof (different_keys_differ a b Hp Hk Hne). lia.
  - intros CC raw Hp <-.
    assert (Hs : StronglySorted (sortedBy compareIssues) (Array_sort compareIssues raw))
      by (apply bucket_strongly_sorted; exact Hp).
    split; [exact Hs | apply StronglySorted_Sorted; exact Hs].
Qed.

(** C4 as stated fails: in the sorted bucket of twenty-one records
    with unique keys that ends in the two records whose keys collate
    equal, the last record of the first chunk compares 0 with the
    first record of the second chunk and does not sort before it. *)
Lemma tied_records_across_chunks :
  let cmp := @compareIssues collatingRuntime in
  Array_sort cmp (rev (map ladder (seq 1 19)) ++ [issueK; issueK']) = tieBucket
  /\ Sorted (sortedBy cmp) tieBucket
  /\ distinctb (map key tieBucket) = true
  /\ chunksOf tieBucket = [map ladder (seq 1 19) ++ [issueK]; [issueK']]
  /\ chunkAt tieBucket 0 = map ladder (seq 1 19) ++ [issueK]
  /\ chunkAt tieBucket 1 = [issueK']
  /\ cmp issueK issueK' = 0
  /\ ~ cmp issueK issueK' < 0.
Proof.
  cbv zeta.
  assert (Hsort : Array_sort (@compareIssues collatingRuntime)
                    (rev (map ladder (seq 1 19)) ++ [issueK; issueK']) = tieBucket)
    by (vm_compute; reflexivity).
  split; [exact Hsort|]. split.
  { rewrite <- Hsort. apply Array_sort_sorted.
    apply (@compareIssues_antisym collatingRuntime collatingRuntime_consistent). }
  split; [vm_compute; reflexivity|].
  split; [vm_compute; reflexivity|].
  split; [vm_compute; reflexivity|].
  split; [vm_compute; reflexivity|].
  split; [reflexivity|].
  vm_compute. discriminate.
Qed.

(** ** The fetch loop *)

Lemma seq_from_2 {B} (f : Z -> B) n :
  map (fun i => f (2 + Z.of_nat i)) (seq 0 n) = map (fun i => f (Z.of_nat i)) (seq 2 n).
Proof.
  rewrite <- (seq_shift n 1), <- (seq_shift n 0), !map_map.
  apply map_ext. intros i. f_equal. lia.
Qed.

Section FetchFacts.
Context (env : Env).

(** One iteration of the loop, spelled out. *)
Lemma fetchLoop_step res rs page total all :
  fetchLoop env (res :: rs) page total all =
  if num_lt ((page - 1) * PAGE_SIZE) total then
    if res_ok res then
      let rest := fetchLoop env rs (page + 1) (Fin (totalOf (res_json res)))
                    (all ++ issuesOf (res_json res)) in
      (Fetch (buildUrl env page) :: sleepAfter res ++ trace rest, outcome rest)
    else ([Fetch (buildUrl env page)], Threw (apiErrorOf res))
  else ([], Returned all).
Proof.
  cbn [fetchLoop]. destruct (num_lt _ total); [|reflexivity].
  rewrite bind_emit. unfold sleepAfter, apiErrorOf.
  destruct (res_ok res); cbn [negb]; [|reflexivity].
  destruct (Z.of_nat _ =? PAGE_SIZE).
  - rewrite bind_emit. reflexivity.
  - rewrite bind_ret_l. reflexivity.
Qed.

Lemma fetchLoop_nil page total all :
  fetchLoop env [] page total all =
  if num_lt ((page - 1) * PAGE_SIZE) total
  then ([Fetch (buildUrl env page)], Pending)
  else ([], Returned all).
Proof. cbn [fetchLoop]. destruct (num_lt _ total); reflexivity. Qed.

Lemma requestsOf_sleepAfter res : requestsOf (sleepAfter res) = [].
Proof. unfold sleepAfter. destruct (_ =? _); reflexivity. Qed.

Lemma filesOf_sleepAfter res : filesOf (sleepAfter res) = [].
Proof. unfold sleepAfter. destruct (_ =? _); reflexivity. Qed.

(** Fetching writes no file. *)
Lemma fetchLoop_no_files rs : forall page total all,
  filesOf (trace (fetchLoop env rs page total all)) = [].
Proof.
  induction rs as [|res rs IH]; intros page total all.
  - rewrite fetchLoop_nil. destruct (num_lt _ total); reflexivity.
  - rewrite fetchLoop_step. destruct (num_lt _ total); [|reflexivity].
    destruct (res_ok res); [|reflexivity].
    cbn [trace fst]. change (filesOf (?e :: ?t)) with (filesOf [e] ++ filesOf t).
    rewrite filesOf_app, filesOf_sleepAfter. apply IH.
Qed.

(** A response with a non-success status that the loop gets to ends
    the loop with the API error. *)
Lemma fetchLoop_failure rs : forall k res page total all,
  nth_error rs k = Some res -> res_ok res = false ->
  (k < List.length (requestsOf (trace (fetchLoop env rs page total all))))%nat ->
  outcome (fetchLoop env rs page total all) = Threw (apiErrorOf res)
  /\ List.length (requestsOf (trace (fetchLoop env rs page total all))) = S k.
Proof.
  induction rs as [|r0 rs IH]; intros k res page total all Hnth Hbad Hk.
  - destruct k; discriminate.
  - rewrite fetchLoop_step in *.
    destruct (num_lt _ total); [|simpl in Hk; lia].
    destruct (res_ok r0) eqn:Hok.
    + cbv zeta in *. cbn [trace outcome fst snd] in *.
      change (requestsOf (?e :: ?t)) with (requestsOf [e] ++ requestsOf t) in *.
      rewrite requestsOf_app, requestsOf_sleepAfter in *.
      cbn [requestsOf flat_map app List.length] in *.
      destruct k as [|k]; simpl in Hnth.
      * inversion Hnth; subst. congruence.
      * apply Nat.succ_lt_mono in Hk.
        destruct (IH _ _ _ _ _ Hnth Hbad Hk) as [Ho Hl].
        split; [exact Ho | rewrite Hl; reflexivity].
    + cbn [trace outcome fst snd requestsOf flat_map app List.length] in *.
      destruct k as [|k]; [|lia].
      simpl in Hnth. inversion Hnth; subst. split; reflexivity.
Qed.

(** Pages that all declare the same total [T]: starting at page [p],
    the loop requests [n] more pages, where page [p + n - 1] is the
    last one that [T] still needs, and returns what it had plus what
    those pages hold. *)
Lemma fetchLoop_constant_total T n : forall rs p all,
  (n = 0%nat \/ (p + Z.of_nat n - 2) * PAGE_SIZE < T) ->
  T <= (p + Z.of_nat n - 1) * PAGE_SIZE ->
  (n <= List.length rs)%nat ->
  Forall (fun r => res_ok r = true /\ totalOf (res_json r) = T) (firstn n rs) ->
  requestsOf (trace (fetchLoop env rs p (Fin T) all))
    = map (fun i => buildUrl env (p + Z.of_nat i)) (seq 0 n)
  /\ outcome (fetchLoop env rs p (Fin T) all)
    = Returned (all ++ List.concat (map (fun r => issuesOf (res_json r)) (firstn n rs))).
Proof.
  unfold PAGE_SIZE.
  induction n as [|n IH]; intros rs p all Hlast Hstop Hlen Hall.
  - assert (Hc : num_lt ((p - 1) * 500) (Fin T) = false)
      by (cbn [num_lt]; apply Z.ltb_ge; lia).
    destruct rs as [|r rs].
    + rewrite fetchLoop_nil. unfold PAGE_SIZE. rewrite Hc.
      simpl. rewrite app_nil_r. auto.
    + rewrite fetchLoop_step. unfold PAGE_SIZE. rewrite Hc.
      simpl. rewrite app_nil_r. auto.
  - destruct rs as [|r rs]; [simpl in Hlen; lia|].
    assert (Hc : num_lt ((p - 1) * 500) (Fin T) = true)
      by (cbn [num_lt]; apply Z.ltb_lt; lia).
    cbn [firstn] in Hall. inversion Hall as [|? ? [Hok HT] Hall']; subst.
    rewrite fetchLoop_step. unfold PAGE_SIZE. rewrite Hc, Hok. cbv zeta.
    cbn [trace outcome fst snd].
    change (requestsOf (?e :: ?t)) with (requestsOf [e] ++ requestsOf t).
    rewrite requestsOf_app, requestsOf_sleepAfter.
    destruct (IH rs (p + 1) (all ++ issuesOf (res_json r))) as [Hr Ho];
      [lia | lia | simpl in Hlen; lia | exact Hall' |].
    rewrite Hr, Ho. split.
    + cbn [requestsOf flat_map app seq map]. rewrite Z.add_0_r. f_equal.
      rewrite <- seq_shift, map_map. apply map_ext. intros i. f_equal. lia.
    + cbn [firstn map List.concat]. rewrite <- app_assoc. reflexivity.
Qed.
(** The loop asks for at least one page exactly when its entry test
    holds. *)
Lemma fetchLoop_requested_iff rs p t all :
  (0 < List.length (requestsOf (trace (fetchLoop env rs p t all))))%nat
  <-> num_lt ((p - 1) * PAGE_SIZE) t = true.
Proof.
  destruct rs as [|r rs]; [rewrite fetchLoop_nil | rewrite fetchLoop_step];
    destruct (num_lt _ t); try (destruct (res_ok r));
    cbn [trace fst requestsOf flat_map app List.length]; split;
    try reflexivity; try discriminate; try lia.
Qed.



(** Pages that all declare the total [T], from the first request on. *)
Lemma fetchAllIssues_constant_total (T : Z) (N : nat) (rs : list Response) :
  (1 <= N)%nat ->
  (N = 1%nat \/ (Z.of_nat N - 1) * PAGE_SIZE < T) ->
  T <= Z.of_nat N * PAGE_SIZE ->
  (N <= List.length rs)%nat ->
  Forall (fun r => res_ok r = true /\ totalOf (res_json r) = T) (firstn N rs) ->
  requestsOf (trace (fetchAllIssues env rs))
    = map (fun i => buildUrl env (Z.of_nat i)) (seq 1 N)
  /\ outcome (fetchAllIssues env rs)
    = Returned (List.concat (map (fun r => issuesOf (res_json r)) (firstn N rs))).
Proof.
  intros HN Hlast Hstop Hlen Hall.
  destruct N as [|n]; [lia|]. destruct rs as [|r rs]; [simpl in Hlen; lia|].
  cbn [firstn] in Hall. inversion Hall as [|? ? [Hok HT] Hall']; subst.
  unfold fetchAllIssues. rewrite fetchLoop_step.
  cbn [num_lt]. rewrite Hok. cbv zeta. cbn [trace outcome fst snd].
  change (requestsOf (?e :: ?t)) with (requestsOf [e] ++ requestsOf t).
  rewrite requestsOf_app, requestsOf_sleepAfter.
  change (1 + 1) with 2.
  destruct (fetchLoop_constant_total (totalOf (res_json r)) n rs 2
              ([] ++ issuesOf (res_json r))) as [Hr Ho];
    [unfold PAGE_SIZE in *; lia | unfold PAGE_SIZE in *; lia
     | simpl in Hlen; lia | exact Hall' |].
  rewrite Hr, Ho. split.
  - cbn [requestsOf flat_map app seq map]. f_equal. apply seq_from_2.
  - reflexivity.
Qed.
End FetchFacts.

(** ** Specification properties: fetching *)



(** C8: a response object without the expected fields.  Without a
    top-level total and without a nested paging total the total is
    read as 0, without an issues field the page is read as empty; a
    page without totals is the last one requested and the fetch
    returns what it has accumulated; a page without issues adds
    nothing and the loop goes on as after any other page; neither
    raises an error, and pages that declare a total but never hold an
    issues field end in a normal return of no records. *)
Theorem malformed_response_defaults (env : Env) :
  (forall data,
      json_total data = None ->
      (json_paging data = None
       \/ exists p, json_paging data = Some p /\ paging_total p = None) ->
      totalOf data = 0)
  /\ (forall data, json_issues data = None -> issuesOf data = [])
  /\ (forall res rs page total all,
        1 <= page -> num_lt ((page - 1) * PAGE_SIZE) total = true ->
        res_ok res = true -> totalOf (res_json res) = 0 ->
        fetchLoop env (res :: rs) page total all
        = (Fetch (buildUrl env page) :: sleepAfter res,
           Returned (all ++ issuesOf (res_json res))))
  /\ (forall res rs page total all,
        num_lt ((page - 1) * PAGE_SIZE) total = true ->
        res_ok res = true -> json_issues (res_json res) = None ->
        fetchLoop env (res :: rs) page total all
        = (Fetch (buildUrl env page)
             :: trace (fetchLoop env rs (page + 1) (Fin (totalOf (res_json res))) all),
           outcome (fetchLoop env rs (page + 1) (Fin (totalOf (res_json res))) all)))
  /\ (forall res rs,
        res_ok res = true -> json_total (res_json res) = None ->
        json_paging (res_json res) = None -> json_issues (res_json res) = None ->
        fetchAllIssues env (res :: rs) = ([Fetch (buildUrl env 1)], Returned []))
  /\ (forall T N rs,
        (1 <= N)%nat ->
        (N = 1%nat \/ (Z.of_nat N - 1) * PAGE_SIZE < T) ->
        T <= Z.of_nat N * PAGE_SIZE ->
        (N <= List.length rs)%nat ->
        Forall (fun r => res_ok r = true /\ totalOf (res_json r) = T
                         /\ json_issues (res_json r) = None) (firstn N rs) ->
        outcome (fetchAllIssues env rs) = Returned []
        /\ List.length (requestsOf (trace (fetchAllIssues env rs))) = N).
Proof.
  assert (Htot : forall data, json_total data = None ->
            (json_paging data = None
             \/ exists p, json_paging data = Some p /\ paging_total p = None) ->
            totalOf data = 0).
  { intros data Ht Hp. unfold totalOf. rewrite Ht.
    destruct Hp as [-> | (p & -> & ->)]; reflexivity. }
  assert (Hiss : forall data, json_issues data = None -> issuesOf data = []).
  { intros data H. unfold issuesOf. rewrite H. reflexivity. }
  assert (Hlast : forall res rs page total all,
            1 <= page -> num_lt ((page - 1) * PAGE_SIZE) total = true ->
            res_ok res = true -> totalOf (res_json res) = 0 ->
            fetchLoop env (res :: rs) page total all
            = (Fetch (buildUrl env page) :: sleepAfter res,
               Returned (all ++ issuesOf (res_json res)))).
  { intros res rs page total all Hp Hc Hok H0.
    rewrite fetchLoop_step, Hc, Hok, H0. cbv zeta.
    assert (Hstop : num_lt ((page + 1 - 1) * PAGE_SIZE) (Fin 0) = false)
      by (cbn [num_lt]; apply Z.ltb_ge; unfold PAGE_SIZE; lia).
    destruct rs as [|r rs]; [rewrite fetchLoop_nil | rewrite fetchLoop_step];
      rewrite Hstop; cbn [trace outcome fst snd]; rewrite app_nil_r; reflexivity. }
  split; [exact Htot|]. split; [exact Hiss|]. split; [exact Hlast|].
  split; [|split].
  - intros res rs page total all Hc Hok Hi.
    rewrite fetchLoop_step, Hc, Hok. cbv zeta.
    unfold sleepAfter. rewrite (Hiss _ Hi), app_nil_r. reflexivity.
  - intros res rs Hok Ht Hp Hi. unfold fetchAllIssues.
    rewrite Hlast; [| lia | reflexivity | exact Hok | apply Htot; auto].
    unfold sleepAfter. rewrite (Hiss _ Hi). reflexivity.
  - intros T N rs HN Hl Hs Hlen Hall.
    destruct (fetchAllIssues_constant_total env T N rs HN Hl Hs Hlen) as [Hr Ho].
    { eapply Forall_impl; [|exact Hall]. cbv beta. tauto. }
    split.
    + rewrite Ho. f_equal. clear - Hall Hiss.
      induction Hall as [|r l (_ & _ & Hi) _ IH]; [reflexivity|].
      cbn [map List.concat]. rewrite (Hiss _ Hi), IH. reflexivity.
    + rewrite Hr, length_map, length_seq. reflexivity.
Qed.

Lemma malformed_response_defaults_witness :
  fetchAllIssues testEnv [emptyObjectPage; okPage 1200 pageA]
  = ([Fetch (buildUrl testEnv 1)], Returned []).
Proof.
  apply (proj1 (proj2 (proj2 (proj2 (proj2 (malformed_response_defaults testEnv))))));
    reflexivity.
Defined.

(** Fetching that throws: [main] logs the error and exits with 1. *)
Lemma main_fetch_threw (env : Env) {rt : Runtime} rs e :
  outcome (fetchAllIssues env rs) = Threw e ->
  exists hello,
    main env rs = (ConsoleLog hello :: trace (fetchAllIssues env rs)
                     ++ [ConsoleError (errorText e)], Exited 1).
Proof.
  intros H. eexists. unfold main, mainBody. rewrite !bind_emit.
  rewrite (bind_threw _ _ e H). cbn [outcome trace fst snd]. reflexivity.
Qed.

(** C5: a non-success status.  When the response to one of the page
    requests that the fetcher issues has a status outside 200-299,
    [fetchAllIssues] throws an error whose message holds the status
    code and the raw body, that request is its last one, no records
    are returned, [main] writes no file, logs the message and exits
    with status 1; so does the whole script. *)
Theorem fetch_failure_aborts (env : Env) (rt : Runtime) (rs : list Response)
    (k : nat) (res : Response) :
  nth_error rs k = Some res ->
  res_ok res = false ->
  (k < List.length (requestsOf (trace (fetchAllIssues env rs))))%nat ->
  let msg := "SonarCloud API error " +++ String_of_Z (res_status res)
             +++ ": " +++ res_text res in
  outcome (fetchAllIssues env rs) = Threw (Error msg)
  /\ List.length (requestsOf (trace (fetchAllIssues env rs))) = S k
  /\ filesOf (fst (main env rs)) = []
  /\ In (ConsoleError msg) (fst (main env rs))
  /\ snd (main env rs) = Exited 1
  /\ filesOf (fst (script env rs)) = []
  /\ snd (script env rs) = Exited 1.
Proof.
  intros Hnth Hbad Hk msg.
  destruct (fetchLoop_failure env rs k res 1 Infinity [] Hnth Hbad Hk) as [Ho Hl].
  fold (fetchAllIssues env rs) in Ho, Hl.
  destruct (main_fetch_threw env rs _ Ho) as (hello & Hmain).
  assert (Hfiles : filesOf (fst (main env rs)) = []).
  { rewrite Hmain. cbn [fst].
    change (filesOf (?e :: ?t)) with (filesOf [e] ++ filesOf t).
    rewrite filesOf_app. unfold fetchAllIssues. rewrite fetchLoop_no_files.
    reflexivity. }
  assert (Hexit : snd (main env rs) = Exited 1) by (rewrite Hmain; reflexivity).
  split; [exact Ho|]. split; [exact Hl|]. split; [exact Hfiles|]. split.
  { rewrite Hmain. cbn [fst]. right. apply in_or_app. right. left. reflexivity. }
  split; [exact Hexit|].
  unfold script. destruct (env_SONAR_TOKEN env) as [t|]; [|split; reflexivity].
  destruct (truthy t); [split; assumption | split; reflexivity].
Qed.

Lemma fetch_failure_aborts_witness :
  let rs := [okPage 1200 pageA; failPage 503 "Service Unavailable"; okPage 1200 pageC] in
  outcome (fetchAllIssues testEnv rs)
    = Threw (Error "SonarCloud API error 503: Service Unavailable")
  /\ List.length (requestsOf (trace (fetchAllIssues testEnv rs))) = 2%nat
  /\ filesOf (fst (main (rt := testRuntime) testEnv rs)) = []
  /\ snd (main (rt := testRuntime) testEnv rs) = Exited 1.
Proof.
  intros rs.
  destruct (fetch_failure_aborts testEnv testRuntime rs 1
              (failPage 503 "Service Unavailable"))
    as (Ho & Hl & Hf & _ & He & _).
  - reflexivity.
  - reflexivity.
  - vm_compute. lia.
  - auto.
Defined.

(** ** Rendering and writing *)

Lemma append_assoc (a b c : string) : (a +++ b) +++ c = a +++ b +++ c.
Proof. induction a as [|x a IH]; simpl; [reflexivity | rewrite IH; reflexivity]. Qed.

Section WriteFacts.
Context (env : Env) {rt : Runtime}.

Lemma headerFor_headerLine sev : headerFor env sev = headerLine env sev "".
Proof. reflexivity. Qed.

Lemma partHeader_headerLine sev i n :
  partHeader env sev i n = headerLine env sev (partMarker i n).
Proof.
  unfold partHeader, headerLine, partMarker.
  rewrite !append_assoc. reflexivity.
Qed.

(** Rendering performs no effect: it returns the text or throws. *)
Lemma createdOf_pure it :
  (exists s, createdOf it = ([], Returned s)) \/ (exists e, createdOf it = ([], Threw e)).
Proof.
  unfold createdOf. destruct (creationDate it) as [d|]; [|left; eexists; reflexivity].
  destruct (truthy d); [|left; eexists; reflexivity].
  destruct (toISOString d); [left | right]; eexists; reflexivity.
Qed.

Lemma renderRow_pure it :
  (exists s, renderRow it = ([], Returned s))
  \/ (exists e, renderRow it = ([], Threw e)).
Proof.
  unfold renderRow. destruct (createdOf_pure it) as [(s & ->) | (e & ->)].
  - left. eexists. reflexivity.
  - right. eexists. reflexivity.
Qed.

Lemma mapM_renderRow_pure l :
  (exists rows, mapM renderRow l = ([], Returned rows))
  \/ (exists e, mapM renderRow l = ([], Threw e)).
Proof.
  induction l as [|it l IH]; cbn [mapM].
  - left. eexists. reflexivity.
  - destruct (renderRow_pure it) as [(s & ->) | (e & ->)];
      [|right; eexists; reflexivity].
    destruct IH as [(rows & ->) | (e & ->)]; [left | right]; eexists; reflexivity.
Qed.

Lemma renderTable_pure l :
  (exists t, renderTable l = ([], Returned t))
  \/ (exists e, renderTable l = ([], Threw e)).
Proof.
  unfold renderTable. destruct (List.length l =? 0)%nat.
  - left. eexists. reflexivity.
  - destruct (mapM_renderRow_pure l) as [(rows & ->) | (e & ->)];
      [left | right]; eexists; reflexivity.
Qed.

Lemma renderTable_nil : renderTable [] = ([], Returned NO_ISSUES).
Proof. reflexivity. Qed.

Lemma writeBucket_nil sev :
  writeBucket env sev [] =
  ([WriteFile (sev +++ ".md") (headerFor env sev +++ NL +++ NO_ISSUES);
    ConsoleLog ("Wrote " +++ (sev +++ ".md") +++ " (0 issues)")],
   Returned tt).
Proof. reflexivity. Qed.

(** The files of one iteration of the chunk loop. *)
Lemma chunk_iteration_files sev l n i f :
  In f (filesOf (trace (
    table <- renderTable (chunkAt l i) ;;
    emit (WriteFile (sev +++ String_of_nat (i + 1) +++ ".md")
            (partHeader env sev (i + 1) n +++ NL +++ table)) ;;;
    emit (ConsoleLog ("Wrote " +++ (sev +++ String_of_nat (i + 1) +++ ".md") +++ " ("
                      +++ String_of_nat (List.length (chunkAt l i)) +++ " issues)"))))) ->
  exists table,
    outcome (renderTable (chunkAt l i)) = Returned table
    /\ f = (sev +++ String_of_nat (i + 1) +++ ".md",
            partHeader env sev (i + 1) n +++ NL +++ table).
Proof.
  destruct (renderTable_pure (chunkAt l i)) as [(t & ->) | (e & ->)].
  - change (@pair (list event) (result string) [] (Returned t)) with (ret t).
    rewrite bind_ret_l, !bind_emit. cbn [trace fst filesOf flat_map app].
    intros [<- | []]. exists t. split; reflexivity.
  - unfold bind. cbn [snd fst trace filesOf flat_map]. intros [].
Qed.

Lemma writeBucket_files sev l f :
  l <> [] ->
  In f (filesOf (trace (writeBucket env sev l))) ->
  exists i table,
    (i < ceilDiv (List.length l) ISSUES_PER_FILE)%nat
    /\ outcome (renderTable (chunkAt l i)) = Returned table
    /\ f = (sev +++ String_of_nat (i + 1) +++ ".md",
            partHeader env sev (i + 1) (ceilDiv (List.length l) ISSUES_PER_FILE)
              +++ NL +++ table).
Proof.
  intros Hne Hin. unfold writeBucket in Hin.
  destruct (List.length l =? 0)%nat eqn:E.
  { apply Nat.eqb_eq in E. destruct l; [congruence | discriminate]. }
  apply forEach_files in Hin as (i & Hi & Hin).
  apply in_seq in Hi.
  apply chunk_iteration_files in Hin as (table & Ho & Hf).
  exists i, table. split; [lia|]. split; assumption.
Qed.

Lemma sortBuckets_get s m :
  Map_get s (sortBuckets m) = option_map (Array_sort compareIssues) (Map_get s m).
Proof.
  induction m as [|[k v] m IH]; simpl; [reflexivity|].
  destruct (String.eqb k s); [reflexivity | exact IH].
Qed.

(** What the writing loop finds under a known severity. *)
Lemma known_bucket issues sev :
  In sev SEVERITIES ->
  Map_get sev (sortBuckets (groupBySeverity issues)) = Some (bucketOf issues sev).
Proof.
  intros Hs. rewrite sortBuckets_get, groupBySeverity_get.
  apply existsb_eqb_In in Hs. rewrite Hs. reflexivity.
Qed.

Lemma forEach_ext {A} (l : list A) (f g : A -> io unit) :
  (forall x, In x l -> f x = g x) -> forEach l f = forEach l g.
Proof.
  induction l as [|x l IH]; intros H; simpl; [reflexivity|].
  rewrite (H x) by (left; reflexivity).
  rewrite IH by (intros y Hy; apply H; right; exact Hy). reflexivity.
Qed.

Lemma writeBySeverity_buckets issues :
  writeBySeverity env issues =
  forEach SEVERITIES (fun sev => writeBucket env sev (bucketOf issues sev)).
Proof.
  unfold writeBySeverity. apply forEach_ext. intros sev Hs.
  rewrite known_bucket by exact Hs. reflexivity.
Qed.

Lemma forEach_returned_inv {A} (l : list A) (body : A -> io unit) u :
  outcome (forEach l body) = Returned u ->
  forall x, In x l -> outcome (body x) = Returned tt.
Proof.
  induction l as [|y l IH]; simpl; intros Ho x Hx; [contradiction|].
  destruct (bind_trace_cases (body y) (fun _ => forEach l body))
    as [(a & Ha & _ & Hob) | (_ & Hn)].
  - destruct Hx as [<- | Hx].
    + destruct a. exact Ha.
    + apply IH; [|exact Hx]. rewrite <- Hob. exact Ho.
  - exfalso. apply (Hn u). exact Ho.
Qed.

Lemma filesOf_flat_map {A} (l : list A) (f : A -> list event) :
  filesOf (flat_map f l) = flat_map (fun x => filesOf (f x)) l.
Proof.
  induction l as [|x l IH]; simpl; [reflexivity|].
  rewrite filesOf_app, IH. reflexivity.
Qed.

(** A complete run writes the files of the five buckets in the order
    of the severity list. *)
Lemma writeBySeverity_files issues :
  outcome (writeBySeverity env issues) = Returned tt ->
  filesOf (trace (writeBySeverity env issues)) =
  flat_map (fun sev => filesOf (trace (writeBucket env sev (bucketOf issues sev))))
           SEVERITIES.
Proof.
  rewrite writeBySeverity_buckets. intros Ho.
  rewrite forEach_returned by (apply (forEach_returned_inv _ _ _ Ho)).
  cbn [trace fst]. apply filesOf_flat_map.
Qed.

Lemma filter_hasSeverity_known issues sev :
  In sev SEVERITIES ->
  filter (hasSeverity sev) (filter knownSeverity issues)
  = filter (hasSeverity sev) issues.
Proof.
  intros Hs. induction issues as [|it l IH]; simpl; [reflexivity|].
  destruct (hasSeverity sev it) eqn:E.
  - assert (Hk : knownSeverity it = true).
    { unfold hasSeverity in E. apply String.eqb_eq in E.
      unfold knownSeverity. rewrite E. apply existsb_eqb_In. exact Hs. }
    rewrite Hk. simpl. rewrite E, IH. reflexivity.
  - destruct (knownSeverity it); simpl; [rewrite E|]; exact IH.
Qed.

(** The written output is the same with and without the records of
    unrecognized severity. *)
Lemma writeBySeverity_ignores_unknown issues :
  writeBySeverity env issues = writeBySeverity env (filter knownSeverity issues).
Proof.
  rewrite !writeBySeverity_buckets. apply forEach_ext. intros sev Hs.
  unfold bucketOf. rewrite filter_hasSeverity_known by exact Hs. reflexivity.
Qed.
End WriteFacts.

(** ** Specification properties: the written files *)

(** C9: the empty bucket.  Rendering no record gives the placeholder
    sentence, which has no table syntax in it; writing an empty bucket
    writes exactly one file, named by the severity alone, whose body is
    the header, an empty line and the placeholder; the bucket of a
    known severity that no fetched record carries is such an empty
    bucket, and in a run that completes its file is that single
    placeholder file, among the files of the five buckets in order. *)
Theorem empty_bucket_placeholder (env : Env) (rt : Runtime) :
  renderTable [] = ([], Returned ("_No unresolved issues._" +++ NL))
  /\ hasChar PIPE NO_ISSUES = false
  /\ (forall sev,
        writeBucket env sev [] =
        ([WriteFile (sev +++ ".md")
            (headerFor env sev +++ NL +++ "_No unresolved issues._" +++ NL);
          ConsoleLog ("Wrote " +++ (sev +++ ".md") +++ " (0 issues)")],
         Returned tt))
  /\ (forall issues sev,
        In sev SEVERITIES ->
        (forall it, In it issues -> severity it <> sev) ->
        Map_get sev (sortBuckets (groupBySeverity issues)) = Some []
        /\ bucketOf issues sev = []
        /\ filesOf (trace (writeBucket env sev (bucketOf issues sev)))
           = [(sev +++ ".md",
               headerFor env sev +++ NL +++ "_No unresolved issues._" +++ NL)]
        /\ (outcome (writeBySeverity env issues) = Returned tt ->
            filesOf (trace (writeBySeverity env issues))
            = flat_map (fun s => filesOf (trace (writeBucket env s (bucketOf issues s))))
                       SEVERITIES)).
Proof.
  split; [reflexivity|]. split; [reflexivity|]. split; [intros sev; reflexivity|].
  intros issues sev Hs Hnone.
  assert (Hb : bucketOf issues sev = []).
  { unfold bucketOf.
    replace (filter (hasSeverity sev) issues) with (@nil issue); [reflexivity|].
    symmetry. induction issues as [|it l IH]; simpl; [reflexivity|].
    unfold hasSeverity at 1.
    destruct (String.eqb (severity it) sev) eqn:E.
    - apply String.eqb_eq in E. exfalso. apply (Hnone it); [left; reflexivity | exact E].
    - apply IH. intros x Hx. apply Hnone. right. exact Hx. }
  split; [rewrite known_bucket by exact Hs; rewrite Hb; reflexivity|].
  split; [exact Hb|]. split.
  - rewrite Hb. reflexivity.
  - intros Ho. apply writeBySeverity_files. exact Ho.
Qed.

Lemma empty_bucket_placeholder_witness :
  filesOf (trace (writeBucket testEnv "INFO" (bucketOf (rt := testRuntime) [issueC] "INFO")))
  = [("INFO.md",
      headerFor testEnv "INFO" +++ NL +++ "_No unresolved issues._" +++ NL)].
Proof.
  destruct (empty_bucket_placeholder testEnv testRuntime) as (_ & _ & _ & H).
  destruct (H [issueC] "INFO") as (_ & _ & Hfile & _).
  - unfold SEVERITIES. simpl. tauto.
  - intros it [<- | []]. discriminate.
  - exact Hfile.
Defined.

(** C7, as the script behaves: every written file starts with a header
    line naming the organization, the project and, when one is set,
    the branch.  The file of an empty bucket has no part marker; every
    file of a bucket with records has the marker [(Part i/n)], also
    when the bucket has a single chunk, where it reads [(Part 1/1)]. *)
Theorem written_file_header (env : Env) (rt : Runtime) (issues : list issue)
    (name content : string) :
  In (name, content) (filesOf (trace (writeBySeverity env issues))) ->
  writtenFileShape env issues name content.
Proof.
  rewrite writeBySeverity_buckets. intros Hin.
  apply forEach_files in Hin as (sev & Hs & Hin).
  exists sev. split; [exact Hs|].
  destruct (bucketOf issues sev) as [|it l] eqn:Hb.
  - left. rewrite writeBucket_nil in Hin. cbn in Hin.
    destruct Hin as [Hf | []]. inversion Hf; subst.
    split; [reflexivity|]. split; [reflexivity|]. split; reflexivity.
  - right. split; [discriminate|].
    apply writeBucket_files in Hin as (i & table & Hi & Ho & Hf); [|discriminate].
    inversion Hf; subst. exists i, table. cbv zeta.
    split; [exact Hi|]. split; [reflexivity|]. split; [exact Ho|].
    split; [apply partHeader_headerLine | reflexivity].
Qed.

Lemma written_file_header_witness :
  let f := nth 3 (filesOf (trace (writeBySeverity (rt := testRuntime) testEnv [issueC])))
               ("", "") in
  writtenFileShape (rt := testRuntime) testEnv [issueC] (fst f) (snd f).
Proof.
  intros f. apply written_file_header.
  vm_compute. do 3 right. left. reflexivity.
Defined.

(** C7 as stated fails: a bucket with one record has one chunk, and the
    header of its only file carries a part marker. *)
Lemma single_chunk_header_has_part_marker :
  let files := filesOf (trace (writeBySeverity (rt := testRuntime) testEnv [issueC])) in
  List.length (chunksOf (bucketOf (rt := testRuntime) [issueC] "MINOR")) = 1%nat
  /\ map (fun f => (fst f, firstLine (snd f))) files
     = [("BLOCKER.md", "# BLOCKER issues for useago/useago_ago-chat");
        ("CRITICAL.md", "# CRITICAL issues for useago/useago_ago-chat");
        ("MAJOR.md", "# MAJOR issues for useago/useago_ago-chat");
        ("MINOR1.md", "# MINOR issues for useago/useago_ago-chat (Part 1/1)");
        ("INFO.md", "# INFO issues for useago/useago_ago-chat")]
  /\ exists content,
       In ("MINOR1.md", content) files
       /\ contains "(Part 1/1)" (firstLine content) = true.
Proof.
  cbv zeta. split; [reflexivity|]. split; [vm_compute; reflexivity|].
  eexists. split.
  - vm_compute. do 3 right. left. reflexivity.
  - vm_compute. reflexivity.
Qed.

(** C1, where the script falls short: a record of unrecognized
    severity gets a bucket of its own, which the sorting loop sorts,
    but the writing loop walks the five known severities only, so the
    written output is the same as without the record: here the five
    placeholder files, none of them naming it. *)
Theorem unknown_severity_not_written :
  (forall env rt issues,
      writeBySeverity (rt := rt) env issues
      = writeBySeverity (rt := rt) env (filter knownSeverity issues))
  /\ Map_get "UNKNOWN" (sortBuckets (rt := testRuntime) (groupBySeverity [issueU]))
     = Some [issueU]
  /\ outcome (writeBySeverity (rt := testRuntime) testEnv [issueU]) = Returned tt
  /\ map fst (filesOf (trace (writeBySeverity (rt := testRuntime) testEnv [issueU])))
     = ["BLOCKER.md"; "CRITICAL.md"; "MAJOR.md"; "MINOR.md"; "INFO.md"]
  /\ forallb (fun f => negb (contains (key issueU) (snd f)))
       (filesOf (trace (writeBySeverity (rt := testRuntime) testEnv [issueU]))) = true
  /\ writeBySeverity (rt := testRuntime) testEnv [issueU]
     = writeBySeverity (rt := testRuntime) testEnv [].
Proof.
  split; [intros env rt issues; apply writeBySeverity_ignores_unknown|].
  repeat split; vm_compute; reflexivity.
Qed.

(** ** Escaping *)

Lemma hasChar_app c a b : hasChar c (a +++ b) = hasChar c a || hasChar c b.
Proof.
  unfold hasChar. induction a as [|x a IH]; simpl; [reflexivity|].
  rewrite IH, orb_assoc. reflexivity.
Qed.

Lemma hasChar_cons c x s : hasChar c (String x s) = Ascii.eqb c x || hasChar c s.
Proof. reflexivity. Qed.

Lemma replaceNewlines_no_LF s : hasChar LF (replaceNewlines s) = false.
Proof.
  induction s as [|c s IH]; [reflexivity|].
  cbn [replaceNewlines]. destruct (Ascii.eqb c LF) eqn:Ec.
  - rewrite hasChar_app, IH. reflexivity.
  - destruct (Ascii.eqb c CR) eqn:Er.
    + destruct s as [|d s].
      * rewrite hasChar_cons, Ascii.eqb_sym, Ec. reflexivity.
      * destruct (Ascii.eqb d LF) eqn:Ed.
        -- cbn [replaceNewlines] in IH. rewrite Ed in IH. exact IH.
        -- rewrite hasChar_cons, Ascii.eqb_sym, Ec, IH. reflexivity.
    + rewrite hasChar_cons, Ascii.eqb_sym, Ec, IH. reflexivity.
Qed.

Lemma replacePipes_escaped s : forall prev, barePipeAfter prev (replacePipes s) = false.
Proof.
  induction s as [|c s IH]; intros prev; [reflexivity|].
  cbn [replacePipes]. destruct (Ascii.eqb c PIPE) eqn:Ec.
  - cbn [barePipeAfter]. rewrite IH. reflexivity.
  - cbn [barePipeAfter]. rewrite Ec, IH. reflexivity.
Qed.

Lemma replaceNewlines_keeps_escapes s : forall prev prev',
  (prev = BACKSLASH -> prev' = BACKSLASH) ->
  barePipeAfter prev s = false ->
  barePipeAfter prev' (replaceNewlines s) = false.
Proof.
  induction s as [|c s IH]; intros prev prev' Hp Hs; [reflexivity|].
  cbn [barePipeAfter] in Hs. apply orb_false_elim in Hs as [Hc Hs].
  assert (Hkeep : barePipeAfter prev' (String c (replaceNewlines s)) = false).
  { cbn [barePipeAfter]. rewrite (IH c c (fun e => e) Hs), orb_false_r.
    destruct (Ascii.eqb c PIPE); [|reflexivity].
    cbn [andb] in *. apply negb_false_iff in Hc. apply Ascii.eqb_eq in Hc.
    rewrite (Hp Hc). reflexivity. }
  cbn [replaceNewlines]. destruct (Ascii.eqb c LF) eqn:El.
  - apply Ascii.eqb_eq in El. subst c.
    change (barePipeAfter ">"%char (replaceNewlines s) = false).
    apply (IH LF); [discriminate | exact Hs].
  - destruct (Ascii.eqb c CR) eqn:Er; [|exact Hkeep].
    destruct s as [|d s]; [exact Hkeep|].
    destruct (Ascii.eqb d LF) eqn:Ed; [|exact Hkeep].
    apply Ascii.eqb_eq in Er, Ed. subst c d.
    assert (H := IH CR " "%char ltac:(discriminate) Hs).
    exact H.
Qed.

(** The escaped cell holds no line feed, and every pipe in it comes
    right after a backslash. *)
Lemma mdEscape_cell s :
  hasChar LF (mdEscape s) = false /\ hasBarePipe (mdEscape s) = false.
Proof.
  unfold mdEscape. split; [apply replaceNewlines_no_LF|].
  apply (replaceNewlines_keeps_escapes _ " "%char); [discriminate|].
  apply replacePipes_escaped.
Qed.

(** What happens to each character: a pipe gets a backslash, a line
    feed and a carriage return with its line feed become [<br>],
    anything else stays. *)
Lemma mdEscape_unfold c s :
  mdEscape (String c s) =
  if Ascii.eqb c PIPE then String BACKSLASH (String PIPE (mdEscape s))
  else if Ascii.eqb c LF then "<br>" +++ mdEscape s
  else if Ascii.eqb c CR then
    match s with
    | String d s' =>
        if Ascii.eqb d LF then "<br>" +++ mdEscape s' else String CR (mdEscape s)
    | EmptyString => String CR EmptyString
    end
  else String c (mdEscape s).
Proof.
  unfold mdEscape. cbn [replacePipes].
  destruct (Ascii.eqb c PIPE) eqn:Ep.
  - reflexivity.
  - cbn [replaceNewlines]. destruct (Ascii.eqb c LF); [reflexivity|].
    destruct (Ascii.eqb c CR) eqn:Er; [|reflexivity].
    apply Ascii.eqb_eq in Er. subst c.
    destruct s as [|d s]; [reflexivity|].
    cbn [replacePipes]. destruct (Ascii.eqb d PIPE) eqn:Edp.
    + apply Ascii.eqb_eq in Edp. subst d. reflexivity.
    + destruct (Ascii.eqb d LF); reflexivity.
Qed.

Lemma hexDigit_not_LF n : (n < 16)%N -> Ascii.eqb LF (hexDigit n) = false.
Proof.
  intros H. unfold hexDigit.
  assert (Hne : forall m, (10 < m < 256)%N -> Ascii.eqb LF (ascii_of_N m) = false).
  { intros m Hm. apply Ascii.eqb_neq. intros Heq.
    apply (f_equal N_of_ascii) in Heq.
    rewrite N_ascii_embedding in Heq by lia.
    change (N_of_ascii LF) with 10%N in Heq. lia. }
  destruct (n <? 10)%N; apply Hne; lia.
Qed.

Lemma formEncode_no_LF s : hasChar LF (formEncode s) = false.
Proof.
  induction s as [|c s IH]; [reflexivity|].
  cbn [formEncode]. destruct (isUrlSafe c) eqn:Es.
  - rewrite hasChar_cons, IH, orb_false_r. apply Ascii.eqb_neq. intros <-.
    discriminate.
  - destruct (Ascii.eqb c " "%char).
    + rewrite hasChar_cons, IH. reflexivity.
    + rewrite !hasChar_cons, IH, !hexDigit_not_LF.
      * reflexivity.
      * apply N.mod_lt. discriminate.
      * apply N.Div0.div_lt_upper_bound.
        pose proof (N_ascii_bounded c). lia.
Qed.

Lemma issueUrl_no_LF k : hasChar LF (issueUrl k) = false.
Proof.
  unfold issueUrl, URLSearchParams_toString, formPair.
  cbn [map joinWith fst snd].
  rewrite !hasChar_app, !formEncode_no_LF. reflexivity.
Qed.

(** A rendered row is a single line exactly when the key holds no line
    feed: the key is the one cell that is not escaped. *)
Lemma renderRow_single_line {rt : Runtime} it row :
  outcome (renderRow it) = Returned row ->
  hasChar LF row = hasChar LF (key it).
Proof.
  unfold renderRow. destruct (createdOf_pure it) as [(s & ->) | (e & ->)];
    [|discriminate].
  change (@pair (list event) (result string) [] (Returned s)) with (ret s).
  rewrite bind_ret_l. cbn [outcome ret snd]. intros H. injection H as <-.
  unfold formPair. cbn [fst snd].
  repeat (rewrite hasChar_cons || rewrite hasChar_app).
  rewrite !(proj1 (mdEscape_cell _)), !formEncode_no_LF.
  unfold LF. cbn [Ascii.eqb Bool.eqb andb orb]. rewrite !orb_false_r.
  change (hasChar "010" EmptyString) with false. rewrite ?orb_false_r.
  reflexivity.
Qed.

(** C10, where the script falls short: all cells of a row go through
    [mdEscape] but the key.  The message cell of this record is
    escaped (no line feed, a backslash before the pipe), yet its row
    is not a single line, because the line feed of the key is copied
    as it is into the link text.  (A backslash of the message is not
    escaped itself: the second line shows what a pipe that already
    follows a backslash becomes.) *)
Theorem key_newline_breaks_row :
  mdEscape (message issueN) = "a\|b<br>c"
  /\ mdEscape "x\|y" = "x\\|y"
  /\ hasChar LF (mdEscape (message issueN)) = false
  /\ hasBarePipe (mdEscape (message issueN)) = false
  /\ exists row,
       renderRow (rt := testRuntime) issueN = ([], Returned row)
       /\ hasChar LF row = true
       /\ firstLine row = "| [K".
Proof.
  split; [reflexivity|]. split; [reflexivity|].
  split; [reflexivity|]. split; [reflexivity|].
  eexists. split; [vm_compute; reflexivity|]. split; vm_compute; reflexivity.
Qed.

(** ** Instances at concrete inputs *)

Lemma distinctb_NoDup l : distinctb l = true -> NoDup l.
Proof.
  induction l as [|x l IH]; simpl; intros H; [constructor|].
  apply andb_true_iff in H as [Hx Hl]. constructor; [|apply IH; exact Hl].
  intros Hin. apply existsb_eqb_In in Hin. rewrite Hin in Hx. discriminate.
Qed.

Lemma groupBySeverity_partition_witness :
  let g := groupBySeverity [issueA; issueU; issueC; issueB] in
  Map_get "UNKNOWN" g = Some [issueU]
  /\ Map_get "MAJOR" g = Some [issueA; issueB]
  /\ (exists b, Map_get "INFO" g = Some b)
  /\ bucketSizes g = 4%nat.
Proof.
  destruct (groupBySeverity_partition [issueA; issueU; issueC; issueB])
    as (_ & Hknown & Hget & _ & Hsize).
  cbv zeta. split; [rewrite Hget; reflexivity|]. split; [rewrite Hget; reflexivity|].
  split; [apply Hknown; unfold SEVERITIES; simpl; tauto | exact Hsize].
Defined.

Lemma compareIssues_strict_total_order_witness :
  let cmp := @compareIssues collatingRuntime in
  Array_sort cmp [issueC; issueB; issueA] = Array_sort cmp [issueA; issueB; issueC]
  /\ StronglySorted (sortedBy cmp) (Array_sort cmp [issueA; issueB; issueC])
  /\ Array_sort cmp [issueA; issueB; issueC] = [issueB; issueA; issueC]
  /\ cmp issueB issueA <> 0.
Proof.
  cbv zeta.
  destruct (@compareIssues_strict_total_order collatingRuntime) as (_ & _ & H).
  destruct (H collatingRuntime_consistent) as (_ & Hl).
  destruct (Hl [issueA; issueB; issueC] ltac:(vm_compute; reflexivity))
    as (_ & _ & Hs & _ & _ & Hk).
  destruct (Hk ltac:(vm_compute; reflexivity)) as (Hne & Hdet).
  split; [|split; [exact Hs | split; [reflexivity|]]].
  - symmetry. apply Hdet.
    + apply distinctb_NoDup. reflexivity.
    + apply (Permutation_rev [issueA; issueB; issueC]).
  - apply Hne; [right; left; reflexivity | left; reflexivity | discriminate].
Defined.

Lemma chunks_of_sorted_bucket_witness :
  let cmp := @compareIssues collatingRuntime in
  let bucket := Array_sort cmp majors45 in
  map (@List.length issue) (chunksOf bucket) = [20; 20; 5]%nat
  /\ List.concat (chunksOf bucket) = bucket
  /\ Sorted (sortedBy cmp) bucket
  /\ cmp (majorIssue 25) (majorIssue 24) < 0
  /\ cmp (majorIssue 5) (majorIssue 4) < 0.
Proof.
  intros cmp bucket.
  destruct (@chunks_of_sorted_bucket collatingRuntime bucket)
    as (Hcat & _ & _ & Hbound & Hscript).
  destruct (Hscript collatingRuntime_consistent majors45
              ltac:(vm_compute; reflexivity) eq_refl) as (_ & Hsorted).
  assert (H0 : chunkAt bucket 0 = removelast (chunkAt bucket 0) ++ [majorIssue 25])
    by (vm_compute; reflexivity).
  assert (H1 : chunkAt bucket 1 = majorIssue 24 :: tl (chunkAt bucket 1))
    by (vm_compute; reflexivity).
  assert (H1' : chunkAt bucket 1 = removelast (chunkAt bucket 1) ++ [majorIssue 5])
    by (vm_compute; reflexivity).
  assert (H2 : chunkAt bucket 2 = majorIssue 4 :: tl (chunkAt bucket 2))
    by (vm_compute; reflexivity).
  split; [vm_compute; reflexivity|]. split; [exact Hcat|]. split; [exact Hsorted|].
  split.
  - apply (proj2 (Hbound Hsorted _ _ _ _ _ H0 H1) collatingRuntime_consistent);
      [vm_compute; reflexivity | vm_compute; reflexivity |].
    intros E. vm_compute in E. discriminate E.
  - apply (proj2 (Hbound Hsorted _ _ _ _ _ H1' H2) collatingRuntime_consistent);
      [vm_compute; reflexivity | vm_compute; reflexivity |].
    intros E. vm_compute in E. discriminate E.
Defined.

(** The end-to-end scenario of forty-five MAJOR records: three files
    of 20, 20 and 5 records and a placeholder file for each of the
    other four severities. *)
Example majors45_files :
  map fst (filesOf (trace (writeBySeverity testEnv majors45)))
  = ["BLOCKER.md"; "CRITICAL.md"; "MAJOR1.md"; "MAJOR2.md"; "MAJOR3.md";
     "MINOR.md"; "INFO.md"]
  /\ outcome (writeBySeverity testEnv majors45) = Returned tt.
Proof. split; vm_compute; reflexivity. Qed.

(** * Further properties of the script *)

(** ** Strings *)

Lemma countChar_app c a b :
  countChar c (a +++ b) = (countChar c a + countChar c b)%nat.
Proof. induction a as [|x a IH]; simpl; [reflexivity | rewrite IH; lia]. Qed.

Lemma countChar_zero c s : countChar c s = 0%nat <-> hasChar c s = false.
Proof.
  induction s as [|d s IH]; [split; reflexivity|].
  rewrite hasChar_cons. cbn [countChar].
  destruct (Ascii.eqb c d); cbn [orb]; [split; [lia | discriminate]|].
  rewrite <- IH. lia.
Qed.

Lemma length_append (a b : string) :
  String.length (a +++ b) = (String.length a + String.length b)%nat.
Proof. induction a as [|x a IH]; simpl; [reflexivity | rewrite IH; reflexivity]. Qed.

Lemma append_cancel_l (a b c : string) : a +++ b = a +++ c -> b = c.
Proof.
  induction a as [|x a IH]; simpl; intros H; [exact H|].
  inversion H. apply IH. assumption.
Qed.

Lemma append_cancel_r (a b c : string) : a +++ c = b +++ c -> a = b.
Proof.
  revert b. induction a as [|x a IH]; intros [|y b] H; simpl in H.
  - reflexivity.
  - apply (f_equal String.length) in H. simpl in H. rewrite length_append in H. lia.
  - apply (f_equal String.length) in H. simpl in H. rewrite length_append in H. lia.
  - inversion H. f_equal. apply IH. assumption.
Qed.

(** Two strings cut at a character that neither holds before the cut
    are cut at the same place. *)
Lemma append_split_unique c (u v r1 r2 : string) :
  hasChar c u = false -> hasChar c v = false ->
  u +++ String c r1 = v +++ String c r2 -> u = v /\ r1 = r2.
Proof.
  revert v. induction u as [|x u IH]; intros [|y v] Hu Hv H; simpl in H.
  - inversion H. auto.
  - inversion H; subst. rewrite hasChar_cons, Ascii.eqb_refl in Hv. discriminate.
  - inversion H; subst. rewrite hasChar_cons, Ascii.eqb_refl in Hu. discriminate.
  - inversion H; subst. rewrite hasChar_cons in Hu, Hv.
    apply orb_false_elim in Hu as [_ Hu]. apply orb_false_elim in Hv as [_ Hv].
    destruct (IH v Hu Hv) as [-> ->]; [assumption | auto].
Qed.

Lemma String_of_Z_inj a b : String_of_Z a = String_of_Z b -> a = b.
Proof.
  unfold String_of_Z. intros H.
  apply (f_equal NilEmpty.int_of_string) in H. rewrite !NilEmpty.isi in H.
  inversion H as [H']. apply (f_equal Z.of_int) in H'.
  rewrite !DecimalZ.of_to in H'. exact H'.
Qed.

Lemma String_of_nat_inj a b : String_of_nat a = String_of_nat b -> a = b.
Proof. unfold String_of_nat. intros H. apply String_of_Z_inj in H. lia. Qed.

(** ** [extractFilePath] *)

Lemma afterFirstColon_app p rest :
  hasChar COLON p = false -> afterFirstColon (p +++ String COLON rest) = Some rest.
Proof.
  induction p as [|c p IH]; intros H; simpl.
  - reflexivity.
  - rewrite hasChar_cons in H. apply orb_false_elim in H as [Hc Hp].
    rewrite Ascii.eqb_sym in Hc. fold COLON. rewrite Hc. apply IH. exact Hp.
Qed.

Lemma afterFirstColon_none s : hasChar COLON s = false -> afterFirstColon s = None.
Proof.
  induction s as [|c s IH]; intros H; simpl; [reflexivity|].
  rewrite hasChar_cons in H. apply orb_false_elim in H as [Hc Hs].
  rewrite Ascii.eqb_sym in Hc. rewrite Hc. apply IH. exact Hs.
Qed.

Lemma afterFirstColon_suffix s r :
  afterFirstColon s = Some r ->
  exists p, hasChar COLON p = false /\ s = p +++ String COLON r.
Proof.
  revert r. induction s as [|c s IH]; intros r; simpl; [discriminate|].
  destruct (Ascii.eqb c COLON) eqn:E.
  - intros H. inversion H; subst. apply Ascii.eqb_eq in E. subst c.
    exists EmptyString. split; reflexivity.
  - intros H. destruct (IH r H) as (p & Hp & ->).
    exists (String c p). split; [|reflexivity].
    rewrite hasChar_cons, Ascii.eqb_sym, E. exact Hp.
Qed.

(** X1: the file path of a component.  The path is what follows the
    first colon, so a path that holds colons itself comes out whole;
    an identifier without a colon is its own path; and the path is
    always the end of the identifier, with nothing but a colon-free
    project and one colon before it. *)
Theorem extractFilePath_first_colon :
  (forall project path,
      hasChar COLON project = false ->
      extractFilePath (project +++ ":" +++ path) = path)
  /\ (forall component,
        hasChar COLON component = false -> extractFilePath component = component)
  /\ (forall component,
        hasChar COLON component = true ->
        exists project,
          hasChar COLON project = false
          /\ component = project +++ ":" +++ extractFilePath component).
Proof.
  split; [|split].
  - intros project path H. rewrite extractFilePath_spec. unfold specFilePath.
    change (":" +++ path) with (String COLON path).
    rewrite afterFirstColon_app by exact H. reflexivity.
  - intros component H. rewrite extractFilePath_spec. unfold specFilePath.
    rewrite afterFirstColon_none by exact H. reflexivity.
  - intros component H. rewrite extractFilePath_spec. unfold specFilePath.
    destruct (afterFirstColon component) as [r|] eqn:E.
    + destruct (afterFirstColon_suffix _ _ E) as (p & Hp & Hs).
      exists p. split; [exact Hp | exact Hs].
    + exfalso. clear - H E. induction component as [|c s IH]; [discriminate|].
      simpl in E. rewrite hasChar_cons in H.
      destruct (Ascii.eqb c COLON) eqn:Ec; [discriminate|].
      rewrite Ascii.eqb_sym, Ec in H. apply IH; assumption.
Qed.

Lemma extractFilePath_first_colon_witness :
  extractFilePath ("useago_ago-chat" +++ ":" +++ "src/a:b.ts") = "src/a:b.ts".
Proof.
  apply (proj1 extractFilePath_first_colon). reflexivity.
Defined.

(** ** [mdEscape] *)

Lemma replacePipes_length s :
  String.length (replacePipes s) = (String.length s + countChar PIPE s)%nat.
Proof.
  induction s as [|c s IH]; [reflexivity|].
  cbn [replacePipes countChar]. rewrite (Ascii.eqb_sym PIPE c).
  destruct (Ascii.eqb c PIPE); simpl; rewrite IH; lia.
Qed.

Lemma replaceNewlines_length s :
  (String.length s <= String.length (replaceNewlines s))%nat.
Proof.
  assert (H : forall n s, (String.length s <= n)%nat ->
                          (String.length s <= String.length (replaceNewlines s))%nat).
  { clear s. induction n as [|n IH]; intros s Hn.
    - destruct s; [simpl; lia | simpl in Hn; lia].
    - destruct s as [|c s]; [simpl; lia|].
      cbn [replaceNewlines]. simpl in Hn.
      destruct (Ascii.eqb c LF).
      + rewrite length_append. specialize (IH s ltac:(lia)). simpl. lia.
      + destruct (Ascii.eqb c CR).
        * destruct s as [|d s].
          -- simpl. lia.
          -- destruct (Ascii.eqb d LF).
             ++ rewrite length_append. simpl in Hn.
                specialize (IH s ltac:(lia)). simpl. lia.
             ++ specialize (IH (String d s) ltac:(lia)).
                cbn [String.length]. cbn [String.length] in IH. lia.
        * specialize (IH s ltac:(lia)). cbn [String.length]. lia. }
  apply (H (String.length s)). lia.
Qed.

Lemma replacePipes_id s : hasChar PIPE s = false -> replacePipes s = s.
Proof.
  induction s as [|c s IH]; intros H; [reflexivity|].
  rewrite hasChar_cons in H. apply orb_false_elim in H as [Hc Hs].
  cbn [replacePipes]. rewrite Ascii.eqb_sym, Hc, IH by exact Hs. reflexivity.
Qed.

Lemma replaceNewlines_id s : hasChar LF s = false -> replaceNewlines s = s.
Proof.
  induction s as [|c s IH]; intros H; [reflexivity|].
  rewrite hasChar_cons in H. apply orb_false_elim in H as [Hc Hs].
  cbn [replaceNewlines]. rewrite Ascii.eqb_sym, Hc.
  destruct (Ascii.eqb c CR).
  - destruct s as [|d s]; [reflexivity|].
    pose proof Hs as Hs'. rewrite hasChar_cons in Hs'.
    apply orb_false_elim in Hs' as [Hd _]. rewrite Ascii.eqb_sym, Hd.
    rewrite IH by exact Hs. reflexivity.
  - rewrite IH by exact Hs. reflexivity.
Qed.

Lemma replacePipes_keeps_LF s : hasChar LF (replacePipes s) = hasChar LF s.
Proof.
  induction s as [|c s IH]; [reflexivity|].
  cbn [replacePipes]. destruct (Ascii.eqb c PIPE) eqn:E.
  - apply Ascii.eqb_eq in E. subst c. rewrite !hasChar_cons, IH. reflexivity.
  - rewrite !hasChar_cons, IH. reflexivity.
Qed.

(** X2: what [mdEscape] guarantees for any text.  The result holds no
    line feed, every pipe in it comes right after a backslash, and it
    is never shorter than the text. *)
Theorem mdEscape_output (text : string) :
  hasChar LF (mdEscape text) = false
  /\ hasBarePipe (mdEscape text) = false
  /\ (String.length text + countChar PIPE text <= String.length (mdEscape text))%nat.
Proof.
  destruct (mdEscape_cell text) as [H1 H2]. split; [exact H1|]. split; [exact H2|].
  unfold mdEscape. rewrite <- replacePipes_length. apply replaceNewlines_length.
Qed.

(** X3: the texts that [mdEscape] leaves alone are those without pipe
    and without line feed; any other text is changed. *)
Theorem mdEscape_fixed_points (text : string) :
  mdEscape text = text <-> hasChar PIPE text = false /\ hasChar LF text = false.
Proof.
  split.
  - intros H. split.
    + apply countChar_zero.
      pose proof (replaceNewlines_length (replacePipes text)) as Hl.
      rewrite replacePipes_length in Hl. unfold mdEscape in H. rewrite H in Hl. lia.
    + rewrite <- H. apply replaceNewlines_no_LF.
  - intros [Hp Hl]. unfold mdEscape. rewrite replacePipes_id by exact Hp.
    apply replaceNewlines_id. exact Hl.
Qed.

Lemma mdEscape_fixed_points_witness : mdEscape "src/index.ts" = "src/index.ts".
Proof.
  apply (proj2 (mdEscape_fixed_points "src/index.ts")). split; reflexivity.
Defined.

(** ** Form encoding, [issueUrl] and [buildUrl] *)

Lemma hexDigit_safe n : (n < 16)%N -> isUrlSafe (hexDigit n) = true.
Proof.
  intros H. unfold hexDigit, isUrlSafe.
  destruct (n <? 10)%N eqn:E;
    [apply N.ltb_lt in E | apply N.ltb_ge in E];
    rewrite N_ascii_embedding by lia; cbv zeta.
  - replace ((48 <=? 48 + n) && (48 + n <=? 57))%N with true; [reflexivity|].
    symmetry. apply andb_true_iff. split; apply N.leb_le; lia.
  - replace ((65 <=? 55 + n) && (55 + n <=? 90))%N with true;
      [rewrite orb_true_r; reflexivity|].
    symmetry. apply andb_true_iff. split; apply N.leb_le; lia.
Qed.

Lemma hexDigit_inj n m : (n < 16)%N -> (m < 16)%N -> hexDigit n = hexDigit m -> n = m.
Proof.
  intros Hn Hm H. apply (f_equal N_of_ascii) in H. unfold hexDigit in H.
  destruct (n <? 10)%N eqn:En, (m <? 10)%N eqn:Em;
    rewrite ?N.ltb_lt, ?N.ltb_ge in *;
    rewrite !N_ascii_embedding in H by lia; lia.
Qed.

Lemma N_of_ascii_lt c : (N_of_ascii c < 256)%N.
Proof. apply N_ascii_bounded. Qed.

Lemma formEncode_alphabet s : allChars formSafeChar (formEncode s) = true.
Proof.
  unfold allChars. induction s as [|c s IH]; [reflexivity|].
  cbn [formEncode]. destruct (isUrlSafe c) eqn:Es.
  - cbn [list_ascii_of_string forallb]. unfold formSafeChar at 1.
    rewrite Es, IH. reflexivity.
  - destruct (Ascii.eqb c " "%char).
    + cbn [list_ascii_of_string forallb]. rewrite IH. reflexivity.
    + cbn [list_ascii_of_string forallb]. rewrite IH.
      unfold formSafeChar.
      rewrite !hexDigit_safe; [reflexivity | |].
      * apply N.mod_lt. discriminate.
      * apply N.Div0.div_lt_upper_bound. pose proof (N_of_ascii_lt c). lia.
Qed.

Lemma allChars_hasChar p c s :
  allChars p s = true -> p c = false -> hasChar c s = false.
Proof.
  unfold allChars, hasChar. induction s as [|d s IH]; intros Hall Hc; [reflexivity|].
  cbn [list_ascii_of_string forallb existsb] in *.
  apply andb_true_iff in Hall as [Hd Hs]. rewrite IH by assumption.
  destruct (Ascii.eqb c d) eqn:E; [|reflexivity].
  apply Ascii.eqb_eq in E. subst d. congruence.
Qed.

Lemma formEncode_lacks c s : formSafeChar c = false -> hasChar c (formEncode s) = false.
Proof. intros H. eapply allChars_hasChar; [apply formEncode_alphabet | exact H]. Qed.

Lemma formEncode_inj a : forall b, formEncode a = formEncode b -> a = b.
Proof.
  assert (Hpct : isUrlSafe "%"%char = false) by reflexivity.
  assert (Hplus : isUrlSafe "+"%char = false) by reflexivity.
  induction a as [|c a IH]; intros [|d b] H.
  - reflexivity.
  - cbn [formEncode] in H.
    destruct (isUrlSafe d); [discriminate|]. destruct (Ascii.eqb d " "%char); discriminate.
  - cbn [formEncode] in H.
    destruct (isUrlSafe c); [discriminate|]. destruct (Ascii.eqb c " "%char); discriminate.
  - cbn [formEncode] in H.
    destruct (isUrlSafe c) eqn:Ec, (isUrlSafe d) eqn:Ed.
    + inversion H. f_equal. apply IH. assumption.
    + destruct (Ascii.eqb d " "%char); inversion H; subst; congruence.
    + destruct (Ascii.eqb c " "%char); inversion H; subst; congruence.
    + destruct (Ascii.eqb c " "%char) eqn:Sc, (Ascii.eqb d " "%char) eqn:Sd.
      * apply Ascii.eqb_eq in Sc, Sd. subst. inversion H. f_equal. apply IH. assumption.
      * inversion H.
      * inversion H.
      * inversion H as [[H1 H2 H3]].
        assert (Hc := N_of_ascii_lt c). assert (Hd := N_of_ascii_lt d).
        apply hexDigit_inj in H1;
          [| apply N.Div0.div_lt_upper_bound; lia | apply N.Div0.div_lt_upper_bound; lia].
        apply hexDigit_inj in H2; [| apply N.mod_lt; discriminate | apply N.mod_lt; discriminate].
        assert (E : N_of_ascii c = N_of_ascii d).
        { rewrite (N.div_mod (N_of_ascii c) 16), (N.div_mod (N_of_ascii d) 16) by discriminate.
          rewrite H1, H2. reflexivity. }
        apply (f_equal ascii_of_N) in E. rewrite !ascii_N_embedding in E.
        f_equal; [exact E | apply IH; assumption].
Qed.

(** X4: form encoding.  An encoded text is made of letters, digits,
    [*-._], [+] and [%] only, so it holds no [&], [=], [?], [#], space
    or line feed; and two different texts never encode to the same
    text. *)
Theorem formEncode_safe_and_injective :
  (forall s, allChars formSafeChar (formEncode s) = true)
  /\ (forall s, hasChar "&"%char (formEncode s) = false
                /\ hasChar "="%char (formEncode s) = false
                /\ hasChar "?"%char (formEncode s) = false
                /\ hasChar "#"%char (formEncode s) = false
                /\ hasChar " "%char (formEncode s) = false
                /\ hasChar LF (formEncode s) = false)
  /\ (forall a b, formEncode a = formEncode b -> a = b).
Proof.
  split; [apply formEncode_alphabet|]. split.
  - intros s. repeat split; apply formEncode_lacks; reflexivity.
  - intros a b. apply formEncode_inj.
Qed.

Lemma formEncode_safe_and_injective_witness :
  formEncode "a b&c" = "a+b%26c" /\ "a b&c" = "a b&c".
Proof.
  split; [reflexivity|].
  apply (proj2 (proj2 formEncode_safe_and_injective) "a b&c" "a b&c"). reflexivity.
Defined.

(** X5: the deep link of an issue.  Whatever the key holds, the link
    has one [?], exactly the three parameters [id], [issues] and
    [open] (two [&], three [=]) and no space or line feed; and
    different keys have different links. *)
Theorem issueUrl_well_formed :
  (forall k,
      countChar "?"%char (issueUrl k) = 1%nat
      /\ countChar "&"%char (issueUrl k) = 2%nat
      /\ countChar "="%char (issueUrl k) = 3%nat
      /\ hasChar " "%char (issueUrl k) = false
      /\ hasChar LF (issueUrl k) = false
      /\ issueUrl k = "https://sonarcloud.io/project/issues?id=useago_ago-chat&issues="
                      +++ formEncode k +++ "&open=" +++ formEncode k)
  /\ (forall k1 k2, issueUrl k1 = issueUrl k2 -> k1 = k2).
Proof.
  assert (Hshape : forall k,
    issueUrl k = "https://sonarcloud.io/project/issues?id=useago_ago-chat&issues="
                 +++ formEncode k +++ "&open=" +++ formEncode k).
  { intros k. reflexivity. }
  assert (Hz : forall c k, formSafeChar c = false -> countChar c (formEncode k) = 0%nat).
  { intros c k Hc. apply countChar_zero. apply formEncode_lacks. exact Hc. }
  split.
  - intros k. rewrite Hshape.
    repeat split;
      rewrite ?countChar_app, ?hasChar_app, ?Hz, ?formEncode_lacks by reflexivity;
      reflexivity.
  - intros k1 k2 H. rewrite !Hshape in H.
    apply append_cancel_l in H.
    change ("&open=" +++ formEncode k1) with (String "&"%char ("open=" +++ formEncode k1)) in H.
    change ("&open=" +++ formEncode k2) with (String "&"%char ("open=" +++ formEncode k2)) in H.
    apply append_split_unique in H; [| apply formEncode_lacks; reflexivity
                                      | apply formEncode_lacks; reflexivity].
    apply formEncode_inj. tauto.
Qed.

Lemma issueUrl_well_formed_witness :
  key issueN = "K" +++ NL +++ "1"
  /\ hasChar LF (issueUrl (key issueN)) = false.
Proof.
  split.
  - apply (proj2 issueUrl_well_formed). reflexivity.
  - apply (proj1 issueUrl_well_formed).
Defined.

Lemma append_nil_r (s : string) : s +++ "" = s.
Proof. induction s as [|c s IH]; simpl; [reflexivity | rewrite IH; reflexivity]. Qed.

Lemma formEncode_safe_id s : allChars isUrlSafe s = true -> formEncode s = s.
Proof.
  unfold allChars. induction s as [|c s IH]; intros H; [reflexivity|].
  cbn [list_ascii_of_string forallb] in H. apply andb_true_iff in H as [Hc Hs].
  cbn [formEncode]. rewrite Hc, IH by exact Hs. reflexivity.
Qed.

Lemma string_of_uint_safe d : allChars isUrlSafe (NilEmpty.string_of_uint d) = true.
Proof.
  unfold allChars. induction d; cbn [NilEmpty.string_of_uint list_ascii_of_string forallb];
    [reflexivity | rewrite IHd; reflexivity ..].
Qed.

Lemma String_of_Z_safe z : allChars isUrlSafe (String_of_Z z) = true.
Proof.
  unfold String_of_Z, NilEmpty.string_of_int.
  destruct (Z.to_int z) as [d | d].
  - apply string_of_uint_safe.
  - pose proof (string_of_uint_safe d) as H. unfold allChars in *.
    cbn [list_ascii_of_string forallb]. rewrite H. reflexivity.
Qed.

(** X6: the request URL of a page.  It is the search endpoint with the
    organization, the project, [resolved=false], the page size 500 and
    the page number in decimal, followed by the form-encoded branch
    when one is set and by nothing otherwise; different page numbers
    give different URLs. *)
Theorem buildUrl_query (env : Env) :
  (forall page,
      buildUrl env page =
      "https://sonarcloud.io/api/issues/search"
      +++ "?organization=useago&componentKeys=useago_ago-chat&resolved=false&ps=500&p="
      +++ String_of_Z page
      +++ (if truthy (BRANCH env) then "&branch=" +++ formEncode (BRANCH env) else ""))
  /\ (forall p q, buildUrl env p = buildUrl env q -> p = q).
Proof.
  assert (Hshape : forall page,
      buildUrl env page =
      "https://sonarcloud.io/api/issues/search"
      +++ "?organization=useago&componentKeys=useago_ago-chat&resolved=false&ps=500&p="
      +++ String_of_Z page
      +++ (if truthy (BRANCH env) then "&branch=" +++ formEncode (BRANCH env) else "")).
  { intros page. unfold buildUrl, URLSearchParams_toString, formPair.
    destruct (truthy (BRANCH env));
      cbn [app map joinWith fst snd];
      rewrite (formEncode_safe_id (String_of_Z page)) by apply String_of_Z_safe.
    - reflexivity.
    - rewrite append_nil_r. reflexivity. }
  split; [exact Hshape|].
  intros p q H. rewrite !Hshape in H.
  apply append_cancel_l in H. apply append_cancel_l in H.
  apply append_cancel_r in H. apply String_of_Z_inj. exact H.
Qed.

Lemma buildUrl_query_witness :
  let env := {| env_SONAR_TOKEN := Some "t"; env_BRANCH := Some "feature/x y" |} in
  buildUrl env 2
  = "https://sonarcloud.io/api/issues/search?organization=useago&componentKeys=useago_ago-chat&resolved=false&ps=500&p=2&branch=feature%2Fx+y"
  /\ (2 : Z) = 2.
Proof.
  intros env. split.
  - rewrite (proj1 (buildUrl_query env)). reflexivity.
  - apply (proj2 (buildUrl_query env) 2 2). reflexivity.
Defined.

(** ** [renderTable] *)

Lemma Returned_inj {A} (a b : A) : Returned a = Returned b -> a = b.
Proof. intros H. injection H as H. exact H. Qed.

Section RenderFacts.
Context {rt : Runtime}.

Lemma createdOf_dateOk it :
  if dateOk it then exists s, createdOf it = ([], Returned s)
  else createdOf it = ([], Threw (Error "Invalid time value")).
Proof.
  unfold dateOk, createdOf. destruct (creationDate it) as [d|]; [|eexists; reflexivity].
  destruct (truthy d); [|eexists; reflexivity].
  destruct (toISOString d); [eexists; reflexivity | reflexivity].
Qed.

Lemma renderRow_dateOk it :
  if dateOk it then exists row, renderRow it = ([], Returned row)
  else renderRow it = ([], Threw (Error "Invalid time value")).
Proof.
  pose proof (createdOf_dateOk it) as H. unfold renderRow.
  destruct (dateOk it).
  - destruct H as (s & ->). eexists. reflexivity.
  - rewrite H. reflexivity.
Qed.

Lemma mapM_renderRow_dateOk l :
  if forallb dateOk l
  then exists rows,
         Forall2 (fun it row => renderRow it = ([], Returned row)) l rows
         /\ mapM renderRow l = ([], Returned rows)
  else mapM renderRow l = ([], Threw (Error "Invalid time value")).
Proof.
  induction l as [|it l IH]; cbn [forallb mapM].
  - exists []. split; [constructor | reflexivity].
  - pose proof (renderRow_dateOk it) as Hrow. destruct (dateOk it); cbn [andb].
    + destruct Hrow as (row & Hrow). rewrite Hrow.
      destruct (forallb dateOk l).
      * destruct IH as (rows & Hall & ->). exists (row :: rows).
        split; [constructor; assumption | reflexivity].
      * rewrite IH. reflexivity.
    + rewrite Hrow. reflexivity.
Qed.

Lemma countChar_joinWith_NL rows :
  Forall (fun r => countChar LF r = 0%nat) rows ->
  countChar LF (joinWith NL rows) = (List.length rows - 1)%nat.
Proof.
  induction 1 as [|r rows Hr Hall IH]; [reflexivity|].
  destruct rows as [|r' rows].
  - cbn [joinWith List.length]. rewrite Hr. reflexivity.
  - change (joinWith NL (r :: r' :: rows)) with (r +++ NL +++ joinWith NL (r' :: rows)).
    rewrite !countChar_app, Hr, IH. change (countChar LF NL) with 1%nat.
    cbn [List.length]. lia.
Qed.

Lemma renderTable_cases (l : list issue) :
  l <> [] ->
  (forallb dateOk l = true ->
   exists rows,
     Forall2 (fun it row => renderRow it = ([], Returned row)) l rows
     /\ renderTable l = ([], Returned (TABLE_HEADER +++ joinWith NL rows +++ NL)))
  /\ (forallb dateOk l = false ->
      renderTable l = ([], Threw (Error "Invalid time value"))).
Proof.
  intros Hne. unfold renderTable.
  destruct l as [|it l]; [congruence|]. cbn [List.length Nat.eqb].
  pose proof (mapM_renderRow_dateOk (it :: l)) as H.
  destruct (forallb dateOk (it :: l)).
  - destruct H as (rows & Hall & ->). split; [|discriminate].
    intros _. exists rows. split; [exact Hall | reflexivity].
  - rewrite H. split; [discriminate | reflexivity].
Qed.

(** X7: when rendering a table succeeds.  For a sequence with records,
    [renderTable] returns the header lines followed by one row per
    record, in order, when the creation date of every record is
    absent, empty or valid; it throws [Invalid time value] as soon as
    one is not; it performs no effect either way. *)
Theorem renderTable_outcome (l : list issue) :
  l <> [] ->
  (forallb dateOk l = true ->
   exists rows,
     Forall2 (fun it row => renderRow it = ([], Returned row)) l rows
     /\ renderTable l = ([], Returned (TABLE_HEADER +++ joinWith NL rows +++ NL)))
  /\ (forallb dateOk l = false ->
      renderTable l = ([], Threw (Error "Invalid time value"))).
Proof. apply renderTable_cases. Qed.

(** X8: one line per record.  When no key holds a line feed, a rendered
    table of [n] records, [n] at least 1, has exactly [n + 2] lines:
    the two header lines and one line per record, whatever the other
    fields hold. *)
Theorem renderTable_line_count (l : list issue) (table : string) :
  l <> [] ->
  (forall it, In it l -> hasChar LF (key it) = false) ->
  outcome (renderTable l) = Returned table ->
  countChar LF table = (List.length l + 2)%nat.
Proof.
  intros Hne Hkeys Ho.
  destruct (renderTable_cases l Hne) as [Hok Hbad].
  destruct (forallb dateOk l) eqn:E.
  - destruct (Hok eq_refl) as (rows & Hall & Ht). rewrite Ht in Ho.
    cbn [outcome snd] in Ho. apply Returned_inj in Ho. subst table. clear Ht Hok Hbad.
    rewrite !countChar_app.
    assert (Hrows : Forall (fun r => countChar LF r = 0%nat) rows).
    { clear - Hall Hkeys. induction Hall as [|it row l rows Hrow Hall IH]; [constructor|].
      constructor.
      - apply countChar_zero.
        rewrite (renderRow_single_line it row) by (rewrite Hrow; reflexivity).
        apply Hkeys. left. reflexivity.
      - apply IH. intros x Hx. apply Hkeys. right. exact Hx. }
    rewrite countChar_joinWith_NL by exact Hrows.
    rewrite <- (Forall2_length Hall).
    destruct l; [congruence|]. cbn [List.length]. change (countChar LF TABLE_HEADER) with 2%nat.
    change (countChar LF NL) with 1%nat. lia.
  - rewrite (Hbad eq_refl) in Ho. discriminate.
Qed.
End RenderFacts.

Lemma renderTable_outcome_witness :
  exists rows,
    Forall2 (fun it row => renderRow it = ([], Returned row)) [issueA; issueB] rows
    /\ renderTable [issueA; issueB]
       = ([], Returned (TABLE_HEADER +++ joinWith NL rows +++ NL)).
Proof.
  apply (proj1 (renderTable_outcome (rt := testRuntime) [issueA; issueB] ltac:(discriminate))).
  reflexivity.
Defined.

Lemma renderTable_line_count_witness :
  exists table,
    outcome (renderTable [issueA; issueB; issueC]) = Returned table
    /\ countChar LF table = 5%nat.
Proof.
  eexists. split; [vm_compute; reflexivity|].
  apply (renderTable_line_count (rt := testRuntime) [issueA; issueB; issueC]).
  - discriminate.
  - intros it [<- | [<- | [<- | []]]]; reflexivity.
  - vm_compute. reflexivity.
Defined.

(** ** Loops over effects *)

Lemma forEach_outcome_bool {A} (l : list A) (body : A -> io unit)
    (ok : A -> bool) (e : exn) :
  (forall x, In x l -> outcome (body x) = if ok x then Returned tt else Threw e) ->
  outcome (forEach l body) = if forallb ok l then Returned tt else Threw e.
Proof.
  induction l as [|x l IH]; intros H; cbn [forEach forallb]; [reflexivity|].
  pose proof (H x (or_introl eq_refl)) as Hx.
  destruct (ok x); cbn [andb].
  - rewrite (bind_returned _ _ tt Hx). cbn [outcome snd].
    apply IH. intros y Hy. apply H. right. exact Hy.
  - rewrite (bind_threw _ _ e Hx). reflexivity.
Qed.

Lemma isPrefix_refl {A} (l : list A) : isPrefix l l.
Proof. exists []. rewrite app_nil_r. reflexivity. Qed.

Lemma isPrefix_app {A} (l l1 l2 : list A) : isPrefix l1 l2 -> isPrefix (l ++ l1) (l ++ l2).
Proof. intros (r & ->). exists r. rewrite app_assoc. reflexivity. Qed.

Lemma isPrefix_app_r {A} (l1 l2 l3 : list A) : isPrefix l1 l2 -> isPrefix l1 (l2 ++ l3).
Proof. intros (r & ->). exists (r ++ l3). rewrite app_assoc. reflexivity. Qed.

Lemma isPrefix_NoDup {A} (l1 l2 : list A) : isPrefix l1 l2 -> NoDup l2 -> NoDup l1.
Proof. intros (r & ->) H. apply NoDup_app_remove_r in H. exact H. Qed.

Lemma fileNamesOf_app t1 t2 : fileNamesOf (t1 ++ t2) = fileNamesOf t1 ++ fileNamesOf t2.
Proof. unfold fileNamesOf. rewrite filesOf_app, map_app. reflexivity. Qed.

(** The file names of a loop, from those of its iterations: [F x] are
    the names of iteration [x] when it runs to its end, and an
    iteration that throws has written an initial part of them. *)
Lemma forEach_file_names {A} (l : list A) (body : A -> io unit) (F : A -> list string) :
  (forall x, In x l ->
     isPrefix (fileNamesOf (trace (body x))) (F x)
     /\ (outcome (body x) = Returned tt -> fileNamesOf (trace (body x)) = F x)) ->
  isPrefix (fileNamesOf (trace (forEach l body))) (flat_map F l)
  /\ (outcome (forEach l body) = Returned tt ->
      fileNamesOf (trace (forEach l body)) = flat_map F l).
Proof.
  induction l as [|x l IH]; intros H; cbn [forEach flat_map].
  - split; [apply isPrefix_refl | reflexivity].
  - destruct (H x (or_introl eq_refl)) as [Hpre Heq].
    destruct IH as [IHpre IHeq]; [intros y Hy; apply H; right; exact Hy|].
    destruct (bind_trace_cases (body x) (fun _ => forEach l body))
      as [(a & Ha & Ht & Ho) | (Ht & Hn)].
    + destruct a. rewrite Ht, Ho, fileNamesOf_app, (Heq Ha). split.
      * apply isPrefix_app. exact IHpre.
      * intros Hr. rewrite (IHeq Hr). reflexivity.
    + rewrite Ht. split.
      * apply isPrefix_app_r. exact Hpre.
      * intros Hr. exfalso. apply (Hn tt). exact Hr.
Qed.

Lemma forallb_Permutation {A} (p : A -> bool) l l' :
  Permutation l l' -> forallb p l = forallb p l'.
Proof.
  induction 1 as [|x l l' _ IH|x y l|l l' l'' _ IH1 _ IH2]; cbn [forallb].
  - reflexivity.
  - rewrite IH. reflexivity.
  - destruct (p x), (p y); reflexivity.
  - congruence.
Qed.

Lemma forallb_concat {A} (p : A -> bool) (ls : list (list A)) :
  forallb p (List.concat ls) = forallb (forallb p) ls.
Proof.
  induction ls as [|l ls IH]; [reflexivity|].
  cbn [List.concat forallb]. rewrite forallb_app, IH. reflexivity.
Qed.

(** ** [writeBySeverity]: when it completes and what it names its files *)

Section WriteOutcome.
Context (env : Env) {rt : Runtime}.

Lemma renderTable_dateOk (c : list issue) :
  if forallb dateOk c then exists t, renderTable c = ([], Returned t)
  else renderTable c = ([], Threw (Error "Invalid time value")).
Proof.
  destruct c as [|it c]; [exists NO_ISSUES; reflexivity|].
  destruct (renderTable_cases (it :: c) ltac:(discriminate)) as [Hok Hbad].
  destruct (forallb dateOk (it :: c)).
  - destruct (Hok eq_refl) as (rows & _ & ->). eexists. reflexivity.
  - apply Hbad. reflexivity.
Qed.

(** One iteration of the chunk loop. *)
Lemma chunk_iteration sev l n i :
  let body :=
    (table <- renderTable (chunkAt l i) ;;
     emit (WriteFile (sev +++ String_of_nat (i + 1) +++ ".md")
             (partHeader env sev (i + 1) n +++ NL +++ table)) ;;;
     emit (ConsoleLog ("Wrote " +++ (sev +++ String_of_nat (i + 1) +++ ".md") +++ " ("
                       +++ String_of_nat (List.length (chunkAt l i)) +++ " issues)"))) in
  if forallb dateOk (chunkAt l i)
  then outcome body = Returned tt
       /\ fileNamesOf (trace body) = [sev +++ String_of_nat (i + 1) +++ ".md"]
  else outcome body = Threw (Error "Invalid time value")
       /\ fileNamesOf (trace body) = [].
Proof.
  cbv zeta. pose proof (renderTable_dateOk (chunkAt l i)) as H.
  destruct (forallb dateOk (chunkAt l i)).
  - destruct H as (t & ->).
    change (@pair (list event) (result string) [] (Returned t)) with (ret t).
    rewrite bind_ret_l, !bind_emit. split; reflexivity.
  - rewrite H. split; reflexivity.
Qed.

Lemma forallb_chunks l :
  forallb (fun i => forallb dateOk (chunkAt l i))
          (seq 0 (ceilDiv (List.length l) ISSUES_PER_FILE))
  = forallb dateOk l.
Proof.
  transitivity (forallb dateOk (List.concat (chunksOf l))).
  - rewrite forallb_concat. unfold chunksOf.
    induction (seq 0 (ceilDiv (List.length l) ISSUES_PER_FILE)) as [|i rest IH];
      [reflexivity|]. cbn [map forallb]. rewrite IH. reflexivity.
  - rewrite chunksOf_concat. reflexivity.
Qed.

Lemma flat_map_singleton {A B} (f : A -> B) (l : list A) :
  flat_map (fun x => [f x]) l = map f l.
Proof. induction l as [|x l IH]; simpl; [reflexivity | rewrite IH; reflexivity]. Qed.

Lemma writeBucket_outcome_names sev l :
  outcome (writeBucket env sev l)
    = (if forallb dateOk l then Returned tt else Threw (Error "Invalid time value"))
  /\ isPrefix (fileNamesOf (trace (writeBucket env sev l)))
              (bucketFileNames sev (List.length l))
  /\ (outcome (writeBucket env sev l) = Returned tt ->
      fileNamesOf (trace (writeBucket env sev l)) = bucketFileNames sev (List.length l)).
Proof.
  unfold writeBucket, bucketFileNames.
  destruct (List.length l =? 0)%nat eqn:E.
  - apply Nat.eqb_eq in E. destruct l; [|discriminate].
    split; [reflexivity|]. split; [apply isPrefix_refl | reflexivity].
  - split.
    + rewrite <- forallb_chunks.
      apply forEach_outcome_bool. intros i _.
      pose proof (chunk_iteration sev l (ceilDiv (List.length l) ISSUES_PER_FILE) i) as H.
      cbv zeta in H. destruct (forallb dateOk (chunkAt l i)); apply H.
    + rewrite <- flat_map_singleton.
      apply forEach_file_names. intros i _.
      pose proof (chunk_iteration sev l (ceilDiv (List.length l) ISSUES_PER_FILE) i) as H.
      cbv zeta in H. destruct (forallb dateOk (chunkAt l i)); destruct H as [Ho Hn];
        rewrite Hn.
      * split; [apply isPrefix_refl | reflexivity].
      * split; [eexists; reflexivity | rewrite Ho; discriminate].
Qed.

Lemma bucketOf_perm issues sev :
  Permutation (filter (hasSeverity sev) issues) (bucketOf issues sev).
Proof. unfold bucketOf. apply Array_sort_perm. Qed.

Lemma known_dates_by_bucket issues :
  forallb (fun sev => forallb dateOk (bucketOf issues sev)) SEVERITIES
  = forallb dateOk (filter knownSeverity issues).
Proof.
  apply eq_true_iff_eq. rewrite !forallb_forall. split.
  - intros H it Hit. apply filter_In in Hit as [Hin Hk].
    unfold knownSeverity in Hk. apply existsb_eqb_In in Hk.
    specialize (H _ Hk). rewrite <- (forallb_Permutation _ _ _ (bucketOf_perm issues _)) in H.
    rewrite forallb_forall in H. apply H. apply filter_In. split; [exact Hin|].
    unfold hasSeverity. apply String.eqb_refl.
  - intros H sev Hs.
    rewrite <- (forallb_Permutation _ _ _ (bucketOf_perm issues sev)).
    apply forallb_forall. intros it Hit. apply filter_In in Hit as [Hin Hsev].
    apply H. apply filter_In. split; [exact Hin|].
    unfold hasSeverity in Hsev. apply String.eqb_eq in Hsev.
    unfold knownSeverity. rewrite Hsev. apply existsb_eqb_In. exact Hs.
Qed.

Lemma writeBySeverity_outcome issues :
  outcome (writeBySeverity env issues)
  = if forallb dateOk (filter knownSeverity issues)
    then Returned tt else Threw (Error "Invalid time value").
Proof.
  rewrite writeBySeverity_buckets, <- known_dates_by_bucket.
  apply forEach_outcome_bool. intros sev _.
  apply (proj1 (writeBucket_outcome_names sev (bucketOf issues sev))).
Qed.

Lemma writeBySeverity_names issues :
  isPrefix (fileNamesOf (trace (writeBySeverity env issues))) (expectedFileNames issues)
  /\ (outcome (writeBySeverity env issues) = Returned tt ->
      fileNamesOf (trace (writeBySeverity env issues)) = expectedFileNames issues).
Proof.
  rewrite writeBySeverity_buckets. unfold expectedFileNames.
  apply forEach_file_names. intros sev _.
  rewrite (Permutation_length (bucketOf_perm issues sev)).
  apply (proj2 (writeBucket_outcome_names sev (bucketOf issues sev))).
Qed.
End WriteOutcome.

(** The severity at the start of a file name is determined by the name. *)
Lemma severity_of_name sev1 sev2 t1 t2 :
  In sev1 SEVERITIES -> In sev2 SEVERITIES ->
  sev1 +++ t1 = sev2 +++ t2 -> sev1 = sev2.
Proof.
  unfold SEVERITIES. cbn [In]. intros H1 H2 E.
  repeat match goal with H : _ \/ _ |- _ => destruct H as [H | H] end;
    try contradiction; subst; try reflexivity; cbn [String.append] in E;
    discriminate E.
Qed.

Lemma bucketFileNames_form sev n name :
  In name (bucketFileNames sev n) -> exists t, name = sev +++ t.
Proof.
  unfold bucketFileNames. destruct (n =? 0)%nat.
  - intros [<- | []]. eexists. reflexivity.
  - intros H. apply in_map_iff in H as (i & <- & _). eexists. reflexivity.
Qed.

Lemma bucketFileNames_NoDup sev n : NoDup (bucketFileNames sev n).
Proof.
  unfold bucketFileNames. destruct (n =? 0)%nat.
  - repeat constructor. intros [].
  - apply NoDup_map_NoDup_ForallPairs; [|apply seq_NoDup].
    intros i j _ _ H. apply append_cancel_l, append_cancel_r in H.
    apply String_of_nat_inj in H. lia.
Qed.

Lemma bucketFileNames_length sev n :
  List.length (bucketFileNames sev n) = Nat.max 1 (ceilDiv n ISSUES_PER_FILE).
Proof.
  unfold bucketFileNames. destruct (n =? 0)%nat eqn:E.
  - apply Nat.eqb_eq in E. subst n. reflexivity.
  - apply Nat.eqb_neq in E. rewrite length_map, length_seq.
    pose proof (ceilDiv_tight n ISSUES_PER_FILE) as H. unfold ISSUES_PER_FILE in *.
    assert (0 < ceilDiv n 20)%nat.
    { destruct (ceilDiv n 20) eqn:Ec; [|lia].
      pose proof (ceilDiv_covers n 20 ltac:(lia)). rewrite Ec in *. lia. }
    lia.
Qed.

Lemma flat_map_NoDup_by_label (labels : list string) (F : string -> list string) :
  NoDup labels ->
  (forall s, In s labels -> NoDup (F s)) ->
  (forall s1 s2 x, In s1 labels -> In s2 labels -> In x (F s1) -> In x (F s2) -> s1 = s2) ->
  NoDup (flat_map F labels).
Proof.
  induction labels as [|s labels IH]; intros Hnd Heach Hdisj; [constructor|].
  inversion Hnd as [|? ? Hnotin Hnd']; subst. cbn [flat_map].
  apply NoDup_app.
  - apply Heach. left. reflexivity.
  - apply IH; [exact Hnd' | intros; apply Heach; right; assumption |].
    intros s1 s2 x H1 H2. apply Hdisj; right; assumption.
  - intros x Hx Hin. apply in_flat_map in Hin as (s' & Hs' & Hx').
    assert (s = s') by (apply (Hdisj s s' x); [left; reflexivity | right; exact Hs' | | ]; assumption).
    subst s'. contradiction.
Qed.

Lemma expectedFileNames_NoDup issues : NoDup (expectedFileNames issues).
Proof.
  unfold expectedFileNames. apply flat_map_NoDup_by_label.
  - unfold SEVERITIES. repeat constructor; cbn [In]; intuition discriminate.
  - intros s _. apply bucketFileNames_NoDup.
  - intros s1 s2 x H1 H2 Hx1 Hx2.
    apply bucketFileNames_form in Hx1 as (t1 & ->).
    apply bucketFileNames_form in Hx2 as (t2 & E).
    apply (severity_of_name s1 s2 t1 t2 H1 H2 E).
Qed.

(** X9: when the writing stage completes.  [writeBySeverity] returns
    exactly when the creation date of every record of a known
    severity is absent, empty or valid, and throws [Invalid time
    value] otherwise; records of an unrecognized severity do not
    matter, as they are never rendered. *)
Theorem writeBySeverity_completes (env : Env) (rt : Runtime) (issues : list issue) :
  outcome (writeBySeverity env issues)
  = if forallb dateOk (filter knownSeverity issues)
    then Returned tt else Threw (Error "Invalid time value").
Proof. apply writeBySeverity_outcome. Qed.

(** X10: no file is written twice.  In any run of the writing stage,
    complete or cut short by an exception, the names of the written
    files are pairwise different, and they are an initial part of the
    names that a complete run writes. *)
Theorem written_file_names_distinct (env : Env) (rt : Runtime) (issues : list issue) :
  NoDup (fileNamesOf (trace (writeBySeverity env issues)))
  /\ isPrefix (fileNamesOf (trace (writeBySeverity env issues)))
              (expectedFileNames issues).
Proof.
  destruct (writeBySeverity_names env issues) as [Hpre _].
  split; [|exact Hpre].
  eapply isPrefix_NoDup; [exact Hpre | apply expectedFileNames_NoDup].
Qed.

(** X11: the files of a complete run.  When the writing stage returns,
    it has written, severity by severity in the order of the severity
    list, [SEV.md] for a severity without records and [SEV1.md] to
    [SEVn.md] for one with [k] records, [n] being [k / 20] rounded up;
    so each severity has at least one file. *)
Theorem complete_run_file_names (env : Env) (rt : Runtime) (issues : list issue) :
  outcome (writeBySeverity env issues) = Returned tt ->
  fileNamesOf (trace (writeBySeverity env issues))
  = flat_map (fun sev =>
                bucketFileNames sev (List.length (filter (hasSeverity sev) issues)))
             SEVERITIES
  /\ (forall sev n,
        List.length (bucketFileNames sev n) = Nat.max 1 (ceilDiv n ISSUES_PER_FILE)
        /\ bucketFileNames sev 0 = [sev +++ ".md"]
        /\ ((0 < n)%nat ->
            bucketFileNames sev n
            = map (fun i => sev +++ String_of_nat (i + 1) +++ ".md")
                  (seq 0 (ceilDiv n ISSUES_PER_FILE)))).
Proof.
  intros Ho. split.
  - apply (proj2 (writeBySeverity_names env issues) Ho).
  - intros sev n. split; [apply bucketFileNames_length|]. split; [reflexivity|].
    intros Hn. unfold bucketFileNames.
    destruct (n =? 0)%nat eqn:E; [apply Nat.eqb_eq in E; lia | reflexivity].
Qed.

Lemma complete_run_file_names_witness :
  fileNamesOf (trace (writeBySeverity testEnv (issueC :: majors45)))
  = ["BLOCKER.md"; "CRITICAL.md"; "MAJOR1.md"; "MAJOR2.md"; "MAJOR3.md";
     "MINOR1.md"; "INFO.md"].
Proof.
  rewrite (proj1 (complete_run_file_names testEnv testRuntime (issueC :: majors45)
                    ltac:(vm_compute; reflexivity))).
  vm_compute. reflexivity.
Defined.

(** ** The sort keeps ties in fetch order *)

(** X12: sorting a bucket loses nothing and keeps ties in order.  The
    sorted bucket of a severity is a rearrangement of the fetched
    records of that severity, whatever the collation does.  When
    [localeCompare] is a consistent comparison that tells the file
    paths of the bucket apart, the records that the comparator cannot
    tell from a record of the bucket are those of the same file and
    line whose keys collate equal (the same issue fetched twice, or
    two issues whose different keys tie), and they stay in the order
    in which they were fetched. *)
Theorem bucket_sort_stable {rt : Runtime} (issues : list issue) (sev : string) :
  Permutation (filter (hasSeverity sev) issues) (bucketOf issues sev)
  /\ (ConsistentCompare rt ->
      pathsApart (filter (hasSeverity sev) issues) = true ->
      forall z, In z (filter (hasSeverity sev) issues) ->
        filter (tiesWith z) (bucketOf issues sev)
        = filter (tiesWith z) (filter (hasSeverity sev) issues)
        /\ forall x, In x (filter (hasSeverity sev) issues) ->
             (tiesWith z x = true <->
              extractFilePath (component x) = extractFilePath (component z)
              /\ lineOr0 x = lineOr0 z
              /\ localeCompare (key x) (key z) = 0)).
Proof.
  split; [apply bucketOf_perm|].
  intros CC Hp z Hz. split.
  - unfold bucketOf. apply bucket_ties_kept; assumption.
  - intros x Hx. unfold tiesWith. rewrite Z.eqb_eq.
    apply compareIssues_zero. apply (pathsApart_In _ x z Hp Hx Hz).
Qed.

Lemma bucket_sort_stable_witness :
  let fetched := [issueA; issueK'; issueC; issueK] in
  @bucketOf collatingRuntime fetched "MAJOR" = [issueA; issueK'; issueK]
  /\ filter (@tiesWith collatingRuntime issueK) (@bucketOf collatingRuntime fetched "MAJOR")
     = [issueK'; issueK].
Proof.
  intros fetched. split; [reflexivity|].
  destruct (@bucket_sort_stable collatingRuntime fetched "MAJOR") as (_ & H).
  destruct (H collatingRuntime_consistent ltac:(vm_compute; reflexivity) issueK
              ltac:(vm_compute; tauto)) as (-> & _).
  reflexivity.
Defined.

(** ** The fetcher: pauses, events, and the missing page cap *)

Section FetchMore.
Context (env : Env).

Lemma sleepsOf_app t1 t2 : sleepsOf (t1 ++ t2) = sleepsOf t1 ++ sleepsOf t2.
Proof. unfold sleepsOf. apply flat_map_app. Qed.

Lemma sleepsOf_sleepAfter r : sleepsOf (sleepAfter r) = if fullPage r then [100] else [].
Proof. unfold sleepAfter, fullPage. destruct (_ =? _); reflexivity. Qed.

Lemma fetchLoop_events rs : forall p t all,
  forallb isFetchOrSleep (trace (fetchLoop env rs p t all)) = true.
Proof.
  induction rs as [|r rs IH]; intros p t all.
  - rewrite fetchLoop_nil. destruct (num_lt _ t); reflexivity.
  - rewrite fetchLoop_step. destruct (num_lt _ t); [|reflexivity].
    destruct (res_ok r); [|reflexivity].
    cbv zeta. cbn [trace fst forallb isFetchOrSleep andb].
    rewrite forallb_app, IH, andb_true_r.
    unfold sleepAfter. destruct (_ =? _); reflexivity.
Qed.

Lemma fetchLoop_sleeps rs : forall p t all l,
  outcome (fetchLoop env rs p t all) = Returned l ->
  sleepsOf (trace (fetchLoop env rs p t all))
  = map (fun _ => 100)
        (filter fullPage
           (firstn (List.length (requestsOf (trace (fetchLoop env rs p t all)))) rs)).
Proof.
  induction rs as [|r rs IH]; intros p t all l.
  - rewrite fetchLoop_nil. destruct (num_lt _ t); [discriminate | reflexivity].
  - rewrite fetchLoop_step. destruct (num_lt _ t); [|reflexivity].
    destruct (res_ok r); [|discriminate].
    cbv zeta. cbn [trace outcome fst snd]. intros Ho.
    change (requestsOf (?e :: ?t)) with (requestsOf [e] ++ requestsOf t).
    change (sleepsOf (?e :: ?t)) with (sleepsOf [e] ++ sleepsOf t).
    rewrite requestsOf_app, requestsOf_sleepAfter, sleepsOf_app, sleepsOf_sleepAfter.
    cbn [requestsOf sleepsOf flat_map app List.length firstn filter].
    rewrite (IH _ _ _ _ Ho). destruct (fullPage r); reflexivity.
Qed.

(** As long as every response declares more records than the pages
    requested so far can hold, the loop asks for a further page. *)
Lemma fetchLoop_goes_on rs : forall p t all,
  num_lt ((p - 1) * PAGE_SIZE) t = true ->
  (forall k r, nth_error rs k = Some r ->
     res_ok r = true /\ (p + Z.of_nat k) * PAGE_SIZE < totalOf (res_json r)) ->
  outcome (fetchLoop env rs p t all) = Pending
  /\ List.length (requestsOf (trace (fetchLoop env rs p t all))) = S (List.length rs).
Proof.
  induction rs as [|r rs IH]; intros p t all Hc Hall.
  - rewrite fetchLoop_nil, Hc. split; reflexivity.
  - rewrite fetchLoop_step, Hc.
    destruct (Hall 0%nat r eq_refl) as [Hok Hmore]. rewrite Hok.
    cbv zeta. cbn [trace outcome fst snd].
    change (requestsOf (?e :: ?t)) with (requestsOf [e] ++ requestsOf t).
    rewrite requestsOf_app, requestsOf_sleepAfter.
    destruct (IH (p + 1) (Fin (totalOf (res_json r))) (all ++ issuesOf (res_json r)))
      as [Ho Hl].
    + cbn [num_lt]. apply Z.ltb_lt. rewrite Z.add_0_r in Hmore.
      replace (p + 1 - 1) with p by lia. exact Hmore.
    + intros k r' Hk. destruct (Hall (S k) r' Hk) as [Hok' Hm]. split; [exact Hok'|].
      replace (p + 1 + Z.of_nat k) with (p + Z.of_nat (S k)) by lia. exact Hm.
    + split; [exact Ho|]. cbn [requestsOf flat_map app List.length]. rewrite Hl. reflexivity.
Qed.
End FetchMore.

(** X13: what fetching does besides requesting.  The fetcher only
    requests pages and pauses: it writes no file and logs nothing.
    When it returns, it has paused 100 ms once after every requested
    page that held exactly 500 records, and after no other page. *)
Theorem fetch_pauses_after_full_pages (env : Env) :
  (forall rs, forallb isFetchOrSleep (trace (fetchAllIssues env rs)) = true)
  /\ (forall rs l,
        outcome (fetchAllIssues env rs) = Returned l ->
        sleepsOf (trace (fetchAllIssues env rs))
        = map (fun _ => 100)
              (filter fullPage
                 (firstn (List.length (requestsOf (trace (fetchAllIssues env rs)))) rs))).
Proof.
  split.
  - intros rs. exact (fetchLoop_events env rs 1 Infinity []).
  - intros rs l Ho. exact (fetchLoop_sleeps env rs 1 Infinity [] l Ho).
Qed.

Lemma fetch_pauses_after_full_pages_witness :
  sleepsOf (trace (fetchAllIssues testEnv
                     [okPage 1200 pageA; okPage 1200 pageB; okPage 1200 pageC]))
  = [100; 100].
Proof.
  rewrite (proj2 (fetch_pauses_after_full_pages testEnv) _ (pageA ++ pageB ++ pageC)).
  - vm_compute. reflexivity.
  - vm_compute. reflexivity.
Defined.

(** X14: the loop has no page cap.  If every response is successful
    and declares a total beyond the records that the pages requested
    so far can hold, the fetcher uses up all responses and asks for
    one page more: only the declared totals stop it. *)
Theorem fetch_has_no_page_cap (env : Env) (rs : list Response) :
  (forall k r, nth_error rs k = Some r ->
     res_ok r = true /\ Z.of_nat (S k) * PAGE_SIZE < totalOf (res_json r)) ->
  outcome (fetchAllIssues env rs) = Pending
  /\ List.length (requestsOf (trace (fetchAllIssues env rs))) = S (List.length rs).
Proof.
  intros H. unfold fetchAllIssues. apply fetchLoop_goes_on; [reflexivity|].
  intros k r Hk. destruct (H k r Hk) as [Hok Hm]. split; [exact Hok|].
  replace (1 + Z.of_nat k) with (Z.of_nat (S k)) by lia. exact Hm.
Qed.

Lemma fetch_has_no_page_cap_witness :
  outcome (fetchAllIssues testEnv [okPage 501 [issueA]; okPage 1001 []; okPage 1501 []])
  = Pending
  /\ List.length (requestsOf (trace (fetchAllIssues testEnv
                     [okPage 501 [issueA]; okPage 1001 []; okPage 1501 []]))) = 4%nat.
Proof.
  apply fetch_has_no_page_cap.
  intros [|[|[|k]]] r H; cbn [nth_error] in H; inversion H; subst.
  - split; [reflexivity | vm_compute; reflexivity].
  - split; [reflexivity | vm_compute; reflexivity].
  - split; [reflexivity | vm_compute; reflexivity].
  - destruct k; discriminate.
Defined.

(** ** [main] and the script as a whole *)

Section MainFacts.
Context (env : Env) {rt : Runtime}.

Lemma bind_pending {A B} (m : io A) (f : A -> io B) :
  outcome m = Pending -> bind m f = (trace m, Pending).
Proof. unfold bind, outcome, trace. intros ->. reflexivity. Qed.

Lemma forEach_trace_forallb {A} (P : event -> bool) (l : list A) (body : A -> io unit) :
  (forall x, In x l -> forallb P (trace (body x)) = true) ->
  forallb P (trace (forEach l body)) = true.
Proof.
  induction l as [|x l IH]; intros H; cbn [forEach]; [reflexivity|].
  destruct (bind_trace_cases (body x) (fun _ => forEach l body))
    as [(a & _ & Ht & _) | (Ht & _)]; rewrite Ht.
  - rewrite forallb_app, (H x (or_introl eq_refl)), IH; [reflexivity|].
    intros y Hy. apply H. right. exact Hy.
  - apply H. left. reflexivity.
Qed.

Lemma writeBucket_events sev l :
  forallb isWriteOrLog (trace (writeBucket env sev l)) = true.
Proof.
  unfold writeBucket. destruct (List.length l =? 0)%nat; [reflexivity|].
  apply forEach_trace_forallb. intros i _.
  destruct (renderTable_pure (chunkAt l i)) as [(t & ->) | (e & ->)]; reflexivity.
Qed.

Lemma writeBySeverity_events issues :
  forallb isWriteOrLog (trace (writeBySeverity env issues)) = true.
Proof.
  unfold writeBySeverity. apply forEach_trace_forallb. intros sev _.
  apply writeBucket_events.
Qed.

Lemma requestsOf_writeOrLog t : forallb isWriteOrLog t = true -> requestsOf t = [].
Proof.
  induction t as [|e t IH]; [reflexivity|]. cbn [forallb]. intros H.
  apply andb_true_iff in H as [He Ht]. destruct e; try discriminate; cbn; auto.
Qed.

Lemma filesOf_fetchOrSleep t : forallb isFetchOrSleep t = true -> filesOf t = [].
Proof.
  induction t as [|e t IH]; [reflexivity|]. cbn [forallb]. intros H.
  apply andb_true_iff in H as [He Ht]. destruct e; try discriminate; cbn; auto.
Qed.

Lemma main_trace rs :
  match outcome (fetchAllIssues env rs) with
  | Returned l =>
      main env rs
      = (ConsoleLog (helloText env) :: trace (fetchAllIssues env rs)
           ++ ConsoleLog (fetchedText l) :: trace (writeBySeverity env l)
           ++ [if forallb dateOk (filter knownSeverity l)
               then ConsoleLog "Done." else ConsoleError "Invalid time value"],
         if forallb dateOk (filter knownSeverity l) then Exited 0 else Exited 1)
  | Threw e =>
      main env rs
      = (ConsoleLog (helloText env) :: trace (fetchAllIssues env rs)
           ++ [ConsoleError (errorText e)], Exited 1)
  | Pending =>
      main env rs = (ConsoleLog (helloText env) :: trace (fetchAllIssues env rs), Hung)
  end.
Proof.
  unfold main, mainBody. fold (helloText env).
  destruct (outcome (fetchAllIssues env rs)) as [l|e|] eqn:Ho.
  - rewrite bind_emit, (bind_returned _ _ l Ho), bind_emit.
    fold (fetchedText l).
    pose proof (writeBySeverity_outcome env l) as Hw.
    destruct (forallb dateOk (filter knownSeverity l)).
    + rewrite (bind_returned _ _ tt Hw). reflexivity.
    + rewrite (bind_threw _ _ _ Hw). cbn [outcome trace fst snd].
      f_equal. cbn [app]. f_equal. rewrite <- app_assoc. reflexivity.
  - rewrite bind_emit, (bind_threw _ _ e Ho). reflexivity.
  - rewrite bind_emit, (bind_pending _ _ Ho). reflexivity.
Qed.
End MainFacts.

Lemma main_requests_files (env : Env) {rt : Runtime} rs :
  requestsOf (fst (main env rs)) = requestsOf (trace (fetchAllIssues env rs))
  /\ filesOf (fst (main env rs))
     = match outcome (fetchAllIssues env rs) with
       | Returned l => filesOf (trace (writeBySeverity env l))
       | _ => []
       end.
Proof.
  pose proof (main_trace env rs) as H.
  pose proof (fetchLoop_events env rs 1 Infinity []) as Hf.
  fold (fetchAllIssues env rs) in Hf.
  pose proof (filesOf_fetchOrSleep _ Hf) as Hnof.
  destruct (outcome (fetchAllIssues env rs)) as [l|e|]; rewrite H; cbn [fst].
  - pose proof (requestsOf_writeOrLog _ (writeBySeverity_events env l)) as Hnor.
    change (requestsOf (?e :: ?t)) with (requestsOf [e] ++ requestsOf t).
    change (filesOf (?e :: ?t)) with (filesOf [e] ++ filesOf t).
    rewrite requestsOf_app, filesOf_app.
    change (requestsOf (?e :: ?t)) with (requestsOf [e] ++ requestsOf t).
    change (filesOf (?e :: ?t)) with (filesOf [e] ++ filesOf t).
    rewrite requestsOf_app, filesOf_app, Hnor, Hnof.
    cbn [requestsOf filesOf flat_map app]. rewrite !app_nil_r.
    destruct (forallb dateOk (filter knownSeverity l));
      cbn; rewrite ?app_nil_r; split; reflexivity.
  - change (requestsOf (?e :: ?t)) with (requestsOf [e] ++ requestsOf t).
    change (filesOf (?e :: ?t)) with (filesOf [e] ++ filesOf t).
    rewrite requestsOf_app, filesOf_app, Hnof. cbn. rewrite app_nil_r. split; reflexivity.
  - change (requestsOf (?e :: ?t)) with (requestsOf [e] ++ requestsOf t).
    change (filesOf (?e :: ?t)) with (filesOf [e] ++ filesOf t).
    rewrite Hnof. cbn. split; reflexivity.
Qed.

(** X15: how [main] composes the stages.  Fetching comes first and
    writing after it: the trace of [main] is the greeting, the trace
    of the fetcher (requests and pauses only), then, if the fetcher
    returned, the count message and the trace of the writer (files and
    log lines only), and last the word [Done.] or the error message.
    [main] exits with 0 exactly when the fetcher returned and every
    record of a known severity has a renderable date, hangs exactly
    when the fetcher waits for a response, and exits with 1 in every
    other case; its files are those of the writer run on the fetched
    records, also when the writer throws midway. *)
Theorem main_runs_in_stages (env : Env) (rt : Runtime) (rs : list Response) :
  match outcome (fetchAllIssues env rs) with
  | Returned l =>
      main env rs
      = (ConsoleLog (helloText env) :: trace (fetchAllIssues env rs)
           ++ ConsoleLog (fetchedText l) :: trace (writeBySeverity env l)
           ++ [if forallb dateOk (filter knownSeverity l)
               then ConsoleLog "Done." else ConsoleError "Invalid time value"],
         if forallb dateOk (filter knownSeverity l) then Exited 0 else Exited 1)
  | Threw e =>
      main env rs
      = (ConsoleLog (helloText env) :: trace (fetchAllIssues env rs)
           ++ [ConsoleError (errorText e)], Exited 1)
  | Pending =>
      main env rs = (ConsoleLog (helloText env) :: trace (fetchAllIssues env rs), Hung)
  end
  /\ forallb isFetchOrSleep (trace (fetchAllIssues env rs)) = true
  /\ (forall l, forallb isWriteOrLog (trace (writeBySeverity env l)) = true)
  /\ requestsOf (fst (main env rs)) = requestsOf (trace (fetchAllIssues env rs))
  /\ filesOf (fst (main env rs))
     = match outcome (fetchAllIssues env rs) with
       | Returned l => filesOf (trace (writeBySeverity env l))
       | _ => []
       end
  /\ (snd (main env rs) = Exited 0 <->
      exists l, outcome (fetchAllIssues env rs) = Returned l
                /\ forallb dateOk (filter knownSeverity l) = true)
  /\ (snd (main env rs) = Hung <-> outcome (fetchAllIssues env rs) = Pending).
Proof.
  split; [apply main_trace|].
  split; [exact (fetchLoop_events env rs 1 Infinity [])|].
  split; [intros l; apply writeBySeverity_events|].
  destruct (main_requests_files env rs) as [Hr Hf].
  split; [exact Hr|]. split; [exact Hf|].
  pose proof (main_trace env rs) as H.
  destruct (outcome (fetchAllIssues env rs)) as [l|e|]; rewrite H; cbn [snd]; split.
  - split.
    + intros Hx. exists l. split; [reflexivity|].
      destruct (forallb dateOk (filter knownSeverity l)); [reflexivity | discriminate].
    + intros (l' & Hl & Hd). inversion Hl; subst. rewrite Hd. reflexivity.
  - split; [|discriminate].
    destruct (forallb dateOk (filter knownSeverity l)); discriminate.
  - split; [discriminate|]. intros (l & Hl & _). discriminate.
  - split; discriminate.
  - split; [discriminate|]. intros (l & Hl & _). discriminate.
  - split; reflexivity.
Qed.

Lemma main_runs_in_stages_witness :
  snd (main testEnv [okPage 3 [issueA; issueB; issueC]]) = Exited 0.
Proof.
  apply (proj1 (proj2 (proj2 (proj2 (proj2 (proj2
           (main_runs_in_stages testEnv testRuntime [okPage 3 [issueA; issueB; issueC]]))))))).
  exists [issueA; issueB; issueC]. split; reflexivity.
Defined.

Lemma script_token_check_aux (env : Env) {rt : Runtime} (rs : list Response) :
  (hasToken env = false ->
   script env rs = ([ConsoleError "Missing SONAR_TOKEN env var."], Exited 1))
  /\ (hasToken env = true -> script env rs = main env rs).
Proof.
  unfold hasToken, script.
  destruct (env_SONAR_TOKEN env) as [t|]; [destruct (truthy t)|];
    split; try reflexivity; discriminate.
Qed.

(** X16: the token check.  Without a token, or with an empty one, the
    script logs the missing variable and exits with 1 at once; with a
    token it is [main].  It sends no request exactly when the token is
    missing: with a token, page 1 is always requested. *)
Theorem script_token_check (env : Env) (rt : Runtime) (rs : list Response) :
  (hasToken env = false ->
   script env rs = ([ConsoleError "Missing SONAR_TOKEN env var."], Exited 1))
  /\ (hasToken env = true -> script env rs = main env rs)
  /\ (requestsOf (fst (script env rs)) = [] <-> hasToken env = false).
Proof.
  unfold hasToken, script.
  assert (Hreq : requestsOf (fst (main env rs)) <> []).
  { rewrite (proj1 (main_requests_files env rs)).
    pose proof (proj2 (fetchLoop_requested_iff env rs 1 Infinity []) eq_refl) as Hpos.
    fold (fetchAllIssues env rs) in Hpos.
    destruct (requestsOf (trace (fetchAllIssues env rs))); [simpl in Hpos; lia | discriminate]. }
  destruct (env_SONAR_TOKEN env) as [t|]; [destruct (truthy t)|].
  - split; [discriminate|]. split; [reflexivity|]. split; [contradiction | discriminate].
  - split; [reflexivity|]. split; [discriminate|]. split; reflexivity.
  - split; [reflexivity|]. split; [discriminate|]. split; reflexivity.
Qed.

Lemma script_token_check_witness :
  script (rt := testRuntime) {| env_SONAR_TOKEN := Some ""; env_BRANCH := Some "main" |}
         [okPage 1 [issueA]]
  = ([ConsoleError "Missing SONAR_TOKEN env var."], Exited 1).
Proof.
  apply (proj1 (script_token_check _ testRuntime _)). reflexivity.
Defined.

(** X17: a whole export.  With a token, pages that all declare the
    total [T] and records whose dates render, the script requests
    pages 1 to [N], writes exactly the files of the writer run on all
    fetched records, under the names a complete run has, logs [Done.]
    last and exits with 0. *)
Theorem script_exports (env : Env) (rt : Runtime) (T : Z) (N : nat)
    (rs : list Response) :
  hasToken env = true ->
  (1 <= N)%nat ->
  (N = 1%nat \/ (Z.of_nat N - 1) * PAGE_SIZE < T) ->
  T <= Z.of_nat N * PAGE_SIZE ->
  (N <= List.length rs)%nat ->
  Forall (fun r => res_ok r = true /\ totalOf (res_json r) = T) (firstn N rs) ->
  let all := List.concat (map (fun r => issuesOf (res_json r)) (firstn N rs)) in
  forallb dateOk (filter knownSeverity all) = true ->
  snd (script env rs) = Exited 0
  /\ requestsOf (fst (script env rs)) = map (fun i => buildUrl env (Z.of_nat i)) (seq 1 N)
  /\ filesOf (fst (script env rs)) = filesOf (trace (writeBySeverity env all))
  /\ fileNamesOf (fst (script env rs)) = expectedFileNames all
  /\ last (fst (script env rs)) (ConsoleLog "") = ConsoleLog "Done.".
Proof.
  intros Htok HN Hlast Hstop Hlen Hall all Hdates.
  destruct (fetchAllIssues_constant_total env T N rs HN Hlast Hstop Hlen Hall) as [Hr Ho].
  fold all in Ho.
  rewrite (proj2 (script_token_check_aux env rs) Htok).
  destruct (main_requests_files env rs) as [Hreq Hfiles].
  pose proof (main_trace env rs) as Hm. rewrite Ho in Hm, Hfiles. rewrite Hdates in Hm.
  split; [rewrite Hm; reflexivity|].
  split; [rewrite Hreq; exact Hr|].
  split; [exact Hfiles|]. split.
  - unfold fileNamesOf at 1. rewrite Hfiles.
    apply (proj2 (writeBySeverity_names env all)).
    rewrite writeBySeverity_outcome, Hdates. reflexivity.
  - rewrite Hm. cbn [fst].
    rewrite app_comm_cons, (app_comm_cons _ _ (ConsoleLog (fetchedText all))), app_assoc.
    apply last_last.
Qed.

Lemma script_exports_witness :
  let rs := [okPage 1200 pageA; okPage 1200 pageB; okPage 1200 pageC] in
  snd (script testEnv rs) = Exited 0
  /\ List.length (fileNamesOf (fst (script testEnv rs))) = 63%nat.
Proof.
  intros rs.
  destruct (script_exports testEnv testRuntime 1200 3 rs) as (Hexit & _ & _ & Hnames & _).
  - reflexivity.
  - lia.
  - right. reflexivity.
  - discriminate.
  - simpl. lia.
  - repeat constructor.
  - vm_compute. reflexivity.
  - split; [exact Hexit|]. rewrite Hnames. vm_compute. reflexivity.
Defined.

(** ** The files of a bucket and the order inside a bucket *)

Section BucketFiles.
Context (env : Env) {rt : Runtime}.

Lemma chunk_iteration_trace sev l n i t :
  renderTable (chunkAt l i) = ([], Returned t) ->
  filesOf (trace (
    table <- renderTable (chunkAt l i) ;;
    emit (WriteFile (sev +++ String_of_nat (i + 1) +++ ".md")
            (partHeader env sev (i + 1) n +++ NL +++ table)) ;;;
    emit (ConsoleLog ("Wrote " +++ (sev +++ String_of_nat (i + 1) +++ ".md") +++ " ("
                      +++ String_of_nat (List.length (chunkAt l i)) +++ " issues)"))))
  = [chunkFile env sev n i t].
Proof.
  intros ->. change (@pair (list event) (result string) [] (Returned t)) with (ret t).
  rewrite bind_ret_l, !bind_emit. reflexivity.
Qed.

Lemma chunk_files_by_index sev l n (idx : list nat) :
  forallb (fun i => forallb dateOk (chunkAt l i)) idx = true ->
  exists tables,
    Forall2 (fun c t => renderTable c = ([], Returned t)) (map (chunkAt l) idx) tables
    /\ flat_map (fun i => filesOf (trace (
          table <- renderTable (chunkAt l i) ;;
          emit (WriteFile (sev +++ String_of_nat (i + 1) +++ ".md")
                  (partHeader env sev (i + 1) n +++ NL +++ table)) ;;;
          emit (ConsoleLog ("Wrote " +++ (sev +++ String_of_nat (i + 1) +++ ".md")
                            +++ " (" +++ String_of_nat (List.length (chunkAt l i))
                            +++ " issues)"))))) idx
       = map (fun it => chunkFile env sev n (fst it) (snd it)) (combine idx tables).
Proof.
  induction idx as [|i rest IH]; intros Hall.
  - exists []. split; [constructor | reflexivity].
  - cbn [forallb] in Hall. apply andb_true_iff in Hall as [Hi Hrest].
    destruct (IH Hrest) as (tables & Hf & Heq).
    pose proof (renderTable_dateOk (chunkAt l i)) as Ht. rewrite Hi in Ht.
    destruct Ht as (t & Ht).
    exists (t :: tables). split; [constructor; assumption|].
    cbn [flat_map combine map fst snd]. rewrite Heq.
    rewrite (chunk_iteration_trace sev l n i t Ht). reflexivity.
Qed.

Lemma writeBucket_files_exact sev l :
  l <> [] ->
  outcome (writeBucket env sev l) = Returned tt ->
  let n := ceilDiv (List.length l) ISSUES_PER_FILE in
  exists tables,
    Forall2 (fun c t => renderTable c = ([], Returned t)) (chunksOf l) tables
    /\ filesOf (trace (writeBucket env sev l))
       = map (fun it => chunkFile env sev n (fst it) (snd it)) (combine (seq 0 n) tables).
Proof.
  intros Hne Ho. cbv zeta.
  assert (Hall : forallb dateOk l = true).
  { rewrite (proj1 (writeBucket_outcome_names env sev l)) in Ho.
    destruct (forallb dateOk l); [reflexivity | discriminate]. }
  rewrite <- forallb_chunks in Hall.
  unfold writeBucket in *.
  destruct (List.length l =? 0)%nat eqn:E.
  { apply Nat.eqb_eq in E. destruct l; [congruence | discriminate]. }
  rewrite forEach_returned by (apply (forEach_returned_inv _ _ _ Ho)).
  cbn [trace fst]. rewrite filesOf_flat_map. unfold chunksOf.
  apply chunk_files_by_index. exact Hall.
Qed.
End BucketFiles.

(** X18: what the files of a bucket hold.  When writing a bucket with
    records completes, its files are, in order, one per chunk: file
    [i] is named [SEVi.md] and holds the header with [(Part i/n)], an
    empty line and the table rendered from chunk [i] alone; as the
    chunks put together are the bucket, every record of the bucket is
    in exactly one file. *)
Theorem bucket_files_hold_chunks (env : Env) (rt : Runtime) (sev : string)
    (l : list issue) :
  l <> [] ->
  outcome (writeBucket env sev l) = Returned tt ->
  let n := ceilDiv (List.length l) ISSUES_PER_FILE in
  List.concat (chunksOf l) = l
  /\ List.length (chunksOf l) = n
  /\ exists tables,
       Forall2 (fun c t => renderTable c = ([], Returned t)) (chunksOf l) tables
       /\ filesOf (trace (writeBucket env sev l))
          = map (fun it => chunkFile env sev n (fst it) (snd it))
                (combine (seq 0 n) tables).
Proof.
  intros Hne Ho. cbv zeta. split; [apply chunksOf_concat|].
  split; [apply chunksOf_length|].
  apply (writeBucket_files_exact env sev l Hne Ho).
Qed.

Lemma bucket_files_hold_chunks_witness :
  map fst (filesOf (trace (writeBucket testEnv "MAJOR" (bucketOf majors45 "MAJOR"))))
  = ["MAJOR1.md"; "MAJOR2.md"; "MAJOR3.md"].
Proof.
  destruct (bucket_files_hold_chunks testEnv testRuntime "MAJOR" (bucketOf majors45 "MAJOR"))
    as (_ & _ & tables & Hall & ->).
  - vm_compute. discriminate.
  - vm_compute. reflexivity.
  - assert (Hlen : List.length tables = 3%nat).
    { rewrite <- (Forall2_length Hall). vm_compute. reflexivity. }
    destruct tables as [|t1 [|t2 [|t3 [|t4 tables]]]]; try discriminate Hlen.
    vm_compute. reflexivity.
Defined.

Section BucketOrder.
Context {rt : Runtime} {CC : ConsistentCompare rt}.

Lemma compareIssues_le_files a b :
  compareIssues a b <= 0 ->
  localeCompare (extractFilePath (component a)) (extractFilePath (component b)) <= 0.
Proof.
  unfold compareIssues.
  destruct (String.eqb (extractFilePath (component a)) (extractFilePath (component b))) eqn:E;
    cbn [negb]; [|auto].
  apply String.eqb_eq in E. rewrite E, localeCompare_refl. lia.
Qed.

Lemma compareIssues_same_file a b :
  extractFilePath (component a) = extractFilePath (component b) ->
  compareIssues a b <= 0 ->
  lineOr0 a <= lineOr0 b
  /\ (lineOr0 a = lineOr0 b -> localeCompare (key a) (key b) <= 0).
Proof.
  intros Hf. unfold compareIssues. rewrite Hf, String.eqb_refl. cbn [negb].
  destruct (lineOr0 a =? lineOr0 b) eqn:El; cbn [negb]; intros H.
  - apply Z.eqb_eq in El. split; [lia | auto].
  - apply Z.eqb_neq in El. split; [lia | intros; contradiction].
Qed.

Lemma files_between a c b :
  collatesApart (filePathOf a) (filePathOf c) = true ->
  compareIssues a c <= 0 -> compareIssues c b <= 0 ->
  extractFilePath (component a) = extractFilePath (component b) ->
  extractFilePath (component c) = extractFilePath (component a).
Proof.
  intros Hap Hac Hcb Hf. apply compareIssues_le_files in Hac, Hcb. rewrite <- Hf in Hcb.
  symmetry. apply (collatesApart_true _ _ Hap). unfold filePathOf.
  pose proof (localeCompare_antisym (extractFilePath (component a))
                (extractFilePath (component c))). lia.
Qed.

Lemma StronglySorted_later {A} (R : A -> A -> Prop) pre a rest x :
  StronglySorted R (pre ++ a :: rest) -> In x rest -> R a x.
Proof.
  induction pre as [|p pre IH]; cbn [app]; intros Hs Hx.
  - inversion Hs as [|? ? _ Hall]; subst. rewrite Forall_forall in Hall. auto.
  - inversion Hs; subst. auto.
Qed.

Lemma StronglySorted_tail {A} (R : A -> A -> Prop) pre l :
  StronglySorted R (pre ++ l) -> StronglySorted R l.
Proof.
  induction pre as [|p pre IH]; cbn [app]; intros Hs; [exact Hs|].
  inversion Hs; subst. auto.
Qed.
End BucketOrder.

(** X19: a bucket lists its records file by file, by ascending line.
    For a [localeCompare] that is a consistent comparison and tells
    the file paths of the bucket apart: of two records of the sorted
    bucket, the earlier never compares after the later; when both are
    of the same file, so is every record listed between them, the line
    numbers (a missing line read as 0) do not decrease from the first
    to the second, and records of the same file and line are in the
    order in which [localeCompare] puts their keys. *)
Theorem bucket_listed_by_file_then_line {rt : Runtime} (CC : ConsistentCompare rt)
    (issues : list issue) (sev : string) (pre mid post : list issue) (a b : issue) :
  pathsApart (filter (hasSeverity sev) issues) = true ->
  bucketOf issues sev = pre ++ a :: mid ++ b :: post ->
  compareIssues a b <= 0
  /\ (extractFilePath (component a) = extractFilePath (component b) ->
      lineOr0 a <= lineOr0 b
      /\ (lineOr0 a = lineOr0 b -> localeCompare (key a) (key b) <= 0)
      /\ forall c, In c mid ->
           extractFilePath (component c) = extractFilePath (component a)
           /\ lineOr0 a <= lineOr0 c <= lineOr0 b).
Proof.
  intros Hp E.
  pose proof (bucket_strongly_sorted (filter (hasSeverity sev) issues) Hp) as Hs.
  fold (bucketOf issues sev) in Hs. rewrite E in Hs.
  assert (Hin : forall x, In x (pre ++ a :: mid ++ b :: post) ->
                          In x (filter (hasSeverity sev) issues)).
  { intros x Hx. rewrite <- E in Hx.
    apply (Permutation_in _ (Permutation_sym (bucketOf_perm issues sev))). exact Hx. }
  assert (Hab : compareIssues a b <= 0).
  { apply (StronglySorted_later _ pre a (mid ++ b :: post) b Hs).
    apply in_or_app. right. left. reflexivity. }
  split; [exact Hab|]. intros Hf.
  destruct (compareIssues_same_file a b Hf Hab) as [Hl Hk].
  split; [exact Hl|]. split; [exact Hk|].
  intros c Hc.
  assert (Hac : compareIssues a c <= 0).
  { apply (StronglySorted_later _ pre a (mid ++ b :: post) c Hs).
    apply in_or_app. left. exact Hc. }
  assert (Hcb : compareIssues c b <= 0).
  { apply StronglySorted_tail in Hs. inversion Hs as [|? ? Hs' _]; subst.
    apply in_split in Hc as (m1 & m2 & ->). rewrite <- app_assoc in Hs'.
    cbn [app] in Hs'.
    apply (StronglySorted_later _ m1 c (m2 ++ b :: post) b Hs').
    apply in_or_app. right. left. reflexivity. }
  assert (Hapart : collatesApart (filePathOf a) (filePathOf c) = true).
  { apply (pathsApart_In _ a c Hp); apply Hin.
    - apply in_or_app. right. left. reflexivity.
    - apply in_or_app. right. right. apply in_or_app. left. exact Hc. }
  pose proof (files_between a c b Hapart Hac Hcb Hf) as Hfc.
  split; [exact Hfc|].
  destruct (compareIssues_same_file a c (eq_sym Hfc) Hac) as [H1 _].
  destruct (compareIssues_same_file c b (eq_trans Hfc Hf) Hcb) as [H2 _].
  lia.
Qed.

Lemma bucket_listed_by_file_then_line_witness :
  let x := mkIssue "K7" "useago_ago-chat:src/a.ts" "MAJOR" (Some 4) "between" in
  @bucketOf collatingRuntime [issueA; x; issueB] "MAJOR" = [issueB; x; issueA]
  /\ lineOr0 issueB <= lineOr0 x <= lineOr0 issueA.
Proof.
  intros x. split; [reflexivity|].
  destruct (@bucket_listed_by_file_then_line collatingRuntime collatingRuntime_consistent
              [issueA; x; issueB] "MAJOR" [] [x] [] issueB issueA
              ltac:(vm_compute; reflexivity) eq_refl)
    as (_ & H).
  destruct (H eq_refl) as (_ & _ & Hmid).
  apply (Hmid x). left. reflexivity.
Defined.

(** ** [mdEscape] on a concatenation *)

Lemma replacePipes_app a b : replacePipes (a +++ b) = replacePipes a +++ replacePipes b.
Proof.
  induction a as [|c a IH]; [reflexivity|].
  cbn [String.append replacePipes]. rewrite IH.
  destruct (Ascii.eqb c PIPE); reflexivity.
Qed.

Lemma startsWith_replacePipes b : startsWith LF (replacePipes b) = startsWith LF b.
Proof.
  destruct b as [|c b]; [reflexivity|]. cbn [replacePipes].
  destruct (Ascii.eqb c PIPE) eqn:E; [|reflexivity].
  apply Ascii.eqb_eq in E. subst c. reflexivity.
Qed.

Lemma endsWith_cons c d s : s <> EmptyString -> endsWith c (String d s) = endsWith c s.
Proof. destruct s; [congruence | reflexivity]. Qed.

Lemma endsWith_replacePipes a : endsWith CR (replacePipes a) = endsWith CR a.
Proof.
  induction a as [|c a IH]; [reflexivity|].
  destruct a as [|d a].
  - cbn [replacePipes]. destruct (Ascii.eqb c PIPE) eqn:E; [|reflexivity].
    apply Ascii.eqb_eq in E. subst c. reflexivity.
  - assert (Hne : replacePipes (String d a) <> EmptyString).
    { cbn [replacePipes]. destruct (Ascii.eqb d PIPE); discriminate. }
    rewrite (endsWith_cons CR c (String d a)) by discriminate. rewrite <- IH.
    cbn [replacePipes]. destruct (Ascii.eqb c PIPE).
    + rewrite endsWith_cons by discriminate. apply endsWith_cons.
      cbn [replacePipes] in Hne. exact Hne.
    + apply endsWith_cons. cbn [replacePipes] in Hne. exact Hne.
Qed.

Lemma replaceNewlines_app u : forall v,
  endsWith CR u && startsWith LF v = false ->
  replaceNewlines (u +++ v) = replaceNewlines u +++ replaceNewlines v.
Proof.
  induction u as [|c u IH]; intros v Hc; [reflexivity|].
  destruct u as [|d u].
  - cbn [String.append endsWith] in *. cbn [replaceNewlines].
    destruct (Ascii.eqb c LF); [reflexivity|].
    destruct (Ascii.eqb c CR) eqn:Er; [|reflexivity].
    destruct v as [|e v]; [reflexivity|].
    cbn [andb startsWith] in Hc. rewrite Hc. reflexivity.
  - rewrite (endsWith_cons CR c (String d u)) in Hc by discriminate.
    specialize (IH v Hc).
    change (String c (String d u) +++ v) with (String c (String d (u +++ v))).
    change (String d u +++ v) with (String d (u +++ v)) in IH.
    cbn [replaceNewlines] in IH |- *.
    destruct (Ascii.eqb c LF).
    + cbn [replaceNewlines] in IH. rewrite IH, append_assoc. reflexivity.
    + destruct (Ascii.eqb c CR).
      * destruct (Ascii.eqb d LF).
        -- rewrite append_assoc in IH. apply append_cancel_l in IH.
           rewrite IH, append_assoc. reflexivity.
        -- rewrite IH. reflexivity.
      * rewrite IH. reflexivity.
Qed.

(** X20: escaping piece by piece.  Escaping a text made of two pieces
    gives the two escaped pieces one after the other, unless the first
    piece ends with a carriage return and the second begins with a
    line feed: then the pair is one line break and becomes a single
    [<br>], and the pieces escaped apart are one character longer. *)
Theorem mdEscape_concatenation (a b : string) :
  (endsWith CR a && startsWith LF b = false ->
   mdEscape (a +++ b) = mdEscape a +++ mdEscape b)
  /\ mdEscape (String CR (String LF b)) = "<br>" +++ mdEscape b
  /\ mdEscape (String CR EmptyString) +++ mdEscape (String LF b)
     = String CR ("<br>" +++ mdEscape b).
Proof.
  split; [|split].
  - intros H. unfold mdEscape. rewrite replacePipes_app.
    apply replaceNewlines_app.
    rewrite endsWith_replacePipes, startsWith_replacePipes. exact H.
  - rewrite mdEscape_unfold. reflexivity.
  - rewrite (mdEscape_unfold LF b). reflexivity.
Qed.

Lemma mdEscape_concatenation_witness :
  mdEscape ("a|b" +++ "c" +++ NL) = mdEscape "a|b" +++ mdEscape ("c" +++ NL).
Proof.
  apply (proj1 (mdEscape_concatenation "a|b" ("c" +++ NL))). reflexivity.
Defined.

(** X21: which rows stay on one line.  Whatever the other fields of a
    record hold, its rendered row holds a line feed exactly when its
    key holds one: the type, rule, severity, status, file, line,
    message and date cells never bring one in. *)
Theorem row_single_line_iff_key {rt : Runtime} (it : issue) (row : string) :
  outcome (renderRow it) = Returned row ->
  (hasChar LF row = false <-> hasChar LF (key it) = false)
  /\ countChar LF row = countChar LF (key it).
Proof.
  intros Ho. split.
  - rewrite (renderRow_single_line it row Ho). reflexivity.
  - revert Ho. unfold renderRow.
    destruct (createdOf_pure it) as [(s & ->) | (e & ->)]; [|discriminate].
    change (@pair (list event) (result string) [] (Returned s)) with (ret s).
    rewrite bind_ret_l. cbn [outcome ret snd]. intros H. apply Returned_inj in H.
    subst row.
    assert (Hz : forall t, countChar LF (mdEscape t) = 0%nat)
      by (intros t; apply countChar_zero; apply mdEscape_cell).
    assert (Hu : countChar LF (issueUrl (key it)) = 0%nat)
      by (apply countChar_zero; apply issueUrl_no_LF).
    rewrite !countChar_app, !Hz, Hu. cbn [countChar Ascii.eqb]. unfold LF.
    cbn. lia.
Qed.

Lemma row_single_line_iff_key_witness :
  exists row,
    outcome (renderRow (rt := testRuntime) issueA) = Returned row
    /\ countChar LF row = 0%nat.
Proof.
  eexists. split; [vm_compute; reflexivity|].
  rewrite (proj2 (row_single_line_iff_key (rt := testRuntime) issueA _
                    ltac:(vm_compute; reflexivity))).
  reflexivity.
Defined.
